(** * Frameo Sync: the sync engine, the ADB transport and the scheduler

    A shallow embedding of [services/sync/SyncEngine.ts],
    [services/adb/AdbService.ts] and [services/sync/SyncScheduler.ts],
    followed by the properties of the reconciliation run. *)

From Stdlib Require Import ZArith Ascii String.
From stdpp Require Import base option list gmap strings pretty.

Open Scope string_scope.
Open Scope nat_scope.

(** ** Exceptions

    A JavaScript call either returns a value or throws; [inl msg] is a
    thrown [Error] with message [msg]. *)

Definition Exn (A : Type) : Type := (string + A)%type.

(** ** The parts of JavaScript's [String] the transport relies on

    A character of the model is a UTF-16 code unit below U+0100. *)

Module Js.

(** [s.startsWith(p)]. *)
Fixpoint starts_with (p s : string) : bool :=
  match p with
  | EmptyString => true
  | String a p' =>
      match s with
      | EmptyString => false
      | String b s' => Ascii.eqb a b && starts_with p' s'
      end
  end.

(** [s.includes(needle)]. *)
Fixpoint includes (needle s : string) : bool :=
  starts_with needle s ||
  match s with
  | EmptyString => false
  | String _ s' => includes needle s'
  end.

(** [s.split(sep)[0]]: everything before the first [sep]. *)
Fixpoint split_head (sep : ascii) (s : string) : string :=
  match s with
  | EmptyString => EmptyString
  | String c s' =>
      if Ascii.eqb c sep then EmptyString else String c (split_head sep s')
  end.

(** The white space and the line terminators of JavaScript, which
    [trim()] strips and [\s] matches: among the characters below U+0100
    these are TAB, LF, VT, FF, CR, the space and the no-break space
    U+00A0. *)
Definition is_space (c : ascii) : bool :=
  let n := nat_of_ascii c in
  (n =? 32)%nat || ((9 <=? n)%nat && (n <=? 13)%nat) || (n =? 160)%nat.

Fixpoint trim_start (s : string) : string :=
  match s with
  | EmptyString => EmptyString
  | String c s' => if is_space c then trim_start s' else s
  end.

Fixpoint trim_end (s : string) : string :=
  match s with
  | EmptyString => EmptyString
  | String c s' =>
      match trim_end s' with
      | EmptyString => if is_space c then EmptyString else String c EmptyString
      | t => String c t
      end
  end.

(** [s.trim()]. *)
Definition trim (s : string) : string := trim_start (trim_end s).

(** An ASCII character: one byte of UTF-8 text, which decodes to itself. *)
Definition is_ascii (c : ascii) : bool := (nat_of_ascii c <? 128)%nat.

(** JavaScript truthiness of a string: only the empty string is falsy. *)
Definition truthy (s : string) : bool :=
  match s with EmptyString => false | _ => true end.

Fixpoint all_chars (P : ascii → bool) (s : string) : bool :=
  match s with
  | EmptyString => true
  | String c s' => P c && all_chars P s'
  end.

(** The last character of [s] is not [c] ([s] may be empty). *)
Fixpoint last_is_not (c : ascii) (s : string) : bool :=
  match s with
  | EmptyString => true
  | String a EmptyString => negb (Ascii.eqb a c)
  | String _ s' => last_is_not c s'
  end.

(** The message of the error Node raises on opening a file that does not
    exist. *)
Definition enoent (path : string) : string :=
  "ENOENT: no such file or directory, open '" ++ path ++ "'".

End Js.

(** ** AdbService *)

Module Adb.

(** What goes wrong with the connection at one transport call. *)
Inductive Fault : Type :=
| NoFault
| ConnectionFault   (* the call to the ADB client throws *)
| TransferFault.    (* a started transfer emits its [error] event *)

Global Instance Fault_eq_dec : EqDecision Fault.
Proof. solve_decision. Defined.

(** The remote endpoint a serial addresses.  A stored file is represented
    by the MD5 digest of its bytes, which is all the program ever observes
    of it.  [faults] is the schedule of what happens to the connection at
    the coming transport calls, one entry a call; past its end the
    connection is sound. *)
Record Device : Type := mkDevice {
  files : gmap string string;
  faults : list Fault
}.

Definition next_fault (d : Device) : Fault * Device :=
  match faults d with
  | [] => (NoFault, d)
  | f :: rest => (f, mkDevice (files d) rest)
  end.

(** A device whose connection never fails. *)
Definition live (d : Device) : Prop := Forall (λ f, f = NoFault) (faults d).

(** *** The shell of the device

    The service sends command lines in which a path stands between double
    quotes.  Inside double quotes the shell takes every character as it
    is, except [$], the backquote and the backslash, which start an
    expansion, a substitution or an escape, and the double quote, which
    ends the word. *)

Definition dquote : ascii := ascii_of_nat 34.

Definition is_literal (c : ascii) : bool :=
  let n := nat_of_ascii c in
  negb ((n =? 34)%nat || (n =? 36)%nat || (n =? 92)%nat || (n =? 96)%nat).

(** A word that the shell, reading it between double quotes, takes as it
    is written. *)
Definition literal (w : string) : bool := Js.all_chars is_literal w.

(** [`"${w}"`]: the text [w] put between double quotes. *)
Definition quoted (w : string) : string :=
  String dquote (w ++ String dquote EmptyString).

(** The commands the model of the device follows, with the words the shell
    has read. *)
Inductive Command : Type :=
| RmForce (path : string)        (* rm -f path *)
| Md5sum (path : string)         (* md5sum path 2>/dev/null *)
| MkdirP (path : string)         (* mkdir -p path *)
| Echo (text : string).          (* echo text *)

(** The text after an opening double quote: the word up to the closing
    quote and what follows it, when the word is literal. *)
Fixpoint word_from (s : string) : option (string * string) :=
  match s with
  | EmptyString => None
  | String c s' =>
      if Ascii.eqb c dquote then Some (EmptyString, s')
      else if is_literal c then
        match word_from s' with
        | Some (w, rest) => Some (String c w, rest)
        | None => None
        end
      else None
  end.

(** [s] without its prefix [p]. *)
Fixpoint after (p s : string) : option string :=
  match p with
  | EmptyString => Some s
  | String a p' =>
      match s with
      | String b s' => if Ascii.eqb a b then after p' s' else None
      | EmptyString => None
      end
  end.

(** The word of a command line made of [name], one double-quoted literal
    word and [tail]. *)
Definition reads (name tail line : string) : option string :=
  match after name line with
  | Some (String c rest) =>
      if Ascii.eqb c dquote then
        match word_from rest with
        | Some (w, rest') => if String.eqb rest' tail then Some w else None
        | None => None
        end
      else None
  | _ => None
  end.

(** The command lines the model follows: those of the service, when their
    double-quoted word is literal. *)
Definition parse (line : string) : option Command :=
  match reads "rm -f " "" line with
  | Some path => Some (RmForce path)
  | None =>
  match reads "md5sum " " 2>/dev/null" line with
  | Some path => Some (Md5sum path)
  | None =>
  match reads "mkdir -p " "" line with
  | Some path => Some (MkdirP path)
  | None =>
  match reads "echo " "" line with
  | Some text => Some (Echo text)
  | None => None
  end end end end.

Definition newline : string := String (ascii_of_nat 10) EmptyString.

(** What a command does: its standard output and the files afterwards. *)
Definition exec (c : Command) (fs : gmap string string)
  : string * gmap string string :=
  match c with
  | RmForce p => ("", delete p fs)
  | Md5sum p =>
      match fs !! p with
      | Some digest => (digest ++ "  " ++ p ++ newline, fs)
      | None => ("", fs)
      end
  | MkdirP _ => ("", fs)
  | Echo t => (t ++ newline, fs)
  end.

(** What the device's shell does with a command line.  A line whose
    double-quoted word is not literal makes the shell act on whatever the
    word expands to on that device; the model does not follow it there: it
    finds no file and changes none.  The properties that tell what the
    device holds at a path are stated for literal paths. *)
Definition run (line : string) (fs : gmap string string)
  : string * gmap string string :=
  match parse line with
  | Some c => exec c fs
  | None => ("", fs)
  end.

(** [shell(serial, command)]: the trimmed output, or the error rethrown. *)
Definition shell (d : Device) (command : string) : Exn string * Device :=
  match next_fault d with
  | (NoFault, d1) =>
      let (out, fs) := run command (files d1) in
      (inr (Js.trim out), mkDevice fs (faults d1))
  | (_, d1) => (inl "device offline", d1)
  end.

Record PushResult : Type := mkPushResult {
  success : bool;
  pushedPath : string;
  error : string
}.

(** [pushFile(serial, localPath, devicePath)].  [local] is the content of
    the local file, [None] when there is no such file.  The file goes to
    the device through the sync protocol, under the path as it is written.
    A failure to start the transfer is caught and returned as
    [success: false]; an error of the running transfer rejects the
    returned promise. *)
Definition pushFile (d : Device) (localPath : string) (local : option string)
    (devicePath : string) : Exn PushResult * Device :=
  match next_fault d with
  | (ConnectionFault, d1) =>
      (inr (mkPushResult false devicePath "device offline"), d1)
  | (TransferFault, d1) => (inl "transfer failed", d1)
  | (NoFault, d1) =>
      match local with
      | None => (inl (Js.enoent localPath), d1)
      | Some digest =>
          (inr (mkPushResult true devicePath ""),
           mkDevice (<[devicePath := digest]> (files d1)) (faults d1))
      end
  end.

(** [deleteFile(serial, devicePath)]. *)
Definition deleteFile (d : Device) (devicePath : string) : Exn bool * Device :=
  match shell d ("rm -f " ++ quoted devicePath) with
  | (inr _, d1) => (inr true, d1)
  | (inl _, d1) => (inr false, d1)
  end.

(** [getFileHash(serial, devicePath)]; [None] is [null]. *)
Definition getFileHash (d : Device) (devicePath : string)
  : Exn (option string) * Device :=
  match shell d ("md5sum " ++ quoted devicePath ++ " 2>/dev/null") with
  | (inr output, d1) =>
      if negb (Js.truthy output) || Js.includes "No such file" output
      then (inr None, d1)
      else (inr (Some (Js.split_head " " output)), d1)
  | (inl _, d1) => (inr None, d1)
  end.

(** [ensureDirectory(serial, devicePath)]. *)
Definition ensureDirectory (d : Device) (devicePath : string)
  : Exn unit * Device :=
  match shell d ("mkdir -p " ++ quoted devicePath) with
  | (inr _, d1) => (inr tt, d1)
  | (inl e, d1) => (inl e, d1)
  end.

(** The text of an MD5 digest, as [md5sum] and [digest('hex')] print it:
    lower-case hexadecimal digits, and at least one. *)
Definition is_hex (c : ascii) : bool :=
  let n := nat_of_ascii c in
  ((48 <=? n)%nat && (n <=? 57)%nat) || ((97 <=? n)%nat && (n <=? 102)%nat).

Definition hex_digest (h : string) : bool :=
  Js.truthy h && Js.all_chars is_hex h.

(** The fault of the [i]-th coming transport call. *)
Definition fault_at (d : Device) (i : nat) : Fault := nth i (faults d) NoFault.

(** The file the device's shell finds for the double-quoted word [path]. *)
Definition found (fs : gmap string string) (path : string) : option string :=
  if literal path then fs !! path else None.

(** What [getFileHash] answers over a sound connection for a path at which
    the shell finds [entry]. *)
Definition probe (entry : option string) (path : string) : option string :=
  match entry with
  | None => None
  | Some digest =>
      let output := Js.trim (digest ++ "  " ++ path ++ newline) in
      if negb (Js.truthy output) || Js.includes "No such file" output
      then None
      else Some (Js.split_head " " output)
  end.

End Adb.

(** ** SyncEngine *)

Module Engine.

(** Row identifiers are UUIDs drawn by [generateId]; the model numbers
    them, so that a drawn identifier is one never drawn before. *)
Definition uuid : Type := nat.

Inductive SyncMode : Type := mirror | add_only.

Record SyncMapping : Type := mkMapping {
  mapping_id : uuid;
  sourceId : uuid;
  deviceId : uuid;
  syncMode : SyncMode;
  maxPhotos : option Z;
  schedule : option string;
  isActive : bool
}.

Record PhotoInfo : Type := mkPhoto {
  photo_id : string;
  photo_name : string;
  photo_path : string
}.

Record SourceRecord : Type := mkSource {
  source_id : uuid;
  source_type : string;
  lastSyncAt : option string
}.

Record DeviceRecord : Type := mkDeviceRecord {
  device_id : uuid;
  serial : string;
  devicePath : string
}.

Record SyncedPhoto : Type := mkSynced {
  synced_id : uuid;
  mappingId : uuid;
  sourcePhotoId : string;
  sourcePath : string;
  syncedDevicePath : string;
  fileHash : string;
  fileSize : nat
}.

Global Instance PhotoInfo_eq_dec : EqDecision PhotoInfo.
Proof. solve_decision. Defined.

Global Instance SyncedPhoto_eq_dec : EqDecision SyncedPhoto.
Proof. solve_decision. Defined.

Record SyncLog : Type := mkLog {
  log_id : uuid;
  log_mapping : uuid;
  operation : string;
  status : string;
  message : string
}.

Record SyncResult : Type := mkResult {
  result_mapping : uuid;
  success : bool;
  photosAdded : nat;
  photosRemoved : nat;
  photosSkipped : nat;
  errors : list string
}.

Record ProcessedImage : Type := mkProcessed {
  image_path : string;
  image_size : nat;
  image_format : string
}.

(** The tables of the database and the state of [generateId]. *)
Record Db : Type := mkDb {
  sync_mappings : list SyncMapping;
  sources : list SourceRecord;
  devices : list DeviceRecord;
  synced_photos : list SyncedPhoto;
  sync_logs : list SyncLog;
  next_uuid : uuid
}.

(** What a run reads and writes: the database, the device behind the
    mapping's serial, the files of the run's temp directory (each by the
    digest of its bytes), and the result object under construction.
    Statements on the database and deletions in the temp directory are taken
    to succeed; what can fail is the transport, the source and the image
    library. *)
Record State : Type := mkState {
  db : Db;
  adb : Adb.Device;
  tmp : gmap string string;
  result : SyncResult
}.

(** A photo source: the listing it returns and, for a photo, the temp file
    a download writes (its path and its bytes) or the error it throws; a
    download that throws may leave a partial file behind. *)
Record Source : Type := mkSourceObj {
  getPhotos : Exn (list PhotoInfo);
  fetch : PhotoInfo → Exn (string * string);
  fetchLeaves : PhotoInfo → option (string * string)
}.

(** The collaborators of a run: the source factories, the image library
    (for an input file, the processed image and its bytes, or an error, and
    the file a failed processing may leave behind), and the clock. *)
Record Env : Type := mkEnv {
  sourceFactories : string → option (SourceRecord → Source);
  render : string → string → Exn (ProcessedImage * string);
  renderLeaves : string → string → option (string * string);
  now : string
}.

(** *** Statements that read or write the state and may throw *)

Definition M (A : Type) : Type := State → Exn A * State.

Definition ret {A} (a : A) : M A := λ s, (inr a, s).
Definition throw {A} (e : string) : M A := λ s, (inl e, s).
Definition bind {A B} (m : M A) (k : A → M B) : M B :=
  λ s, match m s with
       | (inr a, s1) => k a s1
       | (inl e, s1) => (inl e, s1)
       end.
Definition try_catch {A} (m : M A) (handler : string → M A) : M A :=
  λ s, match m s with
       | (inr a, s1) => (inr a, s1)
       | (inl e, s1) => handler e s1
       end.
Definition modify (f : State → State) : M unit := λ s, (inr tt, f s).

Notation "'let*' x := m 'in' k" := (bind m (λ x, k))
  (at level 10, x name, m at level 100, k at level 200).

Fixpoint for_each {A} (l : list A) (body : A → M unit) : M unit :=
  match l with
  | [] => ret tt
  | x :: l' => let* _ := body x in for_each l' body
  end.

(** *** The result object *)

Definition with_result (f : SyncResult → SyncResult) (s : State) : State :=
  mkState (db s) (adb s) (tmp s) (f (result s)).
Definition with_db (f : Db → Db) (s : State) : State :=
  mkState (f (db s)) (adb s) (tmp s) (result s).
Definition with_adb (d : Adb.Device) (s : State) : State :=
  mkState (db s) d (tmp s) (result s).
Definition with_tmp (f : gmap string string → gmap string string) (s : State)
  : State :=
  mkState (db s) (adb s) (f (tmp s)) (result s).

Definition emptyResult (m : uuid) : SyncResult := mkResult m false 0 0 0 [].

Definition add_skipped (r : SyncResult) : SyncResult :=
  mkResult (result_mapping r) (success r) (photosAdded r) (photosRemoved r)
           (S (photosSkipped r)) (errors r).
Definition add_added (r : SyncResult) : SyncResult :=
  mkResult (result_mapping r) (success r) (S (photosAdded r)) (photosRemoved r)
           (photosSkipped r) (errors r).
Definition add_removed (r : SyncResult) : SyncResult :=
  mkResult (result_mapping r) (success r) (photosAdded r) (S (photosRemoved r))
           (photosSkipped r) (errors r).
Definition push_error (e : string) (r : SyncResult) : SyncResult :=
  mkResult (result_mapping r) (success r) (photosAdded r) (photosRemoved r)
           (photosSkipped r) (errors r ++ [e]).
Definition set_success (b : bool) (r : SyncResult) : SyncResult :=
  mkResult (result_mapping r) b (photosAdded r) (photosRemoved r)
           (photosSkipped r) (errors r).

(** *** The database *)

Definition getMapping (d : Db) (id : uuid) : option SyncMapping :=
  List.find (λ m, Nat.eqb (mapping_id m) id) (sync_mappings d).
Definition getSource (d : Db) (id : uuid) : option SourceRecord :=
  List.find (λ r, Nat.eqb (source_id r) id) (sources d).
Definition getDevice (d : Db) (id : uuid) : option DeviceRecord :=
  List.find (λ r, Nat.eqb (device_id r) id) (devices d).

Definition generateId (d : Db) : uuid * Db :=
  (next_uuid d,
   mkDb (sync_mappings d) (sources d) (devices d) (synced_photos d)
        (sync_logs d) (S (next_uuid d))).

Definition getSyncedPhotos (d : Db) (m : uuid) : list SyncedPhoto :=
  filter (λ r, mappingId r = m) (synced_photos d).

(** [INSERT OR REPLACE]: the rows that clash with the new one on the
    primary key or on [UNIQUE(mapping_id, source_photo_id)] go first. *)
Definition clashes (new old : SyncedPhoto) : Prop :=
  synced_id old = synced_id new ∨
  (mappingId old = mappingId new ∧ sourcePhotoId old = sourcePhotoId new).

Global Instance clashes_dec new old : Decision (clashes new old).
Proof. unfold clashes. apply _. Defined.

Definition insert_or_replace (row : SyncedPhoto) (rows : list SyncedPhoto)
  : list SyncedPhoto :=
  filter (λ old, ¬ clashes row old) rows ++ [row].

Definition recordSyncedPhoto (m : uuid) (photoId path devPath hash : string)
    (size : nat) (d : Db) : Db :=
  let (id, d1) := generateId d in
  mkDb (sync_mappings d1) (sources d1) (devices d1)
       (insert_or_replace (mkSynced id m photoId path devPath hash size)
                          (synced_photos d1))
       (sync_logs d1) (next_uuid d1).

Definition deleteSyncedPhoto (id : uuid) (d : Db) : Db :=
  mkDb (sync_mappings d) (sources d) (devices d)
       (filter (λ r, synced_id r ≠ id) (synced_photos d))
       (sync_logs d) (next_uuid d).

Definition logSync (m : uuid) (op st msg : string) (d : Db) : Db :=
  let (id, d1) := generateId d in
  mkDb (sync_mappings d1) (sources d1) (devices d1) (synced_photos d1)
       (sync_logs d1 ++ [mkLog id m op st msg]) (next_uuid d1).

(** [BaseSource.updateLastSync]. *)
Definition updateLastSync (id : uuid) (t : string) (d : Db) : Db :=
  mkDb (sync_mappings d)
       (map (λ r, if Nat.eqb (source_id r) id
                  then mkSource (source_id r) (source_type r) (Some t)
                  else r) (sources d))
       (devices d) (synced_photos d) (sync_logs d) (next_uuid d).

(** [createSource(record)]. *)
Definition createSource (env : Env) (r : SourceRecord) : Exn Source :=
  match sourceFactories env (source_type r) with
  | Some factory => inr (factory r)
  | None => inl ("Unknown source type: " ++ source_type r)
  end.

(** *** Collaborators seen from a run *)

Definition lift {A} (r : Exn A) : M A := λ s, (r, s).
Definition gets {A} (f : State → A) : M A := λ s, (inr (f s), s).

(** A call of [adbService]: it answers and moves the device on. *)
Definition adbCall {A} (f : Adb.Device → Exn A * Adb.Device) : M A :=
  λ s, let (r, d) := f (adb s) in (r, with_adb d s).

(** A file left in the temp directory, if any. *)
Definition leave (left : option (string * string)) (files : gmap string string)
  : gmap string string :=
  match left with
  | Some (path, bytes) => <[path := bytes]> files
  | None => files
  end.

(** [source.downloadPhoto(photo, tempDir)]. *)
Definition downloadPhoto (src : Source) (photo : PhotoInfo) : M string :=
  λ s, match fetch src photo with
       | inl e => (inl e, with_tmp (leave (fetchLeaves src photo)) s)
       | inr (path, bytes) => (inr path, with_tmp (insert path bytes) s)
       end.

(** [imageProcessor.processImage(inputPath, options)]: reads the input
    file and writes the processed one. *)
Definition processImage (env : Env) (inputPath : string) : M ProcessedImage :=
  λ s, match tmp s !! inputPath with
       | None => (inl "ENOENT: no such file or directory", s)
       | Some bytes =>
           match render env inputPath bytes with
           | inl e =>
               (inl e, with_tmp (leave (renderLeaves env inputPath bytes)) s)
           | inr (img, out) =>
               (inr img, with_tmp (insert (image_path img) out) s)
           end
       end.

(** [computeHash(filePath)]: the MD5 digest of a local file. *)
Definition computeHash (filePath : string) : M string :=
  λ s, match tmp s !! filePath with
       | Some digest => (inr digest, s)
       | None => (inl (Js.enoent filePath), s)
       end.

(** [imageProcessor.cleanup(filePath)]: unlink, errors ignored. *)
Definition cleanup (filePath : string) : M unit :=
  modify (with_tmp (delete filePath)).

Definition pushFile (localPath devPath : string) : M Adb.PushResult :=
  λ s, let (r, d) :=
         Adb.pushFile (adb s) localPath (tmp s !! localPath) devPath in
       (r, with_adb d s).

(** *** The addition pass *)

(** The body of the [try] of one iteration of [for (const photo of
    photosToSync)]. *)
Definition syncPhoto (env : Env) (source : Source) (m : uuid)
    (device : DeviceRecord) (syncedPhotoIds : gset string)
    (photo : PhotoInfo) : M unit :=
  if bool_decide (photo_id photo ∈ syncedPhotoIds) then
    modify (with_result add_skipped)
  else
    let* downloadedPath := downloadPhoto source photo in
    let* processed := processImage env downloadedPath in
    let* hash := computeHash (image_path processed) in
    let deviceFileName := hash ++ "." ++ image_format processed in
    let devPath := devicePath device ++ "/" ++ deviceFileName in
    let* existingHash := adbCall (λ d, Adb.getFileHash d devPath) in
    if bool_decide (existingHash = Some hash) then
      let* _ := modify (with_result add_skipped) in
      let* _ := cleanup downloadedPath in
      cleanup (image_path processed)
    else
      let* pushResult := pushFile (image_path processed) devPath in
      let* _ :=
        if Adb.success pushResult then
          let* _ := modify (with_db (recordSyncedPhoto m (photo_id photo)
                              (photo_path photo) devPath hash
                              (image_size processed))) in
          modify (with_result add_added)
        else
          modify (with_result (push_error
            ("Failed to push " ++ photo_name photo ++ ": "
               ++ Adb.error pushResult))) in
      let* _ := cleanup downloadedPath in
      cleanup (image_path processed).

(** One iteration, with its [catch]. *)
Definition processPhoto (env : Env) (source : Source) (m : uuid)
    (device : DeviceRecord) (syncedPhotoIds : gset string)
    (photo : PhotoInfo) : M unit :=
  try_catch (syncPhoto env source m device syncedPhotoIds photo)
    (λ e, modify (with_result (push_error
            ("Error processing " ++ photo_name photo ++ ": " ++ e)))).

(** *** The removal pass *)

(** One iteration of [for (const synced of toRemove)]. *)
Definition removePhoto (synced : SyncedPhoto) : M unit :=
  try_catch
    (let* _ := adbCall (λ d, Adb.deleteFile d (syncedDevicePath synced)) in
     let* _ := modify (with_db (deleteSyncedPhoto (synced_id synced))) in
     modify (with_result add_removed))
    (λ e, modify (with_result (push_error
            ("Failed to remove " ++ syncedDevicePath synced ++ ": " ++ e)))).

(** *** executeSync *)

(** [sourcePhotos.slice(0, n)] for an integer [n]. *)
Definition slice0 {A} (l : list A) (n : Z) : list A :=
  if (n <? 0)%Z then take (Z.to_nat (Z.of_nat (length l) + n)) l
  else take (Z.to_nat n) l.

(** [mapping.maxPhotos ? sourcePhotos.slice(0, mapping.maxPhotos)
    : sourcePhotos]; [undefined] and [0] are falsy. *)
Definition photosToSync (mapping : SyncMapping) (sourcePhotos : list PhotoInfo)
  : list PhotoInfo :=
  match maxPhotos mapping with
  | Some n => if (n =? 0)%Z then sourcePhotos else slice0 sourcePhotos n
  | None => sourcePhotos
  end.

Definition toRemove (syncedPhotos : list SyncedPhoto) (photos : list PhotoInfo)
  : list SyncedPhoto :=
  let sourcePhotoIds : gset string := list_to_set (photo_id <$> photos) in
  filter (λ sp, sourcePhotoId sp ∉ sourcePhotoIds) syncedPhotos.

Definition completionMessage (r : SyncResult) : string :=
  "Added: " ++ pretty (photosAdded r) ++ ", Removed: "
    ++ pretty (photosRemoved r) ++ ", Skipped: " ++ pretty (photosSkipped r).

(** The outer [try] block. *)
Definition syncBody (env : Env) (m : uuid) (mapping : SyncMapping)
    (sourceRecord : SourceRecord) (device : DeviceRecord) : M unit :=
  let* source := lift (createSource env sourceRecord) in
  let* _ := adbCall (λ d, Adb.ensureDirectory d (devicePath device)) in
  let* sourcePhotos := lift (getPhotos source) in
  let photos := photosToSync mapping sourcePhotos in
  let* syncedPhotos := gets (λ s, getSyncedPhotos (db s) m) in
  let syncedPhotoIds : gset string :=
    list_to_set (sourcePhotoId <$> syncedPhotos) in
  let* _ := for_each photos
              (processPhoto env source m device syncedPhotoIds) in
  let* _ :=
    match syncMode mapping with
    | mirror => for_each (toRemove syncedPhotos photos) removePhoto
    | add_only => ret tt
    end in
  let* _ := modify (with_db (updateLastSync (source_id sourceRecord)
                               (now env))) in
  let* _ := modify (with_tmp (λ _, ∅)) in
  let* _ := modify (with_result
              (λ r, set_success (bool_decide (errors r = [])) r)) in
  let* r := gets result in
  modify (with_db (logSync m "sync_complete"
            (if success r then "success" else "failure")
            (completionMessage r))).

(** [executeSync(mappingId)], run on a database, the device of the mapping
    and the temp directory of the mapping.  The [result] of the final state
    is the [SyncResult] returned. *)
Definition executeSync (env : Env) (m : uuid) (d : Db) (dev : Adb.Device)
    (files : gmap string string) : State :=
  let s0 := mkState d dev files (emptyResult m) in
  match getMapping d m with
  | None => with_result (push_error "Mapping not found") s0
  | Some mapping =>
      match getSource d (sourceId mapping) with
      | None => with_result (push_error "Source not found") s0
      | Some sourceRecord =>
          match getDevice d (deviceId mapping) with
          | None => with_result (push_error "Device not found") s0
          | Some device =>
              let s1 := with_db (logSync m "sync_start" "in_progress"
                                   "Sync started") s0 in
              snd (try_catch (syncBody env m mapping sourceRecord device)
                     (λ e,
                        let* _ := modify (with_result
                                    (push_error ("Sync failed: " ++ e))) in
                        let* r := gets result in
                        modify (with_db (logSync m "sync_complete" "failure"
                                  (String.concat "; " (errors r))))) s1)
          end
      end
  end.

(** *** One iteration without its temp files

    What the download and the processing of a photo yield: the path of the
    downloaded file, the processed image and the digest of its bytes. *)
Definition pipeline (env : Env) (source : Source) (photo : PhotoInfo)
  : Exn (string * ProcessedImage * string) :=
  match fetch source photo with
  | inl e => inl e
  | inr (path, bytes) =>
      match render env path bytes with
      | inl e => inl e
      | inr (img, out) => inr (path, img, out)
      end
  end.

(** [devicePath] of an iteration: [`${device.devicePath}/${hash}.${format}`]. *)
Definition remotePath (device : DeviceRecord) (hash : string)
    (img : ProcessedImage) : string :=
  devicePath device ++ "/" ++ hash ++ "." ++ image_format img.

Definition photoError (photo : PhotoInfo) (e : string) : string :=
  "Error processing " ++ photo_name photo ++ ": " ++ e.

(** The database, the device and the result after one iteration of the
    addition pass, as a function of them before it; [processPhoto_effect]
    proves that [processPhoto] acts so. *)
Definition photo_effect (env : Env) (source : Source) (m : uuid)
    (device : DeviceRecord) (syncedPhotoIds : gset string)
    (c : Db * Adb.Device * SyncResult) (photo : PhotoInfo)
  : Db * Adb.Device * SyncResult :=
  let '(d, a, r) := c in
  if bool_decide (photo_id photo ∈ syncedPhotoIds) then (d, a, add_skipped r)
  else
    match pipeline env source photo with
    | inl e => (d, a, push_error (photoError photo e) r)
    | inr (_, img, hash) =>
        let devPath := remotePath device hash img in
        match Adb.getFileHash a devPath with
        | (inl e, a1) => (d, a1, push_error (photoError photo e) r)
        | (inr existingHash, a1) =>
            if bool_decide (existingHash = Some hash) then
              (d, a1, add_skipped r)
            else
              match Adb.pushFile a1 (image_path img) (Some hash) devPath with
              | (inl e, a2) => (d, a2, push_error (photoError photo e) r)
              | (inr pushResult, a2) =>
                  if Adb.success pushResult then
                    (recordSyncedPhoto m (photo_id photo) (photo_path photo)
                       devPath hash (image_size img) d, a2, add_added r)
                  else
                    (d, a2, push_error
                       ("Failed to push " ++ photo_name photo ++ ": "
                          ++ Adb.error pushResult) r)
              end
        end
    end.

(** The ways an iteration of the addition pass can go: the photo is in the
    ledger already; something fails and an error is recorded; the file is
    on the device already; the file is pushed and recorded. *)
Inductive photo_case (env : Env) (source : Source) (m : uuid)
    (device : DeviceRecord) (ids : gset string) (d : Db) (a : Adb.Device)
    (r : SyncResult) (photo : PhotoInfo)
  : Db * Adb.Device * SyncResult → Prop :=
| case_known :
    photo_id photo ∈ ids →
    photo_case env source m device ids d a r photo (d, a, add_skipped r)
| case_failed e a' :
    photo_id photo ∉ ids →
    Adb.files a' = Adb.files a →
    (Adb.live a → ∃ e', pipeline env source photo = inl e') →
    photo_case env source m device ids d a r photo (d, a', push_error e r)
| case_present dl img hash a' :
    photo_id photo ∉ ids →
    pipeline env source photo = inr (dl, img, hash) →
    Adb.getFileHash a (remotePath device hash img) = (inr (Some hash), a') →
    photo_case env source m device ids d a r photo (d, a', add_skipped r)
| case_pushed dl img hash existing a1 a2 :
    photo_id photo ∉ ids →
    pipeline env source photo = inr (dl, img, hash) →
    Adb.getFileHash a (remotePath device hash img) = (inr existing, a1) →
    existing ≠ Some hash →
    Adb.pushFile a1 (image_path img) (Some hash)
        (remotePath device hash img) =
      (inr (Adb.mkPushResult true (remotePath device hash img) ""), a2) →
    photo_case env source m device ids d a r photo
      (recordSyncedPhoto m (photo_id photo) (photo_path photo)
         (remotePath device hash img) hash (image_size img) d,
       a2, add_added r).

(** The same for one iteration of the removal pass. *)
Definition remove_effect (c : Db * Adb.Device * SyncResult)
    (synced : SyncedPhoto) : Db * Adb.Device * SyncResult :=
  let '(d, a, r) := c in
  match Adb.deleteFile a (syncedDevicePath synced) with
  | (inl e, a1) =>
      (d, a1, push_error
         ("Failed to remove " ++ syncedDevicePath synced ++ ": " ++ e) r)
  | (inr _, a1) => (deleteSyncedPhoto (synced_id synced) d, a1, add_removed r)
  end.

(** The remote path an iteration derives for a photo whose download and
    processing succeed. *)
Definition derivedPath (env : Env) (source : Source) (device : DeviceRecord)
    (photo : PhotoInfo) : option string :=
  match pipeline env source photo with
  | inr (_, img, hash) => Some (remotePath device hash img)
  | inl _ => None
  end.

(** An iteration that finds no file at the derived path makes two
    transport calls, the hash query and the push.  Of such iterations,
    those whose push goes through: the connection is sound at the second
    of the two calls. *)
Fixpoint pushed (photos : list PhotoInfo) (faults : list Adb.Fault)
  : list PhotoInfo :=
  match photos with
  | [] => []
  | p :: ps =>
      (if decide (nth 1 faults Adb.NoFault = Adb.NoFault) then [p] else [])
        ++ pushed ps (drop 2 faults)
  end.

(** The source photo identifiers the ledger holds for a mapping. *)
Definition ledgerIds (d : Db) (m : uuid) : list string :=
  sourcePhotoId <$> getSyncedPhotos d m.

(** The ledger of [d] is the ledger of [d0] followed by rows recorded
    since, all of them for mapping [m], for photos among [seen] that the
    ledger of [d0] did not know, under identifiers drawn since [d0]. *)
Definition grown (m : uuid) (ids : gset string) (d0 d : Db)
    (seen : list string) : Prop :=
  ∃ news : list SyncedPhoto,
    synced_photos d = (synced_photos d0 ++ news)%list ∧
    next_uuid d0 ≤ next_uuid d ∧
    NoDup (synced_id <$> news) ∧
    Forall (λ row, (mappingId row = m) ∧ (sourcePhotoId row ∈ seen) ∧
                   (sourcePhotoId row ∉ ids) ∧
                   (next_uuid d0 ≤ synced_id row) ∧
                   (synced_id row < next_uuid d)) news.


Definition core (s : State) : Db * Adb.Device * SyncResult :=
  (db s, adb s, result s).

(** The two passes of a run, on the database, the device and the result. *)
Definition passes (env : Env) (source : Source) (m : uuid)
    (mapping : SyncMapping) (device : DeviceRecord)
    (syncedPhotos : list SyncedPhoto) (photos : list PhotoInfo)
    (c : Db * Adb.Device * SyncResult) : Db * Adb.Device * SyncResult :=
  let ids : gset string := list_to_set (sourcePhotoId <$> syncedPhotos) in
  let c2 := foldl (photo_effect env source m device ids) c photos in
  match syncMode mapping with
  | mirror => foldl remove_effect c2 (toRemove syncedPhotos photos)
  | add_only => c2
  end.

(** *** When a run gets to its passes

    The mapping, its source and its device are found, the source object is
    built and returns a listing. *)
Definition resolves (env : Env) (d : Db) (m : uuid) (mapping : SyncMapping)
    (source : Source) (device : DeviceRecord) (sourcePhotos : list PhotoInfo)
  : Prop :=
  ∃ sourceRecord,
    getMapping d m = Some mapping ∧
    getSource d (sourceId mapping) = Some sourceRecord ∧
    getDevice d (deviceId mapping) = Some device ∧
    createSource env sourceRecord = inr source ∧
    getPhotos source = inr sourcePhotos.

(** The constraints of the [synced_photos] table that the schema keeps:
    the primary key is unique; and every identifier in it was drawn by
    [generateId] before. *)
Definition ledger_wf (d : Db) : Prop :=
  NoDup (synced_id <$> synced_photos d) ∧
  Forall (λ r, synced_id r < next_uuid d) (synced_photos d).

End Engine.

(** ** SyncScheduler *)

Module Scheduler.
Import Engine.

(** The scheduler object: the cron tasks by mapping (a task is kept by the
    expression it was scheduled with) and the [isRunning] flag. *)
Record SyncScheduler : Type := mkScheduler {
  tasks : gmap uuid string;
  isRunning : bool
}.

(** [unscheduleMapping(mappingId)]. *)
Definition unscheduleMapping (mappingId : uuid) (s : SyncScheduler)
  : SyncScheduler :=
  mkScheduler (delete mappingId (tasks s)) (isRunning s).

(** [scheduleMapping(mapping)]; [validate] is [cron.validate]. *)
Definition scheduleMapping (validate : string → bool) (mapping : SyncMapping)
    (s : SyncScheduler) : SyncScheduler :=
  match schedule mapping with
  | None => s
  | Some expr =>
      if negb (Js.truthy expr) then s
      else if negb (validate expr) then s
      else
        let s1 := unscheduleMapping (mapping_id mapping) s in
        mkScheduler (<[mapping_id mapping := expr]> (tasks s1)) (isRunning s1)
  end.

(** [start()]. *)
Definition start (validate : string → bool) (d : Db) (s : SyncScheduler)
  : SyncScheduler :=
  if isRunning s then s
  else
    foldl (λ acc mapping, scheduleMapping validate mapping acc)
          (mkScheduler (tasks s) true)
          (List.filter (λ mp, isActive mp &&
                          match schedule mp with
                          | Some e => Js.truthy e
                          | None => false
                          end) (sync_mappings d)).

(** [stop()]. *)
Definition stop (s : SyncScheduler) : SyncScheduler :=
  if isRunning s then mkScheduler ∅ false else s.

(** The process: the scheduler and the calls of [executeSync] that have
    started and are not settled yet, the latest first. *)
Record Process : Type := mkProcess {
  scheduler : SyncScheduler;
  inFlight : list uuid
}.

(** [triggerSync(mappingId)] calls [syncEngine.executeSync(mappingId)]. *)
Definition triggerSync (mappingId : uuid) (p : Process) : Process :=
  mkProcess (scheduler p) (mappingId :: inFlight p).

(** The cron task of a mapping fires: its callback calls
    [syncEngine.executeSync(mapping.id)]. *)
Definition cronFires (mappingId : uuid) (p : Process) : Process :=
  match tasks (scheduler p) !! mappingId with
  | Some _ => mkProcess (scheduler p) (mappingId :: inFlight p)
  | None => p
  end.

(** The promise of one run settles. *)
Fixpoint settle (mappingId : uuid) (l : list uuid) : list uuid :=
  match l with
  | [] => []
  | x :: l' => if Nat.eqb x mappingId then l' else x :: settle mappingId l'
  end.

(** The number of runs of a mapping that are in flight. *)
Definition running (mappingId : uuid) (p : Process) : nat :=
  length (filter (λ x, x = mappingId) (inFlight p)).

End Scheduler.

(** ** Example installations

    A local folder synced to one frame; the concrete runs below are made on
    these. *)

Module Scenes.
Import Engine.

Definition digestA : string := "0cc175b9c0f1b6a831c399e269772661".
Definition digestB : string := "92eb5ffee6ae2fec3ad71c777531578f".
Definition digestC : string := "4a8a08f09d37b73795649038408b5f33".

(** A photo of the folder: [LocalFolderSource] uses the full path as id. *)
Definition photo (name : string) : PhotoInfo :=
  mkPhoto ("/photos/in/" ++ name) name ("/photos/in/" ++ name).

Definition a_jpg : PhotoInfo := photo "a.jpg".
Definition a_copy_jpg : PhotoInfo := photo "a-copy.jpg".
Definition b_jpg : PhotoInfo := photo "b.jpg".
Definition c_jpg : PhotoInfo := photo "c.jpg".
Definition broken_jpg : PhotoInfo := photo "broken.jpg".

(** The folder copies a photo into the temp directory. *)
Definition folder (listing : list PhotoInfo) : Source :=
  mkSourceObj (inr listing)
    (λ p, inr ("/photos/temp/1/" ++ photo_name p, photo_name p))
    (λ _, None).

(** The image library: [a.jpg] and [a-copy.jpg] hold the same picture,
    [broken.jpg] is no image. *)
Definition sharp (path bytes : string) : Exn (ProcessedImage * string) :=
  let out := mkProcessed (path ++ ".jpeg") 2048 "jpeg" in
  if String.eqb bytes "a.jpg" then inr (out, digestA)
  else if String.eqb bytes "a-copy.jpg" then inr (out, digestA)
  else if String.eqb bytes "b.jpg" then inr (out, digestB)
  else if String.eqb bytes "c.jpg" then inr (out, digestC)
  else inl "Input buffer contains unsupported image format".

Definition env (listing : list PhotoInfo) : Env :=
  mkEnv (λ type, if String.eqb type "local_folder"
                 then Some (λ _, folder listing) else None)
        sharp (λ _ _, None) "2024-05-01T06:00:00.000Z".

Definition frame : DeviceRecord :=
  mkDeviceRecord 3 "FRAMEO0001" "/sdcard/DCIM/FrameoSync".

Definition the_mapping (mode : SyncMode) (cap : option Z) : SyncMapping :=
  mkMapping 1 2 3 mode cap None true.

(** The database: mapping 1 from source 2 to device 3, and a ledger. *)
Definition database (mode : SyncMode) (cap : option Z)
    (ledger : list SyncedPhoto) : Db :=
  mkDb [the_mapping mode cap] [mkSource 2 "local_folder" None] [frame]
       ledger [] 100.

Definition remoteA : string := "/sdcard/DCIM/FrameoSync/" ++ digestA ++ ".jpeg".
Definition remoteB : string := "/sdcard/DCIM/FrameoSync/" ++ digestB ++ ".jpeg".
Definition remoteC : string := "/sdcard/DCIM/FrameoSync/" ++ digestC ++ ".jpeg".

(** Ledger rows of mapping 1 for a photo placed at a remote path. *)
Definition row (id : uuid) (p : PhotoInfo) (remote digest : string)
  : SyncedPhoto :=
  mkSynced id 1 (photo_id p) (photo_path p) remote digest 2048.

Definition empty_frame : Adb.Device := Adb.mkDevice ∅ [].

End Scenes.

(** ** Further parts of the program

    What a run ends in, the queries of the transport, the detection of the
    media path, the registration of cron tasks, the creation of mappings
    and its route, and the listings of the two photo sources. *)

(** *** How a run ends ([services/sync/SyncEngine.ts]) *)

Module Outcome.
Import Engine.

(** The state a run ends in when it gets through its two passes, from what
    the passes leave: the source is stamped, the temp directory removed,
    [success] set and the completion logged. *)
Definition completed (env : Env) (m : uuid) (sourceRecord : SourceRecord)
    (c : Db * Adb.Device * SyncResult) : State :=
  let r := set_success (bool_decide (errors c.2 = [])) c.2 in
  mkState (logSync m "sync_complete"
             (if success r then "success" else "failure")
             (completionMessage r)
             (updateLastSync (source_id sourceRecord) (now env) c.1.1))
          c.1.2 ∅ r.

(** The state a run ends in when the outer [catch] takes over before the
    passes, with error message [e]. *)
Definition aborted (m : uuid) (e : string) (d1 : Db) (dev : Adb.Device)
    (files : gmap string string) : State :=
  let r := push_error ("Sync failed: " ++ e) (emptyResult m) in
  mkState (logSync m "sync_complete" "failure" (String.concat "; " (errors r)) d1)
          dev files r.

(** Why a run stops before its passes: the source cannot be built, the
    remote directory cannot be created, or the source cannot be listed. *)
Definition stops_with (env : Env) (sourceRecord : SourceRecord)
    (dev : Adb.Device) (e : string) : Prop :=
  createSource env sourceRecord = inl e ∨
  ∃ source, createSource env sourceRecord = inr source ∧
    ((Adb.fault_at dev 0 ≠ Adb.NoFault ∧ e = "device offline") ∨
     (Adb.fault_at dev 0 = Adb.NoFault ∧ getPhotos source = inl e)).

(** The rows of the mapping, source or device are missing. *)
Definition unresolved (d : Db) (m : uuid) : Prop :=
  match getMapping d m with
  | None => True
  | Some mapping =>
      getSource d (sourceId mapping) = None ∨
      getDevice d (deviceId mapping) = None
  end.

(** [UNIQUE(mapping_id, source_photo_id)] on [synced_photos]. *)
Definition ledger_unique (d : Db) : Prop :=
  NoDup ((λ r, (mappingId r, sourcePhotoId r)) <$> synced_photos d).

End Outcome.

(** *** [String.prototype.split] on whitespace *)

Module Text.

(** [s.split(/\s+/)]: the pieces between the maximal runs of whitespace;
    a run at the start or at the end of [s] leaves an empty piece there.
    [in_run] tells that the character before was whitespace. *)
Fixpoint split_ws_from (in_run : bool) (s : string) : list string :=
  match s with
  | EmptyString => [EmptyString]
  | String c s' =>
      if Js.is_space c then
        if in_run then split_ws_from true s'
        else EmptyString :: split_ws_from true s'
      else
        match split_ws_from false s' with
        | t :: ts => String c t :: ts
        | [] => [String c EmptyString]
        end
  end.

Definition split_ws (s : string) : list string := split_ws_from false s.

(** Text made of [names], each followed by its separator. *)
Fixpoint lines (items : list (string * string)) : string :=
  match items with
  | [] => EmptyString
  | (name, sep) :: rest => name ++ sep ++ lines rest
  end.

(** A name as a directory listing prints it, and the whitespace after it. *)
Definition printed (item : string * string) : Prop :=
  item.1 ≠ EmptyString ∧
  Js.all_chars (λ c, negb (Js.is_space c)) item.1 = true ∧
  item.2 ≠ EmptyString ∧
  Js.all_chars Js.is_space item.2 = true.

(** The same text without its last separator. *)
Fixpoint chopped (items : list (string * string)) : string :=
  match items with
  | [] => EmptyString
  | [(name, _)] => name
  | (name, sep) :: rest => name ++ sep ++ chopped rest
  end.

End Text.

(** *** The queries of [services/adb/AdbService.ts] *)

Module AdbQueries.
Import Adb.

(** [shell(serial, command)] for a command line that changes no file;
    [stdout] is the text the device prints for it, as [toString('utf-8')]
    decodes it. *)
Definition query (d : Device) (stdout : string) : Exn string * Device :=
  match next_fault d with
  | (NoFault, d1) => (inr (Js.trim stdout), d1)
  | (_, d1) => (inl "device offline", d1)
  end.

(** The test of [listFiles] on a piece of the output. *)
Definition is_entry (f : string) : bool :=
  (0 <? String.length f) && negb (String.eqb f ".") && negb (String.eqb f "..").

(** [listFiles(serial, devicePath)]; [stdout] is what the device prints
    for the command line of the listing: the output of [ls] on the
    directory, errors discarded, or an empty line when [ls] fails. *)
Definition listFiles (d : Device) (stdout : string)
  : Exn (list string) * Device :=
  match query d stdout with
  | (inr output, d1) =>
      if negb (Js.truthy output) then (inr [], d1)
      else (inr (List.filter is_entry (Text.split_ws output)), d1)
  | (inl _, d1) => (inr [], d1)
  end.

(** [isDeviceReady(serial)]: the device is asked to echo [ready]. *)
Definition isDeviceReady (d : Device) : Exn bool * Device :=
  match shell d ("echo " ++ quoted "ready") with
  | (inr output, d1) => (inr (String.eqb output "ready"), d1)
  | (inl _, d1) => (inr false, d1)
  end.

End AdbQueries.

(** *** [services/adb/DeviceManager.ts]: the detection of the media path *)

Module Devices.
Import Adb AdbQueries.

(** The candidates of [detectFrameoPath], in the order they are tried. *)
Definition possiblePaths : list string :=
  ["/sdcard/frameo_files/media"; "/sdcard/DCIM/Frameo"; "/sdcard/Frameo"].

(** The loop of [detectFrameoPath] over the candidates left; [ls path] is
    what the device prints for the listing of [path]. *)
Fixpoint detect (ls : string → string) (paths : list string) (d : Device)
  : string * Device :=
  match paths with
  | [] => ("/sdcard/frameo_files/media", d)
  | path :: rest =>
      match listFiles d (ls path) with
      | (inr _, d1) => (path, d1)
      | (inl _, d1) => detect ls rest d1
      end
  end.

(** [detectFrameoPath(serial)]. *)
Definition detectFrameoPath (ls : string → string) (d : Device)
  : string * Device :=
  detect ls possiblePaths d.

End Devices.

(** *** The tasks of [services/sync/SyncScheduler.ts] *)

Module Cron.
Import Engine Scheduler.

(** The expression [start] and [scheduleMapping] register for a mapping:
    the mapping's schedule, when it is not empty and [cron.validate]
    accepts it. *)
Definition accepted (validate : string → bool) (mapping : SyncMapping)
  : option string :=
  match schedule mapping with
  | Some expr => if Js.truthy expr && validate expr then Some expr else None
  | None => None
  end.

End Cron.

(** *** [SyncEngine.createMapping] and the route [POST /mappings] of
    [api/sync.ts] *)

Module Mappings.
Import Engine Scheduler.

(** The argument of [createMapping]. *)
Record MappingInput : Type := mkInput {
  input_sourceId : uuid;
  input_deviceId : uuid;
  input_syncMode : option SyncMode;
  input_maxPhotos : option Z;
  input_schedule : option string
}.

(** The constraints of [sync_mappings] an [INSERT] can violate: the
    primary key, [UNIQUE(source_id, device_id)] and, foreign keys being
    on, the references to [sources] and [devices]. *)
Definition insertError (row : SyncMapping) (d : Db) : option string :=
  if bool_decide (mapping_id row ∈ mapping_id <$> sync_mappings d) then
    Some "UNIQUE constraint failed: sync_mappings.id"
  else if bool_decide ((sourceId row, deviceId row) ∈
                         (λ m, (sourceId m, deviceId m)) <$> sync_mappings d) then
    Some "UNIQUE constraint failed: sync_mappings.source_id, sync_mappings.device_id"
  else if bool_decide (sourceId row ∈ source_id <$> sources d) &&
          bool_decide (deviceId row ∈ device_id <$> devices d) then None
  else Some "FOREIGN KEY constraint failed".

(** [createMapping(input)]: the row inserted and read back, [None] being
    the [null] of [getMapping]. *)
Definition createMapping (input : MappingInput) (d : Db)
  : Exn (option SyncMapping) * Db :=
  let (id, d1) := generateId d in
  let row := mkMapping id (input_sourceId input) (input_deviceId input)
               (default add_only (input_syncMode input))
               (input_maxPhotos input) (input_schedule input) true in
  match insertError row d1 with
  | Some e => (inl e, d1)
  | None =>
      let d2 := mkDb (sync_mappings d1 ++ [row]) (sources d1) (devices d1)
                     (synced_photos d1) (sync_logs d1) (next_uuid d1) in
      (inr (getMapping d2 id), d2)
  end.

(** The body of [POST /mappings], for requests whose fields have the types
    [createMapping] takes; [None] is a field that is missing. *)
Record MappingBody : Type := mkBody {
  body_sourceId : option uuid;
  body_deviceId : option uuid;
  body_syncMode : option SyncMode;
  body_maxPhotos : option Z;
  body_schedule : option string
}.

(** The answer: the status code and the mapping of its JSON body. *)
Record Response : Type := mkResponse {
  status : nat;
  created : option SyncMapping
}.

(** The handler of [POST /mappings]. *)
Definition postMapping (validate : string → bool) (body : MappingBody)
    (d : Db) (s : SyncScheduler) : Response * Db * SyncScheduler :=
  match body_sourceId body, body_deviceId body with
  | Some sid, Some did =>
      match createMapping (mkInput sid did (body_syncMode body)
                             (body_maxPhotos body) (body_schedule body)) d with
      | (inr (Some mapping), d1) =>
          let s1 := match body_schedule body with
                    | Some e => if Js.truthy e
                                then scheduleMapping validate mapping s else s
                    | None => s
                    end in
          (mkResponse 201 (Some mapping), d1, s1)
      | (inr None, d1) =>
          (* [scheduleMapping(null)] throws on [mapping.schedule] *)
          match body_schedule body with
          | Some e => if Js.truthy e then (mkResponse 500 None, d1, s)
                      else (mkResponse 201 None, d1, s)
          | None => (mkResponse 201 None, d1, s)
          end
      | (inl _, d1) => (mkResponse 500 None, d1, s)
      end
  | _, _ => (mkResponse 400 None, d, s)
  end.

(** The primary key of [sync_mappings] and the identifiers drawn so far. *)
Definition mappings_wf (d : Db) : Prop :=
  NoDup (mapping_id <$> sync_mappings d) ∧
  Forall (λ m, mapping_id m < next_uuid d) (sync_mappings d).

End Mappings.

(** *** [services/sources/LocalFolderSource.ts] *)

Module Folder.
Import Engine.

#[local] Set Warnings "-register-all".

(** What [readdir] finds in a directory: a file, with the digest that
    [stat] and the hashing of it end in, or the error one of them throws; a
    directory, with what reading it gives; or something that is neither. *)
Inductive Entry : Type :=
| File (name : string) (read : Exn string)
| Dir (name : string) (content : Exn (list Entry))
| Other (name : string).

Definition DEFAULT_EXTENSIONS : list string :=
  [".jpg"; ".jpeg"; ".png"; ".gif"; ".heic"; ".webp"].

Record LocalFolderConfig : Type := mkFolderConfig {
  folderPath : string;
  recursive : option bool;
  includeExtensions : option (list string)
}.

Section Paths.

(** [path.join], [path.extname] and [String.prototype.toLowerCase]. *)
Variable join : string → string → string.
Variable extname : string → string.
Variable toLowerCase : string → string.

(** [extensions.includes(extname(entry.name).toLowerCase())]. *)
Definition wanted (extensions : list string) (name : string) : bool :=
  bool_decide (toLowerCase (extname name) ∈ extensions).

(** The photo [scanDirectory] makes of a file. *)
Definition photoOf (dirPath name : string) : PhotoInfo :=
  mkPhoto (join dirPath name) name (join dirPath name).

(** One iteration of the loop of [scanDirectory]: the photos it appends,
    or the error it throws.  The scan of a subdirectory catches its own
    errors. *)
Fixpoint scanEntry (extensions : list string) (deep : bool) (dirPath : string)
    (e : Entry) : Exn (list PhotoInfo) :=
  match e with
  | File name read =>
      if wanted extensions name then
        match read with
        | inl err => inl err
        | inr _ => inr [photoOf dirPath name]
        end
      else inr []
  | Dir name content =>
      if deep then
        inr match content with
            | inl _ => []
            | inr entries =>
                (fix loop (es : list Entry) : list PhotoInfo :=
                   match es with
                   | [] => []
                   | e' :: es' =>
                       match scanEntry extensions deep (join dirPath name) e' with
                       | inl _ => []
                       | inr ps => (ps ++ loop es')%list
                       end
                   end) entries
            end
      else inr []
  | Other _ => inr []
  end.

(** The loop with its [catch]: an iteration that throws ends the scan with
    the photos collected so far. *)
Fixpoint scanEntries (extensions : list string) (deep : bool)
    (dirPath : string) (es : list Entry) : list PhotoInfo :=
  match es with
  | [] => []
  | e :: es' =>
      match scanEntry extensions deep dirPath e with
      | inl _ => []
      | inr ps => (ps ++ scanEntries extensions deep dirPath es')%list
      end
  end.

(** [scanDirectory(dirPath, recursive)]; [content] is what [readdir]
    gives for [dirPath]. *)
Definition scanDirectory (extensions : list string) (deep : bool)
    (dirPath : string) (content : Exn (list Entry)) : list PhotoInfo :=
  match content with
  | inl _ => []
  | inr entries => scanEntries extensions deep dirPath entries
  end.

(** [getPhotos()]. *)
Definition getPhotos (config : LocalFolderConfig) (root : Exn (list Entry))
  : Exn (list PhotoInfo) :=
  inr (scanDirectory (default DEFAULT_EXTENSIONS (includeExtensions config))
         (default false (recursive config)) (folderPath config) root).

(** A [LocalFolderSource] over a folder, with the downloads left to the
    file system. *)
Definition source (config : LocalFolderConfig) (root : Exn (list Entry))
    (download : PhotoInfo → Exn (string * string))
    (leaves : PhotoInfo → option (string * string)) : Source :=
  mkSourceObj (getPhotos config root) download leaves.

End Paths.

(** A file that [stat] and the hashing get through. *)
Definition readable (e : Entry) : Prop :=
  match e with
  | File _ (inl _) => False
  | _ => True
  end.

(** Induction on the tree under an entry. *)
Fixpoint Entry_tree_ind (P : Entry → Prop)
    (HF : ∀ name read, P (File name read))
    (HD : ∀ name content,
        match content with
        | inl _ => True
        | inr entries => Forall P entries
        end → P (Dir name content))
    (HO : ∀ name, P (Other name)) (e : Entry) : P e :=
  match e with
  | File name read => HF name read
  | Dir name content =>
      HD name content
        match content as c
              return match c with
                     | inl _ => True
                     | inr entries => Forall P entries
                     end with
        | inl _ => I
        | inr entries =>
            (fix all (es : list Entry) : Forall P es :=
               match es with
               | [] => @List.Forall_nil Entry P
               | e' :: es' =>
                   @List.Forall_cons Entry P e' es'
                     (Entry_tree_ind P HF HD HO e') (all es')
               end) entries
        end
  | Other name => HO name
  end.

End Folder.

(** A folder on a POSIX file system, for the examples. *)
Module FolderScenes.
Import Engine Folder.

(** [path.join] of a directory without trailing slash and a name. *)
Definition join (dir name : string) : string := dir ++ "/" ++ name.

(** The last dot of a text and what follows it. *)
Fixpoint last_dot (s : string) : option string :=
  match s with
  | EmptyString => None
  | String c s' =>
      match last_dot s' with
      | Some ext => Some ext
      | None => if Ascii.eqb c "." then Some s else None
      end
  end.

(** [path.extname] of a file name: from the last dot on, a dot in the
    first place not counting. *)
Definition extname (name : string) : string :=
  match name with
  | EmptyString => EmptyString
  | String _ rest => default EmptyString (last_dot rest)
  end.

(** [toLowerCase] on ASCII letters. *)
Definition lower (c : ascii) : ascii :=
  let n := nat_of_ascii c in
  if (65 <=? n) && (n <=? 90) then ascii_of_nat (n + 32) else c.

Fixpoint toLowerCase (s : string) : string :=
  match s with
  | EmptyString => EmptyString
  | String c s' => String (lower c) (toLowerCase s')
  end.

Definition config : LocalFolderConfig := mkFolderConfig "/photos/in" None None.

(** The copy [downloadPhoto] makes in the temp directory of mapping 1. *)
Definition download (p : PhotoInfo) : Exn (string * string) :=
  inr ("/photos/temp/1/" ++ photo_name p, photo_name p).

(** The environment of a run on the folder whose [readdir] gives [root]. *)
Definition env (root : Exn (list Entry)) : Env :=
  mkEnv (λ type, if String.eqb type "local_folder"
                 then Some (λ _, source join extname toLowerCase config root
                                   download (λ _, None))
                 else None)
        Scenes.sharp (λ _ _, None) "2024-05-01T06:00:00.000Z".

End FolderScenes.

(** *** [services/sources/GooglePhotosSource.ts]: the listing *)

Module Google.
Import Engine.

(** A media item and a page of the Library API, as [getPhotos] reads them. *)
Record MediaItem : Type := mkItem {
  item_id : string;
  filename : string;
  baseUrl : string;
  mimeType : option string
}.

Record Page : Type := mkPage {
  mediaItems : option (list MediaItem);
  nextPageToken : option string
}.

(** [item.mimeType?.startsWith('image/')]. *)
Definition isImage (item : MediaItem) : bool :=
  match mimeType item with
  | Some t => Js.starts_with "image/" t
  | None => false
  end.

(** What the loop over [response.mediaItems || []] pushes. *)
Definition photosOf (page : Page) : list PhotoInfo :=
  (λ item, mkPhoto (item_id item) (filename item) (baseUrl item))
    <$> List.filter isImage (default [] (mediaItems page)).

(** The [do ... while (pageToken)] loop of [getPhotos()], with [calls]
    calls of the API left to make; [api pageToken] is the answer of
    [makePhotosApiCall] to the request for that page.  [None]: the loop is
    still running when the calls are used up. *)
Fixpoint getPhotosFrom (calls : nat) (api : option string → Exn Page)
    (pageToken : option string) (photoList : list PhotoInfo)
  : option (Exn (list PhotoInfo)) :=
  match calls with
  | 0 => None
  | S calls' =>
      match api pageToken with
      | inl e => Some (inl e)
      | inr response =>
          let photoList' := (photoList ++ photosOf response)%list in
          match nextPageToken response with
          | Some t =>
              if Js.truthy t
              then getPhotosFrom calls' api (Some t) photoList'
              else Some (inr photoList')
          | None => Some (inr photoList')
          end
      end
  end.

Definition getPhotos (calls : nat) (api : option string → Exn Page)
  : option (Exn (list PhotoInfo)) :=
  getPhotosFrom calls api None [].

(** The pages the API serves from [pageToken] on, and how the sequence
    ends: with a page that names no next page ([None]) or with a request
    that throws. *)
Inductive serves (api : option string → Exn Page)
  : option string → list Page → option string → Prop :=
| serves_last pageToken page :
    api pageToken = inr page →
    match nextPageToken page with
    | Some t => Js.truthy t = false
    | None => True
    end →
    serves api pageToken [page] None
| serves_error pageToken e :
    api pageToken = inl e →
    serves api pageToken [] (Some e)
| serves_next pageToken page t rest ending :
    api pageToken = inr page →
    nextPageToken page = Some t → Js.truthy t = true →
    serves api (Some t) rest ending →
    serves api pageToken (page :: rest) ending.

End Google.

(** * Properties *)

(** ** Strings *)

(** Closed decidable facts are settled by evaluation. *)
Ltac by_compute := apply (bool_decide_unpack _); vm_compute; exact I.

Module JsFacts.
Import Js.

Local Arguments String.append : simpl nomatch.

Lemma append_nil_r s : s ++ "" = s.
Proof. induction s as [|c s IH]; simpl; [done|]. by rewrite IH. Qed.

Lemma append_assoc s t u : (s ++ t) ++ u = s ++ t ++ u.
Proof. induction s as [|c s IH]; simpl; [done|]. by rewrite IH. Qed.

Lemma length_append s t :
  String.length (s ++ t) = String.length s + String.length t.
Proof. induction s as [|c s IH]; simpl; [done|]. by rewrite IH. Qed.

Lemma trim_end_head c s :
  trim_end (String c s) = EmptyString ∨ ∃ t, trim_end (String c s) = String c t.
Proof.
  simpl. destruct (trim_end s); [destruct (is_space c)|]; eauto.
Qed.

Lemma trim_end_app h r :
  all_chars (λ c, negb (is_space c)) h = true →
  trim_end (h ++ r) = h ++ trim_end r.
Proof.
  induction h as [|c h IH]; simpl; [done|].
  intros [Hc Hh]%andb_prop. rewrite (IH Hh).
  apply negb_true_iff in Hc. rewrite Hc.
  change (String c h ++ trim_end r) with (String c (h ++ trim_end r)).
  by destruct (h ++ trim_end r).
Qed.

Lemma trim_start_id c h : is_space c = false → trim_start (String c h) = String c h.
Proof. intros H. simpl. by rewrite H. Qed.

Lemma split_head_app sep h r :
  all_chars (λ c, negb (Ascii.eqb c sep)) h = true →
  (r = EmptyString ∨ ∃ t, r = String sep t) →
  split_head sep (h ++ r) = h.
Proof.
  intros Hh Hr. induction h as [|c h IH]; simpl in *.
  - destruct Hr as [->|[t ->]]; [done|]. simpl. by rewrite Ascii.eqb_refl.
  - apply andb_prop in Hh as [Hc Hh]. apply negb_true_iff in Hc.
    rewrite Hc. by rewrite IH.
Qed.

Lemma starts_with_app n t u : starts_with n t = true → starts_with n (t ++ u) = true.
Proof.
  revert t. induction n as [|a n IH]; intros t; simpl; [done|].
  destruct t as [|b t]; simpl; [done|].
  intros [-> H]%andb_prop. simpl. by apply IH.
Qed.

Lemma includes_app_r n t u : includes n t = true → includes n (t ++ u) = true.
Proof.
  induction t as [|b t IH]; simpl.
  - rewrite orb_false_r. intros H. destruct n; [|done]. by destruct u.
  - intros [H|H]%orb_prop; apply orb_true_iff.
    + left. by apply (starts_with_app n (String b t) u).
    + right. by apply IH.
Qed.

Lemma includes_skip a n h r :
  all_chars (λ c, negb (Ascii.eqb c a)) h = true →
  includes (String a n) (h ++ r) = includes (String a n) r.
Proof.
  induction h as [|c h IH]; simpl; [done|].
  intros [Hc Hh]%andb_prop. apply negb_true_iff in Hc.
  rewrite Ascii.eqb_sym, Hc. simpl. by apply IH.
Qed.

Lemma starts_with_snoc n p c :
  n ≠ EmptyString → last_is_not c n = true →
  starts_with n (p ++ String c EmptyString) = starts_with n p.
Proof.
  revert p. induction n as [|a n IH]; intros p Hne Hlast; [done|].
  destruct p as [|b p]; simpl.
  - destruct n; simpl in *.
    + apply negb_true_iff in Hlast. by rewrite Hlast.
    + by rewrite andb_false_r.
  - destruct n as [|a' n]; [done|]. f_equal. by apply IH.
Qed.

Lemma includes_snoc n p c :
  n ≠ EmptyString → last_is_not c n = true →
  includes n (p ++ String c EmptyString) = includes n p.
Proof.
  intros Hne Hlast. induction p as [|b p IH].
  - pose proof (starts_with_snoc n EmptyString c Hne Hlast) as H.
    simpl in *. rewrite H. by destruct n.
  - change (String b p ++ String c EmptyString)
      with (String b (p ++ String c EmptyString)).
    cbn [includes]. rewrite IH.
    change (String b (p ++ String c EmptyString))
      with (String b p ++ String c EmptyString).
    by rewrite starts_with_snoc.
Qed.

Lemma trim_end_prefix s : ∃ u, s = trim_end s ++ u.
Proof.
  induction s as [|c s [u IH]]; [by exists EmptyString|].
  simpl. destruct (trim_end s) eqn:E.
  - destruct (is_space c); [by exists (String c s)|].
    exists u. simpl in *. by rewrite <- IH.
  - exists u. rewrite IH at 1. done.
Qed.



End JsFacts.

(** ** The transport *)

Module AdbFacts.
Import Js JsFacts Adb.

Local Arguments String.append : simpl nomatch.

Lemma all_chars_impl (P Q : ascii → bool) s :
  (∀ c, P c = true → Q c = true) →
  all_chars P s = true → all_chars Q s = true.
Proof.
  intros HPQ. induction s as [|c s IH]; simpl; [done|].
  intros [Hc Hs]%andb_prop. by rewrite (HPQ c Hc), IH.
Qed.

Lemma is_hex_not a c :
  is_hex a = false → is_hex c = true → negb (Ascii.eqb c a) = true.
Proof.
  intros Ha Hc. apply negb_true_iff, Ascii.eqb_neq. intros ->. congruence.
Qed.

Lemma is_hex_not_space c : is_hex c = true → negb (is_space c) = true.
Proof.
  destruct c as [[] [] [] [] [] [] [] []]; vm_compute; congruence.
Qed.

Lemma next_fault_nil fs : next_fault (mkDevice fs []) = (NoFault, mkDevice fs []).
Proof. done. Qed.

Lemma next_fault_cons fs f rest :
  next_fault (mkDevice fs (f :: rest)) = (f, mkDevice fs rest).
Proof. done. Qed.

Lemma next_fault_files d : files (snd (next_fault d)) = files d.
Proof. unfold next_fault. by destruct (faults d). Qed.

Lemma next_fault_live d :
  live d → fst (next_fault d) = NoFault ∧ live (snd (next_fault d)).
Proof.
  unfold live, next_fault. destruct d as [fs [|f rest]]; simpl; [done|].
  intros H. by inversion H.
Qed.

(** The line [md5sum] prints for a stored file, as [shell] hands it on. *)
Lemma trim_md5sum_line h p :
  hex_digest h = true →
  ∃ r, trim (h ++ "  " ++ p ++ newline) = h ++ r ∧
       (r = EmptyString ∨ ∃ t, r = String " " t) ∧
       ∃ u, "  " ++ p ++ newline = r ++ u.
Proof.
  intros [Hne Hhex]%andb_prop.
  exists (trim_end ("  " ++ p ++ newline)). unfold trim.
  rewrite trim_end_app by (eapply all_chars_impl, Hhex; apply is_hex_not_space).
  split_and!.
  - destruct h as [|c h]; [done|]. simpl in Hhex.
    apply andb_prop in Hhex as [Hc _].
    apply is_hex_not_space, negb_true_iff in Hc.
    change (String c h ++ ?r) with (String c (h ++ r)). by apply trim_start_id.
  - apply trim_end_head.
  - apply trim_end_prefix.
Qed.

Lemma parse_md5sum_line h p :
  hex_digest h = true →
  includes "No such file" p = false →
  let output := trim (h ++ "  " ++ p ++ newline) in
  truthy output = true ∧ includes "No such file" output = false ∧
  split_head " " output = h.
Proof.
  intros Hh Hp output. subst output.
  destruct (trim_md5sum_line h p Hh) as (r & -> & Hr & u & Hu).
  apply andb_prop in Hh as [Hne Hhex]. split_and!.
  - by destruct h.
  - rewrite includes_skip by (eapply all_chars_impl, Hhex; intros c; by apply is_hex_not).
    destruct (includes "No such file" r) eqn:E; [|done].
    apply (includes_app_r _ _ u) in E. rewrite <- Hu in E.
    rewrite (includes_skip _ _ "  " (p ++ newline)) in E by done.
    unfold newline in E. rewrite includes_snoc in E by done. congruence.
  - apply split_head_app; [|done].
    eapply all_chars_impl, Hhex. intros c. by apply is_hex_not.
Qed.

Lemma next_fault_at d :
  fst (next_fault d) = fault_at d 0 ∧
  ∀ i, fault_at (snd (next_fault d)) i = fault_at d (S i).
Proof.
  unfold next_fault, fault_at. destruct (faults d) as [|f rest] eqn:E; simpl; [|done].
  rewrite E. split; [done|]. intros i. by destruct i.
Qed.

Lemma live_fault_at d : live d ↔ ∀ i, fault_at d i = NoFault.
Proof.
  unfold live, fault_at. rewrite Forall_lookup. split.
  - intros H i. rewrite nth_lookup. destruct (faults d !! i) as [f|] eqn:E.
    + by apply (H i).
    + done.
  - intros H i f E. specialize (H i). by rewrite (nth_lookup_Some _ _ _ _ E) in H.
Qed.

Lemma shell_ok d d1 c :
  next_fault d = (NoFault, d1) →
  shell d c = (inr (trim (run c (files d)).1),
               mkDevice (run c (files d)).2 (faults d1)).
Proof.
  intros E. unfold shell. rewrite E.
  assert (files d1 = files d) as -> by (by rewrite <- (next_fault_files d), E).
  by destruct (run c (files d)).
Qed.

Lemma shell_fault d f d1 c :
  next_fault d = (f, d1) → f ≠ NoFault → shell d c = (inl "device offline", d1).
Proof. intros E Hf. unfold shell. rewrite E. by destruct f. Qed.

Lemma shell_inl_files d c e d1 : shell d c = (inl e, d1) → files d1 = files d.
Proof.
  unfold shell. destruct (next_fault d) as [f d'] eqn:E.
  assert (files d' = files d) as Hfs by (by rewrite <- (next_fault_files d), E).
  destruct f; [destruct (run c (files d')); done| |]; by intros [= _ <-].
Qed.

Lemma eta_device d : mkDevice (files d) (faults d) = d.
Proof. by destruct d. Qed.

(** *** The command lines of the service, as the shell reads them *)

Lemma dquote_not_literal c : Ascii.eqb c dquote = true → is_literal c = false.
Proof. by intros ->%Ascii.eqb_eq. Qed.

Lemma word_from_literal w t :
  literal w = true → word_from (w ++ String dquote t) = Some (w, t).
Proof.
  induction w as [|c w IH]; simpl; [done|].
  intros [Hc Hw]%andb_prop. destruct (Ascii.eqb c dquote) eqn:E.
  - by rewrite (dquote_not_literal _ E) in Hc.
  - by rewrite Hc, (IH Hw).
Qed.

(** A word that is not literal is cut short or refused: what is read,
    if anything, leaves more text behind than the line has after the
    closing quote. *)
Lemma word_from_longer w t u rest :
  literal w = false → word_from (w ++ String dquote t) = Some (u, rest) →
  String.length t < String.length rest.
Proof.
  revert u. induction w as [|c w IH]; intros u Hw; [done|].
  unfold literal in Hw, IH. cbn [Js.all_chars] in Hw. cbn [String.append word_from].
  destruct (Ascii.eqb c dquote) eqn:E.
  - intros [= _ <-]. rewrite length_append. simpl. lia.
  - destruct (is_literal c); [|done]. cbn [andb] in Hw.
    destruct (word_from _) as [[w' r']|]; [|done].
    intros [= _ <-]. by apply (IH w').
Qed.

Lemma after_app name rest : after name (name ++ rest) = Some rest.
Proof.
  induction name as [|c name IH]; simpl; [done|]. by rewrite Ascii.eqb_refl.
Qed.

Lemma reads_line name tail w :
  reads name tail (name ++ quoted w ++ tail) =
    if literal w then Some w else None.
Proof.
  unfold reads, quoted. rewrite after_app.
  change (String dquote (w ++ String dquote "") ++ tail)
    with (String dquote ((w ++ String dquote "") ++ tail)).
  cbv iota beta. rewrite Ascii.eqb_refl, append_assoc.
  change (String dquote "" ++ tail) with (String dquote tail).
  destruct (literal w) eqn:Hw.
  - by rewrite (word_from_literal w tail Hw), String.eqb_refl.
  - destruct (word_from _) as [[u rest]|] eqn:E; [|done].
    pose proof (word_from_longer w tail u rest Hw E) as Hlen.
    destruct (String.eqb_spec rest tail) as [->|_]; [lia|done].
Qed.

Lemma reads_line_end name w :
  reads name "" (name ++ quoted w) = if literal w then Some w else None.
Proof. by rewrite <- (reads_line name "" w), append_nil_r. Qed.

Lemma parse_rm p :
  parse ("rm -f " ++ quoted p) = if literal p then Some (RmForce p) else None.
Proof.
  unfold parse. rewrite reads_line_end. by destruct (literal p).
Qed.

Lemma parse_md5sum p :
  parse ("md5sum " ++ quoted p ++ " 2>/dev/null") =
    if literal p then Some (Md5sum p) else None.
Proof.
  unfold parse. rewrite reads_line.
  change (reads "rm -f " "" _) with (@None string).
  by destruct (literal p).
Qed.

Lemma parse_mkdir p :
  parse ("mkdir -p " ++ quoted p) =
    if literal p then Some (MkdirP p) else None.
Proof.
  unfold parse. rewrite reads_line_end.
  change (reads "rm -f " "" _) with (@None string).
  change (reads "md5sum " _ _) with (@None string).
  by destruct (literal p).
Qed.

(** [rm -f] on a double-quoted path. *)
Lemma run_rm p fs :
  run ("rm -f " ++ quoted p) fs = ("", if literal p then delete p fs else fs).
Proof. unfold run. rewrite parse_rm. by destruct (literal p). Qed.

(** [md5sum] on a double-quoted path, errors discarded. *)
Lemma run_md5sum p fs :
  run ("md5sum " ++ quoted p ++ " 2>/dev/null") fs =
    (match found fs p with
     | Some digest => digest ++ "  " ++ p ++ newline
     | None => ""
     end, fs).
Proof.
  unfold run, found. rewrite parse_md5sum.
  destruct (literal p); [|done]. cbn [exec]. by destruct (fs !! p).
Qed.

(** [mkdir -p] on a double-quoted path. *)
Lemma run_mkdir p fs : run ("mkdir -p " ++ quoted p) fs = ("", fs).
Proof. unfold run. rewrite parse_mkdir. by destruct (literal p). Qed.

Lemma found_literal fs p : literal p = true → found fs p = fs !! p.
Proof. unfold found. by intros ->. Qed.

Lemma found_None fs p : fs !! p = None → found fs p = None.
Proof. unfold found. intros ->. by destruct (literal p). Qed.

(** Over a sound connection [getFileHash] answers by the file the shell
    finds. *)
Lemma getFileHash_probe d d1 p :
  next_fault d = (NoFault, d1) →
  getFileHash d p = (inr (probe (found (files d) p) p), d1).
Proof.
  intros E. unfold getFileHash. rewrite (shell_ok _ _ _ E), run_md5sum.
  assert (files d1 = files d) as Hfs by (by rewrite <- (next_fault_files d), E).
  unfold probe. destruct (found (files d) p) as [h|]; cbn [fst snd].
  - rewrite <- Hfs, eta_device. by destruct (_ || _).
  - rewrite <- Hfs, eta_device. done.
Qed.

Lemma getFileHash_fault d f d1 p :
  next_fault d = (f, d1) → f ≠ NoFault → getFileHash d p = (inr None, d1).
Proof. intros E Hf. unfold getFileHash. by rewrite (shell_fault _ _ _ _ E Hf). Qed.

Lemma getFileHash_files d p : files (snd (getFileHash d p)) = files d.
Proof.
  destruct (next_fault d) as [f d1] eqn:E.
  assert (files d1 = files d) as Hfs by (by rewrite <- (next_fault_files d), E).
  destruct (decide (f = NoFault)) as [->|Hf].
  - by rewrite (getFileHash_probe _ _ _ E).
  - by rewrite (getFileHash_fault _ _ _ _ E Hf).
Qed.

Lemma probe_hex h p :
  hex_digest h = true → includes "No such file" p = false →
  probe (Some h) p = Some h.
Proof.
  intros Hh Hp. destruct (parse_md5sum_line h p Hh Hp) as (H1 & H2 & H3).
  unfold probe. simpl in *. by rewrite H1, H2, H3.
Qed.


Lemma getFileHash_present d p h :
  literal p = true →
  fst (next_fault d) = NoFault → files d !! p = Some h →
  hex_digest h = true → includes "No such file" p = false →
  getFileHash d p = (inr (Some h), snd (next_fault d)).
Proof.
  intros Hlit Hf Hp Hh Hinc.
  destruct (next_fault d) as [f d1] eqn:E. simpl in *. subst f.
  by rewrite (getFileHash_probe _ _ _ E), (found_literal _ _ Hlit), Hp, probe_hex.
Qed.

(** What [rm -f] on the double-quoted path [p] leaves of the files. *)
Lemma deleteFile_ok d d1 p :
  next_fault d = (NoFault, d1) →
  deleteFile d p =
    (inr true,
     mkDevice (if literal p then delete p (files d) else files d) (faults d1)).
Proof.
  intros E. unfold deleteFile. by rewrite (shell_ok _ _ _ E), run_rm.
Qed.

Lemma deleteFile_fault d f d1 p :
  next_fault d = (f, d1) → f ≠ NoFault → deleteFile d p = (inr false, d1).
Proof. intros E Hf. unfold deleteFile. by rewrite (shell_fault _ _ _ _ E Hf). Qed.

Lemma pushFile_ok d d1 l h p :
  next_fault d = (NoFault, d1) →
  pushFile d l (Some h) p =
    (inr (mkPushResult true p ""), mkDevice (<[p := h]> (files d)) (faults d1)).
Proof.
  intros E. unfold pushFile. rewrite E.
  assert (files d1 = files d) as -> by (by rewrite <- (next_fault_files d), E).
  done.
Qed.

Lemma getFileHash_returns d p : ∃ r, fst (getFileHash d p) = inr r.
Proof.
  unfold getFileHash. destruct (shell d _) as [[e|out] d1]; [by eexists|].
  destruct (_ || _); by eexists.
Qed.

Lemma deleteFile_returns d p : ∃ b, fst (deleteFile d p) = inr b.
Proof.
  unfold deleteFile. destruct (shell d _) as [[e|out] d1]; by eexists.
Qed.


(** C4, counterexample.  The file is on the device and the connection
    fails at the call: the shell command throws, and [getFileHash] returns
    [null], the answer it gives for a file that is not there, instead of
    raising the failure. *)
Lemma getFileHash_hides_transport_failure :
  let p := "/sdcard/DCIM/FrameoSync/0cc175b9c0f1b6a831c399e269772661.jpeg" in
  let d := mkDevice {[ p := "0cc175b9c0f1b6a831c399e269772661" ]}
                    [ConnectionFault] in
  files d !! p = Some "0cc175b9c0f1b6a831c399e269772661" ∧
  fst (shell d ("md5sum " ++ quoted p ++ " 2>/dev/null")) =
    inl "device offline" ∧
  fst (getFileHash d p) = inr None.
Proof. done. Qed.

(** C4, as amended.  [getFileHash] never throws.  Over a sound
    connection, and for a path the device's shell takes literally between
    the double quotes of the command (a path without [$], backquote,
    double quote and backslash), it returns the digest of a file that
    exists (a hexadecimal digest, at a path that does not contain the text
    "No such file") and [null] for a file that does not.  When the
    connection fails it returns [null] for every path, so that a transport
    failure and an absent file give the same answer. *)
Theorem getFileHash_answers (d : Device) (p : string) :
  (∃ r, fst (getFileHash d p) = inr r) ∧
  (fault_at d 0 ≠ NoFault → fst (getFileHash d p) = inr None) ∧
  (literal p = true → fault_at d 0 = NoFault → files d !! p = None →
     fst (getFileHash d p) = inr None) ∧
  (∀ h, literal p = true → fault_at d 0 = NoFault → files d !! p = Some h →
        hex_digest h = true → includes "No such file" p = false →
        fst (getFileHash d p) = inr (Some h)).
Proof.
  destruct (next_fault_at d) as [H0 _].
  destruct (next_fault d) as [f d1] eqn:E. simpl in H0. rewrite <- H0.
  split_and!.
  - apply getFileHash_returns.
  - intros Hf. by rewrite (getFileHash_fault _ _ _ _ E Hf).
  - intros Hlit -> Hp.
    by rewrite (getFileHash_probe _ _ _ E), (found_literal _ _ Hlit), Hp.
  - intros h Hlit -> Hp Hh Hinc.
    by rewrite (getFileHash_probe _ _ _ E), (found_literal _ _ Hlit), Hp, probe_hex.
Qed.

Lemma getFileHash_answers_witness :
  let h := "0cc175b9c0f1b6a831c399e269772661" in
  let p := "/sdcard/DCIM/FrameoSync/0cc175b9c0f1b6a831c399e269772661.jpeg" in
  fst (getFileHash (mkDevice {[ p := h ]} [ConnectionFault]) p) = inr None ∧
  fst (getFileHash (mkDevice ∅ []) p) = inr None ∧
  fst (getFileHash (mkDevice {[ p := h ]} []) p) = inr (Some h).
Proof.
  intros h p. split_and!.
  - apply (proj1 (proj2 (getFileHash_answers
             (mkDevice {[ p := h ]} [ConnectionFault]) p))).
    discriminate.
  - apply (proj1 (proj2 (proj2 (getFileHash_answers (mkDevice ∅ []) p))));
      reflexivity.
  - apply (proj2 (proj2 (proj2 (getFileHash_answers
             (mkDevice {[ p := h ]} []) p)))); reflexivity.
Defined.

End AdbFacts.

(** ** The engine, one iteration at a time *)

Module EngineSteps.
Import Engine.

Lemma eta_state s : mkState (db s) (adb s) (tmp s) (result s) = s.
Proof. by destruct s. Qed.

(** An iteration of the addition pass never throws, and acts on the
    database, the device and the result as [photo_effect] says. *)
Lemma processPhoto_effect env source m device ids photo s :
  ∃ s', processPhoto env source m device ids photo s = (inr tt, s') ∧
        core s' = photo_effect env source m device ids (core s) photo.
Proof.
  unfold processPhoto, try_catch, syncPhoto, photo_effect, core.
  destruct (bool_decide (photo_id photo ∈ ids)); [by eexists|].
  unfold bind at 1, downloadPhoto, pipeline.
  destruct (fetch source photo) as [e|[dl bytes]]; [by eexists|].
  unfold bind at 1, processImage. cbn [tmp with_tmp].
  rewrite lookup_insert_eq.
  destruct (render env dl bytes) as [e|[img out]]; [by eexists|].
  unfold bind at 1, computeHash. cbn [tmp with_tmp].
  rewrite lookup_insert_eq.
  unfold bind at 1, adbCall, remotePath. cbn [adb with_tmp].
  destruct (Adb.getFileHash (adb s) _) as [[e|existing] a1]; [by eexists|].
  destruct (bool_decide (existing = Some out)); [by eexists|].
  unfold bind at 1, pushFile. cbn [adb tmp with_tmp with_adb].
  rewrite lookup_insert_eq.
  destruct (Adb.pushFile a1 _ (Some out) _) as [[e|pr] a2]; [by eexists|].
  destruct (Adb.success pr); by eexists.
Qed.

(** So does an iteration of the removal pass. *)
Lemma removePhoto_effect synced s :
  ∃ s', removePhoto synced s = (inr tt, s') ∧ tmp s' = tmp s ∧
        core s' = remove_effect (core s) synced.
Proof.
  unfold removePhoto, try_catch, remove_effect, core, bind, adbCall.
  destruct (Adb.deleteFile (adb s) _) as [[e|b] a1]; by eexists.
Qed.

Lemma addition_pass env source m device ids photos s :
  ∃ s', for_each photos (processPhoto env source m device ids) s = (inr tt, s') ∧
        core s' = foldl (photo_effect env source m device ids) (core s) photos.
Proof.
  revert s. induction photos as [|p photos IH]; intros s; simpl.
  - by eexists.
  - destruct (processPhoto_effect env source m device ids p s) as (s1 & E & Hc).
    unfold bind. rewrite E. destruct (IH s1) as (s' & E' & Hc').
    exists s'. by rewrite E', Hc', Hc.
Qed.

Lemma removal_pass rows s :
  ∃ s', for_each rows removePhoto s = (inr tt, s') ∧ tmp s' = tmp s ∧
        core s' = foldl remove_effect (core s) rows.
Proof.
  revert s. induction rows as [|x rows IH]; intros s; simpl.
  - by eexists.
  - destruct (removePhoto_effect x s) as (s1 & E & Ht & Hc).
    unfold bind. rewrite E. destruct (IH s1) as (s' & E' & Ht' & Hc').
    exists s'. by rewrite E', Hc', Hc, Ht', Ht.
Qed.

Lemma shell_mkdir dev dev1 p :
  Adb.next_fault dev = (Adb.NoFault, dev1) →
  Adb.ensureDirectory dev p = (inr tt, dev1).
Proof.
  intros E. unfold Adb.ensureDirectory.
  rewrite (AdbFacts.shell_ok _ _ _ E), AdbFacts.run_mkdir. cbn [fst snd].
  pose proof (AdbFacts.next_fault_files dev) as Hfs. rewrite E in Hfs.
  cbn [snd] in Hfs. by rewrite <- Hfs, AdbFacts.eta_device.
Qed.

(** A run that gets past its preliminaries ends with the temp directory
    removed and with what the two passes leave. *)
Lemma executeSync_run env m d dev dev1 files mapping source device sourcePhotos :
  resolves env d m mapping source device sourcePhotos →
  Adb.next_fault dev = (Adb.NoFault, dev1) →
  let photos := photosToSync mapping sourcePhotos in
  let d1 := logSync m "sync_start" "in_progress" "Sync started" d in
  let c := passes env source m mapping device (getSyncedPhotos d m) photos
             (d1, dev1, emptyResult m) in
  let s := executeSync env m d dev files in
  synced_photos (db s) = synced_photos c.1.1 ∧
  adb s = c.1.2 ∧
  tmp s = ∅ ∧
  result s = set_success (bool_decide (errors c.2 = [])) c.2.
Proof.
  intros (sr & Hm & Hs & Hd & Hc & Hp) Hf photos d1 c s.
  assert (∃ s3 dbf, core s3 = c ∧ synced_photos dbf = synced_photos (db s3) ∧
            s = mkState dbf (adb s3) ∅
                  (set_success (bool_decide (errors (result s3) = [])) (result s3)))
    as (s3 & dbf & Hc3 & Hdbf & ->).
  2:{ simpl. rewrite Hdbf. unfold core in Hc3. by rewrite <- Hc3. }
  subst s. unfold executeSync. rewrite Hm, Hs, Hd.
  unfold try_catch, syncBody.
  unfold bind at 1, lift. rewrite Hc.
  unfold bind at 1, adbCall. cbn [adb with_db].
  rewrite (shell_mkdir _ _ _ Hf).
  unfold bind at 1. rewrite Hp.
  unfold bind at 1, gets. cbn [db with_adb with_db].
  change (getSyncedPhotos (logSync _ _ _ _ d) m) with (getSyncedPhotos d m).
  set (ids := list_to_set (sourcePhotoId <$> getSyncedPhotos d m) : gset string).
  fold photos.
  destruct (addition_pass env source m device ids photos
    (with_adb dev1 (with_db (logSync m "sync_start" "in_progress" "Sync started")
       (mkState d dev files (emptyResult m))))) as (s2 & E2 & Hc2).
  unfold bind at 1. rewrite E2.
  assert (∃ s3, (match syncMode mapping with
                 | mirror => for_each (toRemove (getSyncedPhotos d m) photos) removePhoto
                 | add_only => ret tt
                 end) s2 = (inr tt, s3) ∧ core s3 = c) as (s3 & E3 & Hc3).
  { subst c. unfold passes. fold ids.
    change (core (with_adb dev1 _)) with (d1, dev1, emptyResult m) in Hc2.
    rewrite <- Hc2.
    destruct (syncMode mapping).
    - destruct (removal_pass (toRemove (getSyncedPhotos d m) photos) s2)
        as (s3 & E3 & _ & Hc3). by exists s3.
    - by exists s2. }
  unfold bind at 1. rewrite E3.
  unfold bind, modify, gets. cbn.
  eexists s3, _. split_and!; [done| |reflexivity]. done.
Qed.

End EngineSteps.

(** ** The ledger and the removal pass *)

Module LedgerFacts.
Import Engine.

Lemma filter_all {A} (P : A → Prop) `{∀ x, Decision (P x)} (l : list A) :
  Forall P l → filter P l = l.
Proof.
  induction 1 as [|x l Hx Hl IH]; [done|].
  rewrite filter_cons_True by done. by rewrite IH.
Qed.

Lemma insert_or_replace_fresh row rows :
  Forall (λ old, ¬ clashes row old) rows →
  insert_or_replace row rows = (rows ++ [row])%list.
Proof. intros H. unfold insert_or_replace. by rewrite filter_all. Qed.

Lemma recordSyncedPhoto_rows' m pid path dp h sz d :
  synced_photos (recordSyncedPhoto m pid path dp h sz d) =
    insert_or_replace (mkSynced (next_uuid d) m pid path dp h sz)
                      (synced_photos d) ∧
  next_uuid (recordSyncedPhoto m pid path dp h sz d) = S (next_uuid d).
Proof. done. Qed.

(** Counters of the result under the removal pass. *)
Lemma iter_add_removed n r :
  photosRemoved (Nat.iter n add_removed r) = photosRemoved r + n ∧
  photosAdded (Nat.iter n add_removed r) = photosAdded r ∧
  photosSkipped (Nat.iter n add_removed r) = photosSkipped r ∧
  errors (Nat.iter n add_removed r) = errors r.
Proof.
  induction n as [|n (IH1 & IH2 & IH3 & IH4)]; simpl.
  - split_and!; [lia|done..].
  - split_and!; [lia|done..].
Qed.

(** One iteration of the removal pass: the row goes and the removal is
    counted, whatever the device answered. *)
Lemma remove_effect_always d a r row :
  ∃ a', remove_effect (d, a, r) row =
          (deleteSyncedPhoto (synced_id row) d, a', add_removed r) ∧
        (∀ a1, Adb.next_fault a = (Adb.NoFault, a1) →
           a' = Adb.mkDevice
                  (if Adb.literal (syncedDevicePath row)
                   then delete (syncedDevicePath row) (Adb.files a)
                   else Adb.files a)
                  (Adb.faults a1)) ∧
        (∀ f a1, Adb.next_fault a = (f, a1) → f ≠ Adb.NoFault → a' = a1).
Proof.
  unfold remove_effect.
  destruct (Adb.next_fault a) as [f a1] eqn:E.
  destruct (decide (f = Adb.NoFault)) as [->|Hf].
  - rewrite (AdbFacts.deleteFile_ok _ _ _ E). eexists. split_and!; [done| |].
    + by intros ? [= <-].
    + by intros ?? [= <- <-].
  - rewrite (AdbFacts.deleteFile_fault _ _ _ _ E Hf). eexists. split_and!; [done| |].
    + intros ? [= -> _]. done.
    + by intros ?? [= _ <-].
Qed.

Lemma removal_fold rows d a r :
  let c := foldl remove_effect (d, a, r) rows in
  synced_photos c.1.1 =
    filter (λ x, synced_id x ∉ synced_id <$> rows) (synced_photos d) ∧
  next_uuid c.1.1 = next_uuid d ∧
  c.2 = Nat.iter (length rows) add_removed r.
Proof.
  revert d a r. induction rows as [|row rows IH]; intros d a r; cbn [foldl].
  - simpl. split_and!; [|done..]. symmetry. apply filter_all, Forall_forall.
    intros x _. apply not_elem_of_nil.
  - destruct (remove_effect_always d a r row) as (a' & -> & _).
    destruct (IH (deleteSyncedPhoto (synced_id row) d) a' (add_removed r))
      as (H1 & H2 & H3).
    cbn [length Nat.iter]. split_and!.
    + rewrite H1. simpl. rewrite list_filter_filter. apply list_filter_iff.
      intros x. rewrite not_elem_of_cons. tauto.
    + by rewrite H2.
    + rewrite H3. clear. induction (length rows); simpl; [done|]. by f_equal.
Qed.

(** Over a connection that never fails, the removal pass deletes the file
    of every row it goes through whose path is literal, and no other
    file. *)
Lemma removal_fold_live rows d a r :
  Adb.live a →
  let c := foldl remove_effect (d, a, r) rows in
  Adb.live c.1.2 ∧
  ∀ p, Adb.files c.1.2 !! p =
         if decide (p ∈ filter (λ q, Adb.literal q = true)
                          (syncedDevicePath <$> rows))
         then None
         else Adb.files a !! p.
Proof.
  revert d a r. induction rows as [|row rows IH]; intros d a r Hlive; cbn [foldl].
  - cbn [fst snd]. split; [done|]. intros p.
    case_decide as H; [by apply elem_of_nil in H|done].
  - destruct (remove_effect_always d a r row) as (a' & -> & Hok & _).
    destruct (AdbFacts.next_fault_live a Hlive) as [Hf Hl].
    destruct (Adb.next_fault a) as [f a1] eqn:E. cbn [fst snd] in Hf, Hl. subst f.
    specialize (Hok a1 eq_refl). subst a'.
    set (a2 := Adb.mkDevice _ (Adb.faults a1)).
    destruct (IH (deleteSyncedPhoto (synced_id row) d) a2 (add_removed r) Hl)
      as (H1 & H2).
    split; [done|]. intros p. rewrite H2. unfold a2. cbn [Adb.files].
    rewrite fmap_cons.
    destruct (Adb.literal (syncedDevicePath row)) eqn:Hlit.
    + rewrite filter_cons_True by done.
      destruct (decide (p ∈ filter (λ q, Adb.literal q = true)
                              (syncedDevicePath <$> rows))) as [Hin'|Hin'].
      * rewrite decide_True; [done|]. by right.
      * destruct (decide (p = syncedDevicePath row)) as [->|Hne].
        -- rewrite decide_True by left. apply lookup_delete_eq.
        -- rewrite decide_False.
           ++ by apply lookup_delete_ne.
           ++ intros [?|?]%elem_of_cons; done.
    + rewrite filter_cons_False by congruence. done.
Qed.


End LedgerFacts.

(** ** The addition pass *)

Module AdditionFacts.
Import Engine.

Lemma pushFile_cases a l h p :
  (∃ a1, Adb.next_fault a = (Adb.NoFault, a1) ∧
         Adb.pushFile a l (Some h) p =
           (inr (Adb.mkPushResult true p ""),
            Adb.mkDevice (<[p := h]> (Adb.files a)) (Adb.faults a1))) ∨
  (Adb.fault_at a 0 ≠ Adb.NoFault ∧
   Adb.files (Adb.pushFile a l (Some h) p).2 = Adb.files a ∧
   match (Adb.pushFile a l (Some h) p).1 with
   | inl _ => True
   | inr pr => Adb.success pr = false
   end).
Proof.
  destruct (AdbFacts.next_fault_at a) as [H0 _].
  pose proof (AdbFacts.next_fault_files a) as Hfs.
  destruct (Adb.next_fault a) as [f a1] eqn:E. cbn [fst snd] in *.
  destruct f.
  - left. exists a1. split; [done|]. by apply AdbFacts.pushFile_ok.
  - right. unfold Adb.pushFile. rewrite E. by rewrite <- H0.
  - right. unfold Adb.pushFile. rewrite E. by rewrite <- H0.
Qed.

Lemma live_fault0 a : Adb.live a → Adb.fault_at a 0 = Adb.NoFault.
Proof. intros H. by apply AdbFacts.live_fault_at. Qed.

Lemma getFileHash_live a p :
  Adb.live a →
  Adb.getFileHash a p =
    (inr (Adb.probe (Adb.found (Adb.files a) p) p), (Adb.next_fault a).2) ∧
  Adb.live (Adb.next_fault a).2 ∧ Adb.files (Adb.next_fault a).2 = Adb.files a.
Proof.
  intros Hl. destruct (AdbFacts.next_fault_live a Hl) as [Hf0 Hl1].
  pose proof (AdbFacts.next_fault_files a) as Hfs.
  destruct (Adb.next_fault a) as [f a1] eqn:E. cbn [fst snd] in *. subst f.
  by rewrite (AdbFacts.getFileHash_probe _ _ _ E).
Qed.

(** Every iteration goes one of the four ways. *)
Lemma photo_effect_case env source m device ids d a r photo :
  photo_case env source m device ids d a r photo
    (photo_effect env source m device ids (d, a, r) photo).
Proof.
  unfold photo_effect.
  case_bool_decide as Hid; [by constructor|].
  destruct (pipeline env source photo) as [e|[[dl img] h]] eqn:Ep.
  { apply case_failed; eauto. }
  cbv zeta.
  pose proof (AdbFacts.getFileHash_files a (remotePath device h img)) as Hfs.
  destruct (AdbFacts.getFileHash_returns a (remotePath device h img)) as [x Hx].
  destruct (Adb.getFileHash a (remotePath device h img)) as [gr a1] eqn:Eg.
  cbn [fst snd] in *. subst gr.
  case_bool_decide as Hex.
  { subst x. by eapply case_present. }
  destruct (pushFile_cases a1 (image_path img) h (remotePath device h img))
    as [(a2 & En & Epush)|(Hf & Hfs2 & Hr)].
  - rewrite Epush. cbn -[recordSyncedPhoto]. by eapply case_pushed.
  - assert (Adb.live a → False) as Hnl.
    { intros Hl. apply Hf, live_fault0.
      destruct (getFileHash_live a (remotePath device h img) Hl) as (Eg' & Hl' & _).
      rewrite Eg in Eg'. by injection Eg' as _ ->. }
    destruct (Adb.pushFile a1 _ (Some h) _) as [[e|pr] a2]; cbn [fst snd] in *.
    + apply case_failed; [done|congruence|tauto].
    + rewrite Hr. apply case_failed; [done|congruence|tauto].
Qed.

(** The connection stays sound through an iteration. *)
Lemma photo_effect_live env source m device ids d a r photo :
  Adb.live a → Adb.live (photo_effect env source m device ids (d, a, r) photo).1.2.
Proof.
  intros Hl. unfold photo_effect.
  case_bool_decide; [done|].
  destruct (pipeline env source photo) as [e|[[dl img] h]]; [done|]. cbv zeta.
  destruct (AdbFacts.next_fault_live a Hl) as [Hf0 Hl1].
  destruct (Adb.next_fault a) as [f a1] eqn:E. cbn [fst snd] in *. subst f.
  rewrite (AdbFacts.getFileHash_probe _ _ _ E).
  case_bool_decide; [done|].
  destruct (AdbFacts.next_fault_live a1 Hl1) as [Hf1 Hl2].
  destruct (Adb.next_fault a1) as [f a2] eqn:E1. cbn [fst snd] in *. subst f.
  by rewrite (AdbFacts.pushFile_ok _ _ _ _ _ E1).
Qed.

Lemma addition_live env source m device ids photos c :
  Adb.live c.1.2 →
  Adb.live (foldl (photo_effect env source m device ids) c photos).1.2.
Proof.
  revert c. induction photos as [|p photos IH]; intros [[d a] r] Hl; [done|].
  cbn [foldl]. apply IH.
  by apply (photo_effect_live env source m device ids d a r p).
Qed.

Section Ledger.
Context (env : Env) (source : Source) (m : uuid) (device : DeviceRecord).
Context (ids : gset string) (d0 : Db).
Hypothesis old_ids : Forall (λ row, synced_id row < next_uuid d0) (synced_photos d0).
Hypothesis old_known :
  ∀ row, row ∈ synced_photos d0 → mappingId row = m → sourcePhotoId row ∈ ids.

Lemma grown_refl : grown m ids d0 d0 [].
Proof.
  exists []. split_and!; [by rewrite app_nil_r|done|constructor|constructor].
Qed.

Lemma grown_mono d seen seen' :
  seen ⊆ seen' → grown m ids d0 d seen → grown m ids d0 d seen'.
Proof.
  intros Hs (news & H1 & H2 & H3 & H4). exists news. split_and!; try done.
  eapply Forall_impl; [exact H4|]. intros row (?&?&?&?&?). split_and!; auto.
Qed.

Lemma grown_ids d seen :
  grown m ids d0 d seen →
  Forall (λ row, synced_id row < next_uuid d) (synced_photos d).
Proof.
  intros (news & -> & H2 & H3 & H4). apply Forall_app. split.
  - eapply Forall_impl; [exact old_ids|]. intros row ?. simpl in *. lia.
  - eapply Forall_impl; [exact H4|]. by intros row (?&?&?&?&?).
Qed.

(** Recording a photo the ledger of [d0] does not know keeps every row
    of [d0], and every photo identifier the ledger holds. *)
Lemma record_grown d seen pid path dp h sz :
  grown m ids d0 d seen → pid ∉ ids →
  let d' := recordSyncedPhoto m pid path dp h sz d in
  grown m ids d0 d' (seen ++ [pid]) ∧
  (∀ k, k ∈ ledgerIds d m → k ∈ ledgerIds d' m) ∧
  pid ∈ ledgerIds d' m.
Proof.
  intros Hg Hpid d'. pose proof (grown_ids d seen Hg) as Hlt.
  destruct Hg as (news & Hrows & H2 & H3 & H4).
  destruct (LedgerFacts.recordSyncedPhoto_rows' m pid path dp h sz d) as [Er En].
  fold d' in Er, En.
  set (row := mkSynced (next_uuid d) m pid path dp h sz) in *.
  assert (synced_photos d' =
            (synced_photos d0 ++ (filter (λ old, ¬ clashes row old) news ++ [row]))%list)
    as Hrows'.
  { rewrite Er. unfold insert_or_replace. rewrite Hrows, filter_app, <- app_assoc.
    f_equal. apply LedgerFacts.filter_all, Forall_forall. intros old Hold.
    intros [Hc|[Hc1 Hc2]]; simpl in *.
    - rewrite Forall_forall in old_ids. specialize (old_ids old Hold).
      simpl in *. lia.
    - apply Hpid. rewrite <- Hc2. by apply old_known. }
  split_and!.
  - exists (filter (λ old, ¬ clashes row old) news ++ [row])%list.
    split_and!.
    + done.
    + rewrite En. lia.
    + rewrite fmap_app. apply NoDup_app. split_and!.
      * eapply sublist_NoDup; [exact H3|].
        apply fmap_sublist, sublist_filter.
      * intros x Hx Hx'. apply list_elem_of_fmap in Hx as (old & -> & Hold).
        apply list_elem_of_filter in Hold as [_ Hold].
        rewrite Forall_forall in H4. destruct (H4 old Hold) as (_&_&_&_&Hlt').
        simpl in Hx'. apply list_elem_of_singleton in Hx'. simpl in Hx'. lia.
      * simpl. apply NoDup_singleton.
    + apply Forall_app. split.
      * apply Forall_forall. intros old Hold%list_elem_of_filter.
        destruct Hold as [_ Hold]. rewrite Forall_forall in H4.
        destruct (H4 old Hold) as (?&?&?&?&?).
        split_and!; [done|apply elem_of_app; by left|done|done|rewrite En; lia].
      * constructor; [|constructor]. simpl.
        split_and!; [done| |done|lia|lia].
        apply elem_of_app. right. by apply list_elem_of_singleton.
  - intros k. unfold ledgerIds, getSyncedPhotos.
    rewrite !list_elem_of_fmap. intros (old & -> & Hold).
    apply list_elem_of_filter in Hold as [Hm Hold].
    destruct (decide (clashes row old)) as [Hc|Hc].
    + exists row. split.
      * destruct Hc as [Hc|[_ Hc]]; simpl in *.
        -- rewrite Forall_forall in Hlt. specialize (Hlt old Hold). simpl in *. lia.
        -- done.
      * apply list_elem_of_filter. split; [done|]. rewrite Er.
        unfold insert_or_replace. apply elem_of_app. right.
        by apply list_elem_of_singleton.
    + exists old. split; [done|]. apply list_elem_of_filter. split; [done|].
      rewrite Er. unfold insert_or_replace. apply elem_of_app. left.
      by apply list_elem_of_filter.
  - unfold ledgerIds, getSyncedPhotos. apply list_elem_of_fmap. exists row.
    split; [done|]. apply list_elem_of_filter. split; [done|]. rewrite Er.
    unfold insert_or_replace. apply elem_of_app. right.
    by apply list_elem_of_singleton.
Qed.

Lemma photo_case_grown d a r seen photo c' :
  grown m ids d0 d seen →
  photo_case env source m device ids d a r photo c' →
  grown m ids d0 c'.1.1 (seen ++ [photo_id photo]) ∧
  (∀ k, k ∈ ledgerIds d m → k ∈ ledgerIds c'.1.1 m).
Proof.
  intros Hg Hc.
  assert (grown m ids d0 d (seen ++ [photo_id photo])) as Hg'.
  { eapply grown_mono; [|exact Hg]. intros x Hx. apply elem_of_app. by left. }
  destruct Hc as [| | |dl img hash ex a1 a2 Hnot Hp Hq Hne Hpush];
    cbn [fst snd]; try done.
  destruct (record_grown d seen (photo_id photo) (photo_path photo)
              (remotePath device hash img) hash (image_size img) Hg Hnot)
    as (Hr1 & Hr2 & _); done.
Qed.

Lemma addition_grown photos d a r seen :
  grown m ids d0 d seen →
  let c' := foldl (photo_effect env source m device ids) (d, a, r) photos in
  grown m ids d0 c'.1.1 (seen ++ (photo_id <$> photos)) ∧
  (∀ k, k ∈ ledgerIds d m → k ∈ ledgerIds c'.1.1 m).
Proof.
  revert d a r seen. induction photos as [|p photos IH]; intros d a r seen Hg.
  - cbn. by rewrite app_nil_r.
  - cbn [foldl].
    pose proof (photo_effect_case env source m device ids d a r p) as Hc.
    destruct (photo_effect env source m device ids (d, a, r) p) as [[d1 a1] r1].
    destruct (photo_case_grown d a r seen p _ Hg Hc) as [Hg1 Hk1].
    destruct (IH d1 a1 r1 _ Hg1) as [Hg2 Hk2]. cbn [fst snd] in *.
    split.
    + rewrite fmap_cons. by rewrite <- (assoc_L app seen [photo_id p]) in Hg2.
    + eauto.
Qed.

End Ledger.

(** An iteration for a photo whose file is on the device already: the
    photo is counted as skipped and nothing else changes. *)
Lemma photo_effect_present env source m device ids d a r photo dl img h a1 :
  photo_id photo ∉ ids →
  pipeline env source photo = inr (dl, img, h) →
  Adb.getFileHash a (remotePath device h img) = (inr (Some h), a1) →
  photo_effect env source m device ids (d, a, r) photo = (d, a1, add_skipped r).
Proof.
  intros Hid Hp Hg. unfold photo_effect.
  rewrite bool_decide_eq_false_2 by done. rewrite Hp. cbv zeta.
  rewrite Hg. by rewrite bool_decide_eq_true_2.
Qed.

(** Every iteration accounts for its photo once: as added, as skipped or
    by an error; and it removes nothing. *)
Lemma addition_counts env source m device ids photos c :
  let c' := foldl (photo_effect env source m device ids) c photos in
  photosAdded c'.2 + photosSkipped c'.2 + length (errors c'.2) =
    photosAdded c.2 + photosSkipped c.2 + length (errors c.2) + length photos ∧
  photosRemoved c'.2 = photosRemoved c.2 ∧
  length (errors c.2) ≤ length (errors c'.2).
Proof.
  revert c. induction photos as [|p photos IH]; intros [[d a] r]; cbn [foldl].
  { simpl. lia. }
  pose proof (photo_effect_case env source m device ids d a r p) as Hc.
  destruct (IH (photo_effect env source m device ids (d, a, r) p)) as (H1 & H2 & H3).
  cbv zeta. rewrite H1, H2. clear IH H1 H2.
  set (c1 := photo_effect env source m device ids (d, a, r) p) in *. clearbody c1.
  destruct Hc; simpl in *; rewrite ?length_app in *; simpl in *; lia.
Qed.

(** *** Photos that are new to the ledger and to the device *)

Lemma next_fault_faults a :
  (Adb.next_fault a).1 = nth 0 (Adb.faults a) Adb.NoFault ∧
  Adb.faults (Adb.next_fault a).2 = drop 1 (Adb.faults a).
Proof.
  unfold Adb.next_fault. destruct (Adb.faults a) as [|f rest] eqn:E; simpl.
  - by rewrite E.
  - by rewrite drop_0.
Qed.

Lemma getFileHash_absent_any a p :
  Adb.files a !! p = None →
  Adb.getFileHash a p = (inr None, (Adb.next_fault a).2).
Proof.
  intros Hp. destruct (Adb.next_fault a) as [f a1] eqn:E.
  destruct (decide (f = Adb.NoFault)) as [->|Hf].
  - by rewrite (AdbFacts.getFileHash_probe _ _ _ E), (AdbFacts.found_None _ _ Hp).
  - by rewrite (AdbFacts.getFileHash_fault _ _ _ _ E Hf).
Qed.

(** One iteration for a photo that is neither in the ledger nor on the
    device: it is pushed and recorded when the connection holds at the
    push, and an error is recorded otherwise. *)
Lemma photo_effect_new env source m device ids d a r photo dl img h :
  photo_id photo ∉ ids →
  pipeline env source photo = inr (dl, img, h) →
  Adb.files a !! remotePath device h img = None →
  let c' := photo_effect env source m device ids (d, a, r) photo in
  Adb.faults c'.1.2 = drop 2 (Adb.faults a) ∧
  if decide (nth 1 (Adb.faults a) Adb.NoFault = Adb.NoFault) then
    c'.1.1 = recordSyncedPhoto m (photo_id photo) (photo_path photo)
               (remotePath device h img) h (image_size img) d ∧
    Adb.files c'.1.2 = <[remotePath device h img := h]> (Adb.files a) ∧
    c'.2 = add_added r
  else
    c'.1.1 = d ∧ Adb.files c'.1.2 = Adb.files a ∧
    ∃ e, c'.2 = push_error e r.
Proof.
  intros Hid Hp Hfile c'. subst c'. unfold photo_effect.
  rewrite bool_decide_eq_false_2 by done. rewrite Hp. cbv zeta.
  rewrite (getFileHash_absent_any _ _ Hfile).
  rewrite bool_decide_eq_false_2 by done.
  destruct (next_fault_faults a) as [_ Hf1].
  pose proof (AdbFacts.next_fault_files a) as Hfs1. cbn [snd] in Hfs1.
  destruct (Adb.next_fault a) as [f0 a1]. cbn [fst snd] in *.
  destruct (next_fault_faults a1) as [Hf2 Hf3].
  pose proof (AdbFacts.next_fault_files a1) as Hfs2. cbn [snd] in Hfs2.
  assert (nth 1 (Adb.faults a) Adb.NoFault = (Adb.next_fault a1).1) as Hnth.
  { rewrite Hf2, Hf1. by destruct (Adb.faults a). }
  assert (drop 2 (Adb.faults a) = Adb.faults (Adb.next_fault a1).2) as Hdrop.
  { rewrite Hf3, Hf1. by rewrite drop_drop. }
  rewrite Hnth, Hdrop. unfold Adb.pushFile.
  destruct (Adb.next_fault a1) as [f a2]. cbn [fst snd] in *.
  destruct f; cbn -[recordSyncedPhoto].
  - rewrite decide_True by done. by rewrite Hfs2, Hfs1.
  - rewrite decide_False by done. split_and!; [done|done|congruence|by eexists].
  - rewrite decide_False by done. split_and!; [done|done|congruence|by eexists].
Qed.

Lemma derivedPath_Some env source device photo P :
  derivedPath env source device photo = Some P →
  ∃ dl img h, pipeline env source photo = inr (dl, img, h) ∧
              P = remotePath device h img.
Proof.
  unfold derivedPath.
  destruct (pipeline env source photo) as [e|[[dl img] h]]; [done|].
  intros [= <-]. by exists dl, img, h.
Qed.

(** The addition pass over photos that are new to the ledger and to the
    device, with pairwise different identifiers and remote paths: the
    photos whose push goes through are recorded, in order, and the others
    leave an error each. *)
Lemma addition_new env source m device ids photos paths d a r :
  NoDup (photo_id <$> photos) →
  Forall (λ p, photo_id p ∉ ids) photos →
  Forall2 (λ p P, derivedPath env source device p = Some P) photos paths →
  NoDup paths →
  Forall (λ P, Adb.files a !! P = None) paths →
  Forall (λ row, synced_id row < next_uuid d) (synced_photos d) →
  (∀ row, row ∈ synced_photos d → mappingId row = m →
          sourcePhotoId row ∉ photo_id <$> photos) →
  let c' := foldl (photo_effect env source m device ids) (d, a, r) photos in
  let ok := pushed photos (Adb.faults a) in
  ∃ news,
    synced_photos c'.1.1 = (synced_photos d ++ news)%list ∧
    sourcePhotoId <$> news = photo_id <$> ok ∧
    Forall (λ row, (mappingId row = m) ∧ (next_uuid d ≤ synced_id row)) news ∧
    photosAdded c'.2 = photosAdded r + length ok ∧
    length (errors c'.2) + length ok = length (errors r) + length photos ∧
    photosSkipped c'.2 = photosSkipped r ∧
    photosRemoved c'.2 = photosRemoved r.
Proof.
  intros Hnd Hids Hpaths. revert d a r Hnd Hids.
  induction Hpaths as [|p P photos paths HP Hrest IH];
    intros d a r Hnd Hids HndP Hfree Hlt Hkeys.
  { exists []. cbn. rewrite app_nil_r. split_and!; simpl; try done; lia. }
  apply derivedPath_Some in HP as (dl & img & h & Hpipe & ->).
  rewrite fmap_cons in Hnd. apply NoDup_cons in Hnd as [Hp Hnd].
  apply Forall_cons in Hids as [Hid Hids].
  apply NoDup_cons in HndP as [HP HndP].
  apply Forall_cons in Hfree as [Hfile Hfree].
  cbn [foldl pushed]. cbv zeta.
  destruct (photo_effect_new env source m device ids d a r p dl img h Hid Hpipe Hfile)
    as [Hfaults Hcase].
  destruct (photo_effect env source m device ids (d, a, r) p) as [[d1 a1] r1].
  cbn [fst snd] in Hfaults, Hcase. rewrite <- Hfaults.
  destruct (decide (nth 1 (Adb.faults a) Adb.NoFault = Adb.NoFault)) as [Hok|Hbad].
  - destruct Hcase as (-> & Hfs & ->).
    set (row := mkSynced (next_uuid d) m (photo_id p) (photo_path p)
                  (remotePath device h img) h (image_size img)).
    destruct (LedgerFacts.recordSyncedPhoto_rows' m (photo_id p) (photo_path p)
                (remotePath device h img) h (image_size img) d) as [Er En].
    fold row in Er.
    rewrite LedgerFacts.insert_or_replace_fresh in Er.
    2:{ apply Forall_forall. intros old Hold [Hc|[Hc1 Hc2]].
        - rewrite Forall_forall in Hlt. specialize (Hlt old Hold).
          simpl in Hlt, Hc. lia.
        - simpl in Hc1, Hc2. apply (Hkeys old Hold Hc1). rewrite Hc2, fmap_cons. left. }
    destruct (IH (recordSyncedPhoto m (photo_id p) (photo_path p)
                    (remotePath device h img) h (image_size img) d) a1 (add_added r))
      as (news & H1 & H2 & H3 & H4 & H5 & H6 & H7); try done.
    + rewrite Hfs. apply Forall_forall. intros Q HQ.
      rewrite Forall_forall in Hfree.
      rewrite lookup_insert_ne; [by apply Hfree|]. by intros <-.
    + rewrite Er, En. apply Forall_app. split.
      * eapply Forall_impl; [exact Hlt|]. intros ? ?. simpl in *. lia.
      * constructor; [simpl; lia|constructor].
    + intros old Hold Hm. rewrite Er in Hold.
      apply elem_of_app in Hold as [Hold|Hold%list_elem_of_singleton].
      * specialize (Hkeys old Hold Hm). rewrite fmap_cons in Hkeys.
        by apply not_elem_of_cons in Hkeys as [_ ?].
      * by subst old.
    + exists (row :: news). split_and!.
      * rewrite H1, Er. by rewrite <- app_assoc.
      * rewrite fmap_cons, H2. done.
      * constructor; [simpl; split; [done|lia]|].
        eapply Forall_impl; [exact H3|]. intros ? [? ?]. split; [done|].
        rewrite En in *. lia.
      * rewrite H4. simpl. lia.
      * rewrite length_app. simpl in *. lia.
      * done.
      * done.
  - destruct Hcase as (-> & Hfs & e & ->).
    destruct (IH d a1 (push_error e r)) as (news & H1 & H2 & H3 & H4 & H5 & H6 & H7);
      try done.
    + by rewrite Hfs.
    + intros old Hold Hm. specialize (Hkeys old Hold Hm). rewrite fmap_cons in Hkeys.
      by apply not_elem_of_cons in Hkeys as [_ ?].
    + exists news. split_and!; try done.
      simpl in *. rewrite length_app in H5. simpl in *. lia.
Qed.

Lemma nth_drop {A} (l : list A) n j x : nth j (drop n l) x = nth (n + j) l x.
Proof. by rewrite !nth_lookup, lookup_drop. Qed.

Lemma pushed_subset photos fs p : p ∈ pushed photos fs → p ∈ photos.
Proof.
  revert fs. induction photos as [|q photos IH]; intros fs; cbn [pushed]; [done|].
  intros [Hp|Hp]%elem_of_app.
  - destruct (decide _); [|by apply elem_of_nil in Hp].
    apply list_elem_of_singleton in Hp as ->. left.
  - right. by eapply IH.
Qed.

(** Over a connection that never fails every push goes through. *)
Lemma pushed_all photos fs :
  (∀ j, nth j fs Adb.NoFault = Adb.NoFault) → pushed photos fs = photos.
Proof.
  revert fs. induction photos as [|q photos IH]; intros fs Hfs; cbn [pushed]; [done|].
  rewrite decide_True by apply Hfs. rewrite IH; [done|].
  intros j. rewrite nth_drop. apply Hfs.
Qed.

(** When the connection fails at the push of the [k]-th photo and at no
    other call, all photos but that one are pushed. *)
Lemma pushed_all_but photos fs k :
  k < length photos →
  (∀ j, nth j fs Adb.NoFault ≠ Adb.NoFault ↔ j = 2 * k + 1) →
  pushed photos fs = (take k photos ++ drop (S k) photos)%list.
Proof.
  revert fs k. induction photos as [|q photos IH]; intros fs k Hk Hfs.
  { simpl in Hk. lia. }
  cbn [pushed]. destruct k as [|k].
  - rewrite decide_False by (by apply Hfs). simpl. rewrite drop_0.
    apply pushed_all. intros j. rewrite nth_drop.
    destruct (decide (nth (2 + j) fs Adb.NoFault = Adb.NoFault)) as [|Hj]; [done|].
    apply Hfs in Hj. lia.
  - rewrite decide_True.
    2:{ destruct (decide (nth 1 fs Adb.NoFault = Adb.NoFault)) as [|Hj]; [done|].
        apply Hfs in Hj. lia. }
    simpl. f_equal. apply IH; [simpl in Hk; lia|].
    intros j. rewrite nth_drop, Hfs. lia.
Qed.

End AdditionFacts.

(** ** A connection that never fails *)

Module MirrorLive.

Lemma live_next dev :
  Adb.live dev →
  ∃ dev1, Adb.next_fault dev = (Adb.NoFault, dev1) ∧ Adb.live dev1 ∧
          Adb.files dev1 = Adb.files dev.
Proof.
  intros Hl. destruct (AdbFacts.next_fault_live dev Hl) as [Hf Hl1].
  pose proof (AdbFacts.next_fault_files dev) as Hfs.
  destruct (Adb.next_fault dev) as [f dev1]. cbn [fst snd] in *. subst f.
  by exists dev1.
Qed.

End MirrorLive.

(** ** Runs over photos that are new *)

Module RunFacts.
Import Engine Scenes.

Lemma passes_fold env source m mapping device synced photos c :
  passes env source m mapping device synced photos c =
  foldl remove_effect
    (foldl (photo_effect env source m device
              (list_to_set (sourcePhotoId <$> synced))) c photos)
    (match syncMode mapping with
     | mirror => toRemove synced photos
     | add_only => []
     end).
Proof. unfold passes. by destruct (syncMode mapping). Qed.

Lemma sound_next dev :
  Adb.fault_at dev 0 = Adb.NoFault →
  ∃ dev1, Adb.next_fault dev = (Adb.NoFault, dev1) ∧
          Adb.faults dev1 = drop 1 (Adb.faults dev) ∧
          Adb.files dev1 = Adb.files dev.
Proof.
  intros Hf. destruct (AdditionFacts.next_fault_faults dev) as [H1 H2].
  pose proof (AdbFacts.next_fault_files dev) as Hfs.
  destruct (Adb.next_fault dev) as [f dev1]. cbn [fst snd] in *.
  exists dev1. split_and!; [|done..]. f_equal. by rewrite H1.
Qed.

Lemma filter_commute {A} (P Q : A → Prop) `{∀ x, Decision (P x)}
    `{∀ x, Decision (Q x)} (l : list A) :
  filter P (filter Q l) = filter Q (filter P l).
Proof. rewrite !list_filter_filter. apply list_filter_iff. tauto. Qed.

(** A run over photos that are new to the ledger and to the device, with
    pairwise different identifiers and remote paths: what the ledger and
    the result are afterwards. *)
Lemma run_new env m d dev files mapping source device sourcePhotos paths :
  resolves env d m mapping source device sourcePhotos →
  ledger_wf d →
  Adb.fault_at dev 0 = Adb.NoFault →
  let photos := photosToSync mapping sourcePhotos in
  NoDup (photo_id <$> photos) →
  Forall (λ p, photo_id p ∉ ledgerIds d m) photos →
  Forall2 (λ p P, derivedPath env source device p = Some P) photos paths →
  NoDup paths →
  Forall (λ P, Adb.files dev !! P = None) paths →
  let s := executeSync env m d dev files in
  let ok := pushed photos (drop 1 (Adb.faults dev)) in
  let removed := match syncMode mapping with
                 | mirror => toRemove (getSyncedPhotos d m) photos
                 | add_only => []
                 end in
  ∃ news,
    getSyncedPhotos (db s) m =
      (filter (λ x, synced_id x ∉ synced_id <$> removed) (getSyncedPhotos d m)
         ++ news)%list ∧
    sourcePhotoId <$> news = photo_id <$> ok ∧
    photosAdded (result s) = length ok ∧
    length (errors (result s)) + length ok = length photos ∧
    photosSkipped (result s) = 0.
Proof.
  intros Hres Hwf Hf photos Hnd Hnew Hpaths HndP Hfree s ok removed.
  destruct (sound_next dev Hf) as (dev1 & Hnf & Hfaults & Hfs).
  destruct (EngineSteps.executeSync_run env m d dev dev1 files mapping source
              device sourcePhotos Hres Hnf) as (Hrows & _ & _ & Hres2).
  fold s photos in Hrows, Hres2. rewrite passes_fold in Hrows, Hres2.
  fold removed in Hrows, Hres2.
  set (d1 := logSync m "sync_start" "in_progress" "Sync started" d) in *.
  set (ids := list_to_set (sourcePhotoId <$> getSyncedPhotos d m) : gset string) in *.
  destruct Hwf as [Hwf1 Hwf2].
  destruct (AdditionFacts.addition_new env source m device ids photos paths
              d1 dev1 (emptyResult m)) as (news & H1 & H2 & H3 & H4 & H5 & H6 & H7).
  { done. }
  { eapply Forall_impl; [exact Hnew|]. intros p Hp.
    unfold ids. by apply not_elem_of_list_to_set. }
  { done. }
  { done. }
  { by rewrite Hfs. }
  { eapply Forall_impl; [exact Hwf2|]. intros row ?. simpl in *. lia. }
  { intros row Hrow Hm (p & Hp & Hpin)%list_elem_of_fmap.
    rewrite Forall_forall in Hnew. apply (Hnew p Hpin).
    rewrite <- Hp. apply list_elem_of_fmap. exists row. split; [done|].
    by apply list_elem_of_filter. }
  rewrite Hfaults in H2, H4, H5. fold ok in H2, H4, H5.
  destruct (foldl (photo_effect env source m device ids) (d1, dev1, emptyResult m)
              photos) as [[d2 a2] r2]. cbn [fst snd] in *.
  destruct (LedgerFacts.removal_fold removed d2 a2 r2) as (Hrem & _ & Hr).
  cbv zeta in Hrem, Hr. rewrite Hrem in Hrows. rewrite Hr in Hres2.
  destruct (LedgerFacts.iter_add_removed (length removed) r2) as (_ & Ha & Hs & He).
  exists news. split_and!.
  - unfold getSyncedPhotos at 1. rewrite Hrows, H1.
    change (synced_photos d1) with (synced_photos d).
    rewrite !filter_app. f_equal.
    + unfold getSyncedPhotos. apply filter_commute.
    + rewrite (LedgerFacts.filter_all _ news).
      * apply LedgerFacts.filter_all. eapply Forall_impl; [exact H3|].
        by intros row [? ?].
      * apply Forall_forall. intros row Hrow (z & Hz & Hzin)%list_elem_of_fmap.
        rewrite Forall_forall in H3. destruct (H3 row Hrow) as [_ Hge].
        assert (z ∈ synced_photos d) as Hzd.
        { subst removed. destruct (syncMode mapping); [|by apply elem_of_nil in Hzin].
          apply list_elem_of_filter in Hzin as [_ Hzin].
          by apply list_elem_of_filter in Hzin as [_ Hzin]. }
        rewrite Forall_forall in Hwf2. specialize (Hwf2 z Hzd).
        simpl in Hge. lia.
  - done.
  - rewrite Hres2. simpl. rewrite Ha, H4. done.
  - rewrite Hres2. simpl. rewrite He. simpl in H5. lia.
  - rewrite Hres2. simpl. by rewrite Hs, H6.
Qed.

Lemma filter_kept_news {A} (P : A → Prop) `{∀ x, Decision (P x)}
    (kept news : list A) :
  Forall (λ x, ¬ P x) kept → Forall P news →
  filter P (kept ++ news)%list = news.
Proof.
  intros Hk Hn. rewrite filter_app, (LedgerFacts.filter_all P news Hn).
  induction Hk as [|x kept Hx Hk IH]; [done|].
  by rewrite filter_cons_False.
Qed.

(** C6.  Of [M] photos that are new to the ledger and to the device (with
    pairwise different identifiers and remote paths, each downloaded and
    processed without error, the remote paths being paths the device's
    shell takes literally between double quotes), the push of the [k]-th
    fails, the connection being sound at every other call.  The run goes
    on after the failure:
    it adds [M - 1] photos, reports exactly one error, and the ledger
    holds an entry for each of the photos but the [k]-th.  Transport
    calls are numbered in the order the run makes them: call [0] creates
    the remote directory, calls [2 * i + 1] and [2 * i + 2] are the hash
    query and the push of photo [i]. *)
Theorem failed_push_is_isolated env m d dev files mapping source device
    sourcePhotos paths (k : nat) :
  resolves env d m mapping source device sourcePhotos →
  ledger_wf d →
  let photos := photosToSync mapping sourcePhotos in
  NoDup (photo_id <$> photos) →
  Forall (λ p, photo_id p ∉ ledgerIds d m) photos →
  Forall2 (λ p P, derivedPath env source device p = Some P) photos paths →
  NoDup paths →
  Forall (λ P, Adb.literal P = true) paths →
  Forall (λ P, Adb.files dev !! P = None) paths →
  k < length photos →
  (∀ i, Adb.fault_at dev i ≠ Adb.NoFault ↔ i = 2 * k + 2) →
  let s := executeSync env m d dev files in
  photosAdded (result s) = length photos - 1 ∧
  length (errors (result s)) = 1 ∧
  sourcePhotoId <$> filter (λ row, sourcePhotoId row ∈ photo_id <$> photos)
                      (getSyncedPhotos (db s) m)
    = photo_id <$> (take k photos ++ drop (S k) photos)%list.
Proof.
  intros Hres Hwf photos Hnd Hnew Hpaths HndP _ Hfree Hk Hfault s.
  assert (Adb.fault_at dev 0 = Adb.NoFault) as Hf0.
  { destruct (decide (Adb.fault_at dev 0 = Adb.NoFault)) as [|Hne]; [done|].
    apply Hfault in Hne. lia. }
  destruct (run_new env m d dev files mapping source device sourcePhotos paths
              Hres Hwf Hf0 Hnd Hnew Hpaths HndP Hfree)
    as (news & Hrows & Hnews & Ha & He & _).
  fold s photos in Hrows, Hnews, Ha, He.
  assert (pushed photos (drop 1 (Adb.faults dev))
          = (take k photos ++ drop (S k) photos)%list) as Hok.
  { apply AdditionFacts.pushed_all_but; [done|].
    intros j. rewrite AdditionFacts.nth_drop.
    change (nth (1 + j) (Adb.faults dev) Adb.NoFault) with (Adb.fault_at dev (1 + j)).
    rewrite Hfault. lia. }
  rewrite Hok in Hnews, Ha, He.
  rewrite length_app, length_take, length_drop in Ha, He.
  split_and!; [lia|lia|].
  rewrite Hrows, filter_kept_news; [done| |].
  - apply Forall_forall. intros row [_ Hrow]%list_elem_of_filter.
    intros (p & Hp & Hpin)%list_elem_of_fmap.
    rewrite Forall_forall in Hnew. apply (Hnew p Hpin). rewrite <- Hp.
    apply list_elem_of_fmap. by exists row.
  - apply Forall_forall. intros row Hrow.
    assert (sourcePhotoId row ∈ sourcePhotoId <$> news) as Hin
      by (apply list_elem_of_fmap; by exists row).
    rewrite Hnews in Hin. apply list_elem_of_fmap in Hin as (p & -> & Hp).
    apply list_elem_of_fmap. exists p. split; [done|].
    apply elem_of_app in Hp as [Hp|Hp].
    + by eapply subseteq_take.
    + by eapply subseteq_drop.
Qed.

Lemma failed_push_is_isolated_witness :
  let dev := Adb.mkDevice ∅ [Adb.NoFault; Adb.NoFault; Adb.NoFault;
                              Adb.NoFault; Adb.ConnectionFault] in
  let s := executeSync (env [a_jpg; b_jpg; c_jpg]) 1
             (database add_only None []) dev ∅ in
  photosAdded (result s) = 2 ∧
  length (errors (result s)) = 1 ∧
  sourcePhotoId <$> filter (λ row, sourcePhotoId row ∈
                              photo_id <$> [a_jpg; b_jpg; c_jpg])
                      (getSyncedPhotos (db s) 1)
    = [photo_id a_jpg; photo_id c_jpg].
Proof.
  intros dev.
  apply (failed_push_is_isolated (env [a_jpg; b_jpg; c_jpg]) 1
           (database add_only None []) dev ∅ (the_mapping add_only None)
           (folder [a_jpg; b_jpg; c_jpg]) frame [a_jpg; b_jpg; c_jpg]
           [remoteA; remoteB; remoteC] 1).
  - exists (mkSource 2 "local_folder" None). by vm_compute.
  - split; by_compute.
  - by_compute.
  - by_compute.
  - repeat constructor.
  - by_compute.
  - by_compute.
  - by_compute.
  - vm_compute. lia.
  - intros i.
    do 5 (destruct i as [|i]; [vm_compute; split; intros; (lia || congruence)|]).
    destruct i; vm_compute; split; intros; (lia || congruence).
Defined.

Lemma photosToSync_cap mapping sourcePhotos (N : nat) :
  maxPhotos mapping = Some (Z.of_nat N) → 0 < N →
  photosToSync mapping sourcePhotos = take N sourcePhotos.
Proof.
  intros Hcap HN. unfold photosToSync, slice0. rewrite Hcap.
  destruct (Z.eqb_spec (Z.of_nat N) 0) as [E|_]; [lia|].
  destruct (Z.ltb_spec (Z.of_nat N) 0) as [E|_]; [lia|].
  by rewrite Nat2Z.id.
Qed.

(** C8, counterexample.  The cap is 2 and the folder lists three photos,
    the first two holding the same picture.  On a fresh frame the run
    succeeds, and the ledger holds one entry, not two: the second photo is
    found on the device by its hash and is not recorded. *)
Lemma max_photos_counterexample :
  let s := executeSync (env [a_jpg; a_copy_jpg; b_jpg]) 1
             (database add_only (Some 2%Z) []) empty_frame ∅ in
  success (result s) = true ∧
  sourcePhotoId <$> getSyncedPhotos (db s) 1 = [photo_id a_jpg].
Proof. vm_compute. done. Qed.

(** C8, as amended.  With [maxPhotos = N], [N] at least 1, and a source
    that returns more than [N] photos, the run considers the first [N]
    photos in the order of the source.  On a fresh frame (no file on the
    device, no ledger entry of the mapping) and over a sound connection,
    when those photos are downloaded and processed without error and have
    pairwise different identifiers and remote paths, the ledger holds
    exactly [N] entries afterwards, those of the first [N] photos in
    order. *)
Theorem max_photos_first_n env m d dev files mapping source device
    sourcePhotos paths (N : nat) :
  resolves env d m mapping source device sourcePhotos →
  ledger_wf d →
  Adb.live dev →
  maxPhotos mapping = Some (Z.of_nat N) →
  0 < N < length sourcePhotos →
  Adb.files dev = ∅ →
  getSyncedPhotos d m = [] →
  NoDup (photo_id <$> take N sourcePhotos) →
  Forall2 (λ p P, derivedPath env source device p = Some P)
          (take N sourcePhotos) paths →
  NoDup paths →
  let s := executeSync env m d dev files in
  photosToSync mapping sourcePhotos = take N sourcePhotos ∧
  sourcePhotoId <$> getSyncedPhotos (db s) m = photo_id <$> take N sourcePhotos ∧
  length (getSyncedPhotos (db s) m) = N ∧
  photosAdded (result s) = N ∧
  errors (result s) = [].
Proof.
  intros Hres Hwf Hlive Hcap [HN HM] Hempty Hfresh Hnd Hpaths HndP s.
  pose proof (photosToSync_cap mapping sourcePhotos N Hcap HN) as Hphotos.
  pose proof (proj1 (AdbFacts.live_fault_at dev) Hlive) as Hsound.
  destruct (run_new env m d dev files mapping source device sourcePhotos paths
              Hres Hwf (Hsound 0)) as (news & Hrows & Hnews & Ha & He & _).
  { by rewrite Hphotos. }
  { rewrite Hphotos. unfold ledgerIds. rewrite Hfresh.
    apply Forall_forall. intros p _. apply not_elem_of_nil. }
  { by rewrite Hphotos. }
  { done. }
  { apply Forall_forall. intros P _. by rewrite Hempty, lookup_empty. }
  fold s in Hrows, Hnews, Ha, He. rewrite Hphotos in Hnews, Ha, He.
  assert (pushed (take N sourcePhotos) (drop 1 (Adb.faults dev))
          = take N sourcePhotos) as Hok.
  { apply AdditionFacts.pushed_all. intros j. rewrite AdditionFacts.nth_drop.
    apply (Hsound (1 + j)). }
  rewrite Hok in Hnews, Ha, He.
  rewrite Hfresh in Hrows. simpl in Hrows. rewrite Hrows.
  rewrite length_take in Ha, He.
  split_and!.
  - done.
  - done.
  - rewrite <- (length_fmap sourcePhotoId), Hnews, length_fmap, length_take. lia.
  - lia.
  - destruct (errors (result s)); [done|]. simpl in He. lia.
Qed.

Lemma max_photos_first_n_witness :
  let s := executeSync (env [a_jpg; b_jpg; c_jpg]) 1
             (database add_only (Some 2%Z) []) empty_frame ∅ in
  photosToSync (the_mapping add_only (Some 2%Z)) [a_jpg; b_jpg; c_jpg]
    = [a_jpg; b_jpg] ∧
  sourcePhotoId <$> getSyncedPhotos (db s) 1 = [photo_id a_jpg; photo_id b_jpg] ∧
  length (getSyncedPhotos (db s) 1) = 2 ∧
  photosAdded (result s) = 2 ∧
  errors (result s) = [].
Proof.
  apply (max_photos_first_n (env [a_jpg; b_jpg; c_jpg]) 1
           (database add_only (Some 2%Z) []) empty_frame ∅
           (the_mapping add_only (Some 2%Z)) (folder [a_jpg; b_jpg; c_jpg])
           frame [a_jpg; b_jpg; c_jpg] [remoteA; remoteB] 2).
  - exists (mkSource 2 "local_folder" None). by vm_compute.
  - split; by_compute.
  - constructor.
  - reflexivity.
  - vm_compute. lia.
  - reflexivity.
  - reflexivity.
  - by_compute.
  - repeat constructor.
  - by_compute.
Defined.

(** An iteration for a photo whose file is on the device already. *)
Lemma processPhoto_present env source m device ids photo s dl img h a1 :
  photo_id photo ∉ ids →
  pipeline env source photo = inr (dl, img, h) →
  Adb.getFileHash (adb s) (remotePath device h img) = (inr (Some h), a1) →
  ∃ s', processPhoto env source m device ids photo s = (inr tt, s') ∧
        db s' = db s ∧
        Adb.files (adb s') = Adb.files (adb s) ∧
        result s' = add_skipped (result s).
Proof.
  intros Hid Hp Hg.
  destruct (EngineSteps.processPhoto_effect env source m device ids photo s)
    as (s' & E & Hc).
  exists s'. split; [done|]. unfold core in Hc.
  rewrite (AdditionFacts.photo_effect_present _ _ _ _ _ _ _ _ _ _ _ _ _ Hid Hp Hg) in Hc.
  injection Hc as -> -> ->. split_and!; [done| |done].
  pose proof (AdbFacts.getFileHash_files (adb s) (remotePath device h img)) as Hfs.
  by rewrite Hg in Hfs.
Qed.

(** A run over two photos with the same processed bytes, on a fresh frame. *)
Lemma run_twins env m d dev files mapping source device p q dl dl' img img' h :
  resolves env d m mapping source device [p; q] →
  maxPhotos mapping = None →
  Adb.live dev →
  Adb.files dev = ∅ →
  getSyncedPhotos d m = [] →
  pipeline env source p = inr (dl, img, h) →
  pipeline env source q = inr (dl', img', h) →
  image_format img' = image_format img →
  Adb.hex_digest h = true →
  Adb.literal (remotePath device h img) = true →
  Js.includes "No such file" (remotePath device h img) = false →
  let s := executeSync env m d dev files in
  Adb.files (adb s) = {[ remotePath device h img := h ]} ∧
  sourcePhotoId <$> getSyncedPhotos (db s) m = [photo_id p] ∧
  photosAdded (result s) = 1 ∧
  photosSkipped (result s) = 1 ∧
  errors (result s) = [].
Proof.
  intros Hres Hcap Hlive Hempty Hfresh Hp Hq Hfmt Hhex Hlit Hinc s.
  destruct (MirrorLive.live_next dev Hlive) as (dev1 & Hnf & Hl1 & Hfs1).
  destruct (EngineSteps.executeSync_run env m d dev dev1 files mapping source
              device [p; q] Hres Hnf) as (Hrows & Hadb & _ & Hres2).
  fold s in Hrows, Hadb, Hres2. rewrite passes_fold in Hrows, Hadb, Hres2.
  assert (photosToSync mapping [p; q] = [p; q]) as Hphotos
    by (unfold photosToSync; by rewrite Hcap).
  rewrite Hphotos, Hfresh in Hrows, Hadb, Hres2.
  assert (match syncMode mapping with
          | mirror => toRemove [] [p; q]
          | add_only => []
          end = []) as Hrem by (by destruct (syncMode mapping)).
  rewrite Hrem in Hrows, Hadb, Hres2. cbn [foldl fmap list_fmap] in Hrows, Hadb, Hres2.
  set (d1 := logSync m "sync_start" "in_progress" "Sync started" d) in *.
  set (ids := list_to_set [] : gset string) in *.
  assert (∀ x, x ∉ ids) as Hids by (intros x; apply not_elem_of_empty).
  pose proof (proj1 (AdbFacts.live_fault_at dev1) Hl1) as Hsound.
  (* the first photo is pushed and recorded *)
  destruct (AdditionFacts.photo_effect_new env source m device ids d1 dev1
              (emptyResult m) p dl img h (Hids _) Hp) as [_ Hstep1].
  { by rewrite Hfs1, Hempty, lookup_empty. }
  rewrite decide_True in Hstep1 by apply (Hsound 1).
  pose proof (AdditionFacts.photo_effect_live env source m device ids d1 dev1
                (emptyResult m) p Hl1) as Hl2.
  destruct (photo_effect env source m device ids (d1, dev1, emptyResult m) p)
    as [[d2 a2] r2]. cbn [fst snd] in Hstep1, Hl2.
  destruct Hstep1 as (-> & Hfs2 & ->).
  (* the second is found on the device *)
  assert (remotePath device h img' = remotePath device h img) as Hpath
    by (unfold remotePath; by rewrite Hfmt).
  destruct (AdditionFacts.getFileHash_live a2 (remotePath device h img) Hl2)
    as (Hg & _ & Hfs3).
  rewrite (AdbFacts.found_literal _ _ Hlit), Hfs2, lookup_insert_eq,
    AdbFacts.probe_hex in Hg by done.
  rewrite <- Hpath in Hg at 1.
  rewrite (AdditionFacts.photo_effect_present _ _ _ _ _ _ _ _ _ _ _ _ _
             (Hids _) Hq Hg) in Hrows, Hadb, Hres2.
  cbn [fst snd] in Hrows, Hadb, Hres2.
  split_and!.
  - rewrite Hadb, Hfs3, Hfs2, Hfs1, Hempty. done.
  - unfold getSyncedPhotos. rewrite Hrows.
    destruct (LedgerFacts.recordSyncedPhoto_rows' m (photo_id p) (photo_path p)
                (remotePath device h img) h (image_size img) d1) as [-> _].
    unfold insert_or_replace. rewrite filter_app, filter_commute.
    change (synced_photos d1) with (synced_photos d).
    unfold getSyncedPhotos in Hfresh. rewrite Hfresh.
    rewrite filter_cons_True by done. done.
  - by rewrite Hres2.
  - by rewrite Hres2.
  - by rewrite Hres2.
Qed.

(** C2, counterexample.  [a.jpg] and [a-copy.jpg] hold the same picture.
    After a run on a fresh frame there is one remote file and one ledger
    entry, that of [a.jpg]: the second photo is skipped by its hash and no
    entry is recorded for it. *)
Lemma twin_photos_counterexample :
  let s := executeSync (env [a_jpg; a_copy_jpg]) 1
             (database add_only None []) empty_frame ∅ in
  map_to_list (Adb.files (adb s)) = [(remoteA, digestA)] ∧
  sourcePhotoId <$> getSyncedPhotos (db s) 1 = [photo_id a_jpg] ∧
  photosSkipped (result s) = 1.
Proof. vm_compute. repeat split; reflexivity. Qed.

(** C2, as amended.  For a photo that is not in the ledger and for whose
    derived path the hash query answers the processed hash, the iteration
    counts a skip, transfers nothing and records no ledger entry.
    Consequently two photos with the same processed bytes end a run on a
    fresh frame, over a sound connection, with one remote file and one
    ledger entry, that of the first of the two; the digest is hexadecimal
    and the derived path is one the device's shell takes literally
    between double quotes and holds no "No such file". *)
Theorem hash_match_skips_unrecorded :
  (∀ env source m device ids photo s dl img h a1,
     photo_id photo ∉ ids →
     pipeline env source photo = inr (dl, img, h) →
     Adb.getFileHash (adb s) (remotePath device h img) = (inr (Some h), a1) →
     ∃ s', processPhoto env source m device ids photo s = (inr tt, s') ∧
           db s' = db s ∧
           Adb.files (adb s') = Adb.files (adb s) ∧
           result s' = add_skipped (result s)) ∧
  (∀ env m d dev files mapping source device p q dl dl' img img' h,
     resolves env d m mapping source device [p; q] →
     maxPhotos mapping = None →
     Adb.live dev →
     Adb.files dev = ∅ →
     getSyncedPhotos d m = [] →
     pipeline env source p = inr (dl, img, h) →
     pipeline env source q = inr (dl', img', h) →
     image_format img' = image_format img →
     Adb.hex_digest h = true →
     Adb.literal (remotePath device h img) = true →
     Js.includes "No such file" (remotePath device h img) = false →
     let s := executeSync env m d dev files in
     Adb.files (adb s) = {[ remotePath device h img := h ]} ∧
     sourcePhotoId <$> getSyncedPhotos (db s) m = [photo_id p] ∧
     photosAdded (result s) = 1 ∧
     photosSkipped (result s) = 1 ∧
     errors (result s) = []).
Proof.
  split.
  - intros. by eapply processPhoto_present.
  - intros. by eapply run_twins.
Qed.

Lemma hash_match_skips_unrecorded_witness :
  let holding := Adb.mkDevice {[ remoteA := digestA ]} [] in
  let st := mkState (database add_only None []) holding ∅ (emptyResult 1) in
  let s := executeSync (env [a_jpg; a_copy_jpg]) 1
             (database add_only None []) empty_frame ∅ in
  (∃ s', processPhoto (env [a_copy_jpg]) (folder [a_copy_jpg]) 1 frame ∅
           a_copy_jpg st = (inr tt, s') ∧
         db s' = db st ∧
         Adb.files (adb s') = Adb.files (adb st) ∧
         result s' = add_skipped (result st)) ∧
  (Adb.files (adb s) = {[ remoteA := digestA ]} ∧
   sourcePhotoId <$> getSyncedPhotos (db s) 1 = [photo_id a_jpg] ∧
   photosAdded (result s) = 1 ∧
   photosSkipped (result s) = 1 ∧
   errors (result s) = []).
Proof.
  intros holding st. split.
  - apply (proj1 hash_match_skips_unrecorded (env [a_copy_jpg])
             (folder [a_copy_jpg]) 1 frame ∅ a_copy_jpg st
             "/photos/temp/1/a-copy.jpg"
             (mkProcessed "/photos/temp/1/a-copy.jpg.jpeg" 2048 "jpeg")
             digestA holding).
    + by_compute.
    + vm_compute; reflexivity.
    + vm_compute; reflexivity.
  - apply (proj2 hash_match_skips_unrecorded (env [a_jpg; a_copy_jpg]) 1
             (database add_only None []) empty_frame ∅
             (the_mapping add_only None) (folder [a_jpg; a_copy_jpg]) frame
             a_jpg a_copy_jpg
             "/photos/temp/1/a.jpg" "/photos/temp/1/a-copy.jpg"
             (mkProcessed "/photos/temp/1/a.jpg.jpeg" 2048 "jpeg")
             (mkProcessed "/photos/temp/1/a-copy.jpg.jpeg" 2048 "jpeg")
             digestA).
    + exists (mkSource 2 "local_folder" None). by vm_compute.
    + reflexivity.
    + constructor.
    + reflexivity.
    + reflexivity.
    + vm_compute; reflexivity.
    + vm_compute; reflexivity.
    + reflexivity.
    + vm_compute; reflexivity.
    + vm_compute; reflexivity.
    + vm_compute; reflexivity.
Defined.

(** *** The temp directory *)

(** An iteration that throws leaves its download in the temp directory:
    the clean-up at the end of the iteration is not reached. *)
Example failed_iteration_leaves_download :
  let st := mkState (database add_only None []) empty_frame ∅ (emptyResult 1) in
  ∃ s', processPhoto (env [broken_jpg]) (folder [broken_jpg]) 1 frame ∅
          broken_jpg st = (inr tt, s') ∧
        length (errors (result s')) = 1 ∧
        tmp s' !! "/photos/temp/1/broken.jpg" = Some "broken.jpg".
Proof. eexists. vm_compute. repeat split; reflexivity. Qed.



(** *** The cap *)

(** C10, counterexample.  A negative [maxPhotos] is truthy as well: the
    truncation branch is taken and [slice(0, -1)] drops the last photo. *)
Lemma negative_cap_counterexample :
  photosToSync (the_mapping add_only (Some (-1)%Z)) [a_jpg; b_jpg; c_jpg]
    = [a_jpg; b_jpg].
Proof. reflexivity. Qed.

(** C10, as amended.  A mapping whose [maxPhotos] is 0 has no cap: the run
    goes through every photo the source returns, each of them added,
    skipped or reported by an error.  The truncation branch is taken for
    every other number: a positive [n] keeps the first [n] photos, a
    negative [n] drops the last [-n]. *)
Theorem zero_cap_is_no_cap env m d dev files mapping source device sourcePhotos :
  resolves env d m mapping source device sourcePhotos →
  Adb.fault_at dev 0 = Adb.NoFault →
  let s := executeSync env m d dev files in
  (maxPhotos mapping = Some 0%Z →
     photosToSync mapping sourcePhotos = sourcePhotos ∧
     photosAdded (result s) + photosSkipped (result s)
       + length (errors (result s)) = length sourcePhotos) ∧
  (∀ n, maxPhotos mapping = Some n → (0 < n)%Z →
     photosToSync mapping sourcePhotos = take (Z.to_nat n) sourcePhotos) ∧
  (∀ n, maxPhotos mapping = Some n → (n < 0)%Z →
     photosToSync mapping sourcePhotos =
       take (length sourcePhotos - Z.to_nat (- n)) sourcePhotos).
Proof.
  intros Hres Hf s. split_and!.
  - intros Hcap.
    assert (photosToSync mapping sourcePhotos = sourcePhotos) as Hall
      by (unfold photosToSync; by rewrite Hcap).
    split; [done|].
    destruct (sound_next dev Hf) as (dev1 & Hnf & _ & _).
    destruct (EngineSteps.executeSync_run env m d dev dev1 files mapping source
                device sourcePhotos Hres Hnf) as (_ & _ & _ & Hr).
    fold s in Hr. rewrite Hr, passes_fold, Hall. clear Hr.
    set (ids := list_to_set _ : gset string).
    destruct (AdditionFacts.addition_counts env source m device ids sourcePhotos
                (logSync m "sync_start" "in_progress" "Sync started" d, dev1,
                 emptyResult m)) as (Hcount & _ & _).
    cbv zeta in Hcount.
    destruct (foldl (photo_effect env source m device ids) _ sourcePhotos)
      as [[d2 a2] r2]. cbn [fst snd] in Hcount.
    destruct (LedgerFacts.removal_fold
                (match syncMode mapping with
                 | mirror => toRemove (getSyncedPhotos d m) sourcePhotos
                 | add_only => []
                 end) d2 a2 r2) as (_ & _ & ->).
    destruct (LedgerFacts.iter_add_removed
                (length (match syncMode mapping with
                         | mirror => toRemove (getSyncedPhotos d m) sourcePhotos
                         | add_only => []
                         end)) r2) as (_ & Ha & Hs & He).
    simpl. rewrite Ha, Hs, He. simpl in Hcount. lia.
  - intros n Hcap Hn. unfold photosToSync, slice0. rewrite Hcap.
    destruct (Z.eqb_spec n 0) as [E|_]; [lia|].
    by destruct (Z.ltb_spec n 0) as [E|_]; [lia|].
  - intros n Hcap Hn. unfold photosToSync, slice0. rewrite Hcap.
    destruct (Z.eqb_spec n 0) as [E|_]; [lia|].
    destruct (Z.ltb_spec n 0) as [_|E]; [|lia].
    f_equal. lia.
Qed.

Lemma zero_cap_is_no_cap_witness :
  let s := executeSync (env [a_jpg; b_jpg; c_jpg]) 1
             (database add_only (Some 0%Z) []) empty_frame ∅ in
  photosToSync (the_mapping add_only (Some 0%Z)) [a_jpg; b_jpg; c_jpg]
    = [a_jpg; b_jpg; c_jpg] ∧
  photosAdded (result s) + photosSkipped (result s)
    + length (errors (result s)) = 3.
Proof.
  apply (zero_cap_is_no_cap (env [a_jpg; b_jpg; c_jpg]) 1
           (database add_only (Some 0%Z) []) empty_frame ∅
           (the_mapping add_only (Some 0%Z)) (folder [a_jpg; b_jpg; c_jpg])
           frame [a_jpg; b_jpg; c_jpg]).
  - exists (mkSource 2 "local_folder" None). by vm_compute.
  - reflexivity.
  - reflexivity.
Defined.

End RunFacts.

(** ** Mirror mode *)

Module MirrorFacts.
Import Engine Scenes.

Lemma NoDup_fmap_eq {A B} (f : A → B) (l : list A) x y :
  NoDup (f <$> l) → x ∈ l → y ∈ l → f x = f y → x = y.
Proof.
  induction l as [|z l IH]; [by intros _ ?%elem_of_nil|].
  rewrite fmap_cons, NoDup_cons. intros [Hz Hl].
  rewrite !elem_of_cons. intros [->|Hx] [->|Hy] Hf; auto.
  - exfalso. apply Hz. rewrite Hf. apply list_elem_of_fmap. eauto.
  - exfalso. apply Hz. rewrite <- Hf. apply list_elem_of_fmap. eauto.
Qed.

(** The ledger a run starts from, seen from its addition pass. *)
Lemma start_grown m d :
  ledger_wf d →
  let d1 := logSync m "sync_start" "in_progress" "Sync started" d in
  let ids : gset string := list_to_set (sourcePhotoId <$> getSyncedPhotos d m) in
  Forall (λ row, synced_id row < next_uuid d1) (synced_photos d1) ∧
  (∀ row, row ∈ synced_photos d1 → mappingId row = m → sourcePhotoId row ∈ ids).
Proof.
  intros [_ Hlt] d1 ids. split.
  - eapply Forall_impl; [exact Hlt|]. intros row ?. simpl in *. lia.
  - intros row Hrow Hm. apply elem_of_list_to_set, list_elem_of_fmap.
    exists row. split; [done|]. by apply list_elem_of_filter.
Qed.

(** C1, as amended.  In mirror mode the removal pass issues a remote
    delete for every ledger entry whose photo left the source set, without
    looking at the other entries.  When two entries of the mapping share a
    remote path and only one of the two photos left the source set, a run
    over a sound connection leaves the entry of the photo that stayed in
    the ledger, deletes the entry of the photo that left, and deletes the
    shared remote file; the path is one the device's shell takes literally
    between the double quotes of [rm -f] (no [$], backquote, double quote
    or backslash in it). *)
Theorem mirror_deletes_shared_file env m d dev files mapping source device
    sourcePhotos (gone kept : SyncedPhoto) :
  resolves env d m mapping source device sourcePhotos →
  syncMode mapping = mirror →
  Adb.live dev →
  ledger_wf d →
  gone ∈ getSyncedPhotos d m →
  kept ∈ getSyncedPhotos d m →
  syncedDevicePath gone = syncedDevicePath kept →
  Adb.literal (syncedDevicePath gone) = true →
  sourcePhotoId gone ∉ photo_id <$> photosToSync mapping sourcePhotos →
  sourcePhotoId kept ∈ photo_id <$> photosToSync mapping sourcePhotos →
  let s := executeSync env m d dev files in
  (kept ∈ getSyncedPhotos (db s) m) ∧
  (gone ∉ getSyncedPhotos (db s) m) ∧
  Adb.files (adb s) !! syncedDevicePath kept = None.
Proof.
  intros Hres Hmode Hlive Hwf Hgone Hkept Hpath Hlit Hleft Hstay s.
  destruct (MirrorLive.live_next dev Hlive) as (dev1 & Hnf & Hl1 & Hfs1).
  destruct (EngineSteps.executeSync_run env m d dev dev1 files mapping source
              device sourcePhotos Hres Hnf) as (Hrows & Hadb & _ & _).
  fold s in Hrows, Hadb. unfold passes in Hrows, Hadb. rewrite Hmode in Hrows, Hadb.
  set (photos := photosToSync mapping sourcePhotos) in *.
  set (d1 := logSync m "sync_start" "in_progress" "Sync started" d) in *.
  set (ids := list_to_set (sourcePhotoId <$> getSyncedPhotos d m) : gset string) in *.
  destruct (start_grown m d Hwf) as [Hold1 Hold2]. fold d1 ids in Hold1, Hold2.
  destruct (AdditionFacts.addition_grown env source m device ids d1 Hold1 Hold2
              photos d1 dev1 (emptyResult m) [] (AdditionFacts.grown_refl m ids d1))
    as [(news & Hnews & _ & _ & Hfresh) _].
  pose proof (AdditionFacts.addition_live env source m device ids photos
                (d1, dev1, emptyResult m) Hl1) as Hl2.
  destruct (foldl (photo_effect env source m device ids) (d1, dev1, emptyResult m)
              photos) as [[d2 a2] r2]. cbn [fst snd] in *.
  destruct (LedgerFacts.removal_fold (toRemove (getSyncedPhotos d m) photos) d2 a2 r2)
    as (Hrem & _ & _).
  destruct (LedgerFacts.removal_fold_live (toRemove (getSyncedPhotos d m) photos)
              d2 a2 r2 Hl2) as (_ & Hfiles).
  cbv zeta in Hrem, Hfiles. rewrite Hrem in Hrows. rewrite Hadb. clear Hrem Hadb.
  assert (gone ∈ toRemove (getSyncedPhotos d m) photos) as Hgone'.
  { apply list_elem_of_filter. split; [|done]. by rewrite not_elem_of_list_to_set. }
  apply list_elem_of_filter in Hgone as [Hgm Hgone].
  apply list_elem_of_filter in Hkept as [Hkm Hkept].
  destruct Hwf as [Hnd _].
  split_and!.
  - apply list_elem_of_filter. split; [done|]. rewrite Hrows.
    apply list_elem_of_filter. split.
    + intros (z & Hz & Hzin)%list_elem_of_fmap.
      apply list_elem_of_filter in Hzin as [Hzleft Hzin].
      apply list_elem_of_filter in Hzin as [_ Hzin].
      assert (kept = z) as <- by (by eapply (NoDup_fmap_eq synced_id)).
      apply Hzleft. by apply elem_of_list_to_set.
    + rewrite Hnews. apply elem_of_app. by left.
  - intros [_ Hin]%list_elem_of_filter. rewrite Hrows in Hin.
    apply list_elem_of_filter in Hin as [Hin _]. apply Hin.
    apply list_elem_of_fmap. by exists gone.
  - rewrite Hfiles. rewrite decide_True; [done|].
    apply list_elem_of_filter. split; [by rewrite <- Hpath|].
    apply list_elem_of_fmap. by exists gone.
Qed.

(** C1, counterexample.  [a.jpg] and [a-copy.jpg] were synced to the same
    remote file; [a.jpg] has left the folder.  The run removes the shared
    remote file although the entry of [a-copy.jpg] still points at it. *)
Lemma mirror_shared_file_counterexample :
  let ledger := [row 10 a_jpg remoteA digestA;
                 row 11 a_copy_jpg remoteA digestA] in
  let dev := Adb.mkDevice {[ remoteA := digestA ]} [] in
  let s := executeSync (env [a_copy_jpg]) 1 (database mirror None ledger)
             dev ∅ in
  Adb.files dev !! remoteA = Some digestA ∧
  getSyncedPhotos (db s) 1 = [row 11 a_copy_jpg remoteA digestA] ∧
  Adb.files (adb s) !! remoteA = None.
Proof. vm_compute. done. Qed.

Lemma mirror_deletes_shared_file_witness :
  let ledger := [row 10 a_jpg remoteA digestA;
                 row 11 a_copy_jpg remoteA digestA] in
  let s := executeSync (env [a_copy_jpg]) 1 (database mirror None ledger)
             (Adb.mkDevice {[ remoteA := digestA ]} []) ∅ in
  (row 11 a_copy_jpg remoteA digestA ∈ getSyncedPhotos (db s) 1) ∧
  (row 10 a_jpg remoteA digestA ∉ getSyncedPhotos (db s) 1) ∧
  Adb.files (adb s) !! remoteA = None.
Proof.
  intros ledger.
  apply (mirror_deletes_shared_file (env [a_copy_jpg]) 1
           (database mirror None ledger)
           (Adb.mkDevice {[ remoteA := digestA ]} []) ∅
           (the_mapping mirror None) (folder [a_copy_jpg]) frame [a_copy_jpg]
           (row 10 a_jpg remoteA digestA) (row 11 a_copy_jpg remoteA digestA)).
  - exists (mkSource 2 "local_folder" None). by vm_compute.
  - reflexivity.
  - constructor.
  - split; by_compute.
  - by_compute.
  - by_compute.
  - reflexivity.
  - reflexivity.
  - by_compute.
  - by_compute.
Defined.

(** C3.  The connection fails at the [rm] of the removal pass: the remote
    file stays on the device, yet the run deletes the ledger entry, counts
    the photo as removed, records no error and reports success, so that no
    later run retries the deletion. *)
Theorem failed_delete_forgets_entry :
  let ledger := [row 10 a_jpg remoteA digestA; row 11 b_jpg remoteB digestB] in
  let stored : gmap string string :=
    {[ remoteA := digestA; remoteB := digestB ]} in
  let dev := Adb.mkDevice stored [Adb.NoFault; Adb.ConnectionFault] in
  let s := executeSync (env [b_jpg]) 1 (database mirror None ledger) dev ∅ in
  fst (Adb.deleteFile (Adb.mkDevice stored [Adb.ConnectionFault]) remoteA)
    = inr false ∧
  Adb.files (adb s) !! remoteA = Some digestA ∧
  getSyncedPhotos (db s) 1 = [row 11 b_jpg remoteB digestB] ∧
  photosRemoved (result s) = 1 ∧
  errors (result s) = [] ∧
  success (result s) = true.
Proof. vm_compute. done. Qed.

End MirrorFacts.

(** ** Running twice *)

Module IdempotenceFacts.
Import Engine Scenes.




Section Run.
Context (env : Env) (source : Source) (m : uuid) (device : DeviceRecord).
Context (ids : gset string) (d0 : Db).
Hypothesis old_ids :
  Forall (λ row, synced_id row < next_uuid d0) (synced_photos d0).
Hypothesis old_known :
  ∀ row, row ∈ synced_photos d0 → mappingId row = m → sourcePhotoId row ∈ ids.
Hypothesis ids_ledger : ∀ k, k ∈ ids → k ∈ ledgerIds d0 m.
Hypothesis digests_hex :
  ∀ photo dl img h,
    pipeline env source photo = inr (dl, img, h) → Adb.hex_digest h = true.




End Run.


Lemma filter_none {A} (P : A → Prop) `{∀ x, Decision (P x)} (l : list A) :
  Forall (λ x, ¬ P x) l → filter P l = [].
Proof.
  induction 1 as [|x l Hx Hl IH]; [done|]. by rewrite filter_cons_False.
Qed.





End IdempotenceFacts.

(** ** The scheduler *)

Module SchedulerFacts.
Import Engine Scheduler.

(** C5, counterexample.  A run of mapping 1 is in flight.  A manual
    trigger for mapping 1 starts a second run beside it, and so does the
    cron task of the mapping when it fires. *)
Lemma second_trigger_counterexample :
  let p := mkProcess (mkScheduler {[ 1 := "0 * * * *" ]} true) [1] in
  running 1 p = 1 ∧
  running 1 (triggerSync 1 p) = 2 ∧
  running 1 (cronFires 1 p) = 2.
Proof. vm_compute. done. Qed.

(** C5, as amended.  The scheduler keeps no record of the runs in flight:
    a trigger for a mapping, manual or by its cron task, always starts a
    new run of [executeSync], whether or not a run of the same mapping is
    in flight, and leaves the scheduler and the runs of the other mappings
    as they are. *)
Theorem trigger_always_starts_a_run (mappingId : uuid) (p : Process) :
  running mappingId (triggerSync mappingId p) = S (running mappingId p) ∧
  scheduler (triggerSync mappingId p) = scheduler p ∧
  (∀ other, other ≠ mappingId →
     running other (triggerSync mappingId p) = running other p) ∧
  (is_Some (tasks (scheduler p) !! mappingId) →
     running mappingId (cronFires mappingId p) = S (running mappingId p) ∧
     ∀ other, other ≠ mappingId →
       running other (cronFires mappingId p) = running other p).
Proof.
  unfold running, triggerSync, cronFires. cbn [inFlight scheduler].
  split_and!.
  - by rewrite filter_cons_True.
  - done.
  - intros other Hne. by rewrite filter_cons_False.
  - intros [e ->]. cbn [inFlight]. split.
    + by rewrite filter_cons_True.
    + intros other Hne. by rewrite filter_cons_False.
Qed.

Lemma trigger_always_starts_a_run_witness :
  let p := mkProcess (mkScheduler {[ 1 := "0 * * * *" ]} true) [1; 2] in
  running 1 (triggerSync 1 p) = 2 ∧
  running 2 (triggerSync 1 p) = 1 ∧
  running 1 (cronFires 1 p) = 2 ∧
  running 2 (cronFires 1 p) = 1.
Proof.
  intros p.
  destruct (trigger_always_starts_a_run 1 p) as (H1 & _ & H2 & H3).
  assert (is_Some (tasks (scheduler p) !! 1)) as Hs by by_compute.
  destruct (H3 Hs) as [H4 H5].
  split_and!.
  - exact H1.
  - apply (H2 2). lia.
  - exact H4.
  - apply (H5 2). lia.
Defined.

End SchedulerFacts.

(** * Properties of the further parts *)

(** ** How a run ends *)

Module OutcomeFacts.
Import Engine Outcome Scenes.

(** A run whose rows are found, whose source is built and listed and whose
    first transport call is sound ends as [completed] says. *)
Lemma executeSync_completed env m d dev dev1 files mapping source device
    sourcePhotos sr :
  getMapping d m = Some mapping →
  getSource d (sourceId mapping) = Some sr →
  getDevice d (deviceId mapping) = Some device →
  createSource env sr = inr source →
  getPhotos source = inr sourcePhotos →
  Adb.next_fault dev = (Adb.NoFault, dev1) →
  executeSync env m d dev files =
    completed env m sr
      (passes env source m mapping device (getSyncedPhotos d m)
         (photosToSync mapping sourcePhotos)
         (logSync m "sync_start" "in_progress" "Sync started" d, dev1,
          emptyResult m)).
Proof.
  intros Hm Hs Hd Hc Hp Hf.
  set (photos := photosToSync mapping sourcePhotos).
  set (d1 := logSync m "sync_start" "in_progress" "Sync started" d).
  set (c := passes _ _ _ _ _ _ _ _).
  unfold executeSync. rewrite Hm, Hs, Hd.
  unfold try_catch, syncBody.
  unfold bind at 1, lift. rewrite Hc.
  unfold bind at 1, adbCall. cbn [adb with_db].
  rewrite (EngineSteps.shell_mkdir _ _ _ Hf).
  unfold bind at 1. rewrite Hp.
  unfold bind at 1, gets. cbn [db with_adb with_db].
  change (getSyncedPhotos (logSync _ _ _ _ d) m) with (getSyncedPhotos d m).
  set (ids := list_to_set (sourcePhotoId <$> getSyncedPhotos d m) : gset string).
  fold photos.
  destruct (EngineSteps.addition_pass env source m device ids photos
    (with_adb dev1 (with_db (logSync m "sync_start" "in_progress" "Sync started")
       (mkState d dev files (emptyResult m))))) as (s2 & E2 & Hc2).
  unfold bind at 1. rewrite E2.
  assert (∃ s3, (match syncMode mapping with
                 | mirror => for_each (toRemove (getSyncedPhotos d m) photos) removePhoto
                 | add_only => ret tt
                 end) s2 = (inr tt, s3) ∧ core s3 = c) as (s3 & E3 & Hc3).
  { subst c. unfold passes. fold ids.
    change (core (with_adb dev1 _)) with (d1, dev1, emptyResult m) in Hc2.
    rewrite <- Hc2.
    destruct (syncMode mapping).
    - destruct (EngineSteps.removal_pass (toRemove (getSyncedPhotos d m) photos) s2)
        as (s3 & E3 & _ & Hc3). by exists s3.
    - by exists s2. }
  unfold bind at 1. rewrite E3.
  rewrite <- Hc3. destruct s3 as [db3 adb3 tmp3 res3].
  reflexivity.
Qed.

(** A run that stops before its passes ends as [aborted] says; the
    transport call, if one was made, is consumed. *)
Lemma executeSync_aborted env m d dev files mapping device sr e :
  getMapping d m = Some mapping →
  getSource d (sourceId mapping) = Some sr →
  getDevice d (deviceId mapping) = Some device →
  stops_with env sr dev e →
  executeSync env m d dev files =
    aborted m e (logSync m "sync_start" "in_progress" "Sync started" d)
      (match createSource env sr with
       | inl _ => dev
       | inr _ => (Adb.next_fault dev).2
       end) files.
Proof.
  intros Hm Hs Hd Hstop. unfold executeSync. rewrite Hm, Hs, Hd.
  unfold try_catch, syncBody.
  destruct Hstop as [Hc|(source & Hc & [[Hf ->]|[Hf Hp]])].
  - unfold bind at 1, lift. rewrite Hc. reflexivity.
  - unfold bind at 1, lift. rewrite Hc.
    unfold bind at 1, adbCall. cbn [adb with_db].
    destruct (Adb.next_fault dev) as [f dev1] eqn:E.
    assert (f ≠ Adb.NoFault) as Hne.
    { intros ->. apply Hf. pose proof (AdbFacts.next_fault_at dev) as [H0 _].
      by rewrite E in H0. }
    unfold Adb.ensureDirectory.
    rewrite (AdbFacts.shell_fault dev f dev1 _ E Hne). reflexivity.
  - unfold bind at 1, lift. rewrite Hc.
    destruct (RunFacts.sound_next dev Hf) as (dev1 & E & _ & _).
    unfold bind at 1, adbCall. cbn [adb with_db].
    rewrite (EngineSteps.shell_mkdir _ _ _ E).
    unfold bind at 1. rewrite Hp. rewrite E. reflexivity.
Qed.


(** The passes write to the [synced_photos] table only. *)
Lemma photo_effect_tables env source m device ids c photo :
  let c' := photo_effect env source m device ids c photo in
  sync_mappings c'.1.1 = sync_mappings c.1.1 ∧
  sources c'.1.1 = sources c.1.1 ∧
  devices c'.1.1 = devices c.1.1 ∧
  sync_logs c'.1.1 = sync_logs c.1.1.
Proof.
  destruct c as [[d a] r].
  destruct (AdditionFacts.photo_effect_case env source m device ids d a r photo);
    done.
Qed.

Lemma remove_effect_tables c row :
  let c' := remove_effect c row in
  sync_mappings c'.1.1 = sync_mappings c.1.1 ∧
  sources c'.1.1 = sources c.1.1 ∧
  devices c'.1.1 = devices c.1.1 ∧
  sync_logs c'.1.1 = sync_logs c.1.1.
Proof.
  destruct c as [[d a] r].
  destruct (LedgerFacts.remove_effect_always d a r row) as (a' & -> & _).
  done.
Qed.

Lemma passes_tables env source m mapping device synced photos c :
  let c' := passes env source m mapping device synced photos c in
  sync_mappings c'.1.1 = sync_mappings c.1.1 ∧
  sources c'.1.1 = sources c.1.1 ∧
  devices c'.1.1 = devices c.1.1 ∧
  sync_logs c'.1.1 = sync_logs c.1.1.
Proof.
  cbv zeta. rewrite RunFacts.passes_fold.
  set (rows := match syncMode mapping with mirror => _ | add_only => _ end).
  clearbody rows.
  set (ids := list_to_set _).
  assert (∀ c0, let c' := foldl (photo_effect env source m device ids) c0 photos in
            sync_mappings c'.1.1 = sync_mappings c0.1.1 ∧
            sources c'.1.1 = sources c0.1.1 ∧
            devices c'.1.1 = devices c0.1.1 ∧
            sync_logs c'.1.1 = sync_logs c0.1.1) as Hadd.
  { induction photos as [|p photos IH]; intros c0; [done|].
    cbn [foldl]. cbv zeta.
    destruct (IH (photo_effect env source m device ids c0 p)) as (->&->&->&->).
    apply photo_effect_tables. }
  assert (∀ c0, let c' := foldl remove_effect c0 rows in
            sync_mappings c'.1.1 = sync_mappings c0.1.1 ∧
            sources c'.1.1 = sources c0.1.1 ∧
            devices c'.1.1 = devices c0.1.1 ∧
            sync_logs c'.1.1 = sync_logs c0.1.1) as Hrem.
  { induction rows as [|x rows IH]; intros c0; [done|].
    cbn [foldl]. cbv zeta.
    destruct (IH (remove_effect c0 x)) as (->&->&->&->).
    apply remove_effect_tables. }
  destruct (Hrem (foldl (photo_effect env source m device ids) c photos))
    as (->&->&->&->).
  apply Hadd.
Qed.


(** X1.  When the row of the mapping, of its source or of its device is
    missing, [executeSync] returns at once: the result has [success] false
    and exactly one error, one of the three "... not found" messages; the
    database is left as it was (no row of [sync_logs] is written), no
    transport call is made and the temp directory is not touched. *)
Theorem unresolved_run_writes_nothing env m d dev files :
  unresolved d m →
  let s := executeSync env m d dev files in
  db s = d ∧ adb s = dev ∧ tmp s = files ∧
  ∃ e, e ∈ ["Mapping not found"; "Source not found"; "Device not found"] ∧
       result s = mkResult m false 0 0 0 [e].
Proof.
  unfold unresolved, executeSync.
  destruct (getMapping d m) as [mapping|].
  2:{ intros _. split_and!; try done. eexists. split; [|reflexivity]. by_compute. }
  destruct (getSource d (sourceId mapping)) as [sr|].
  2:{ intros _. split_and!; try done. eexists. split; [|reflexivity]. by_compute. }
  destruct (getDevice d (deviceId mapping)) as [device|].
  { by intros [|]. }
  intros _. split_and!; try done. eexists. split; [|reflexivity]. by_compute.
Qed.

Lemma unresolved_run_writes_nothing_witness :
  let d := database add_only None [] in
  let s := executeSync (env [a_jpg]) 7 d empty_frame ∅ in
  db s = d ∧ adb s = empty_frame ∧ tmp s = ∅ ∧
  ∃ e, e ∈ ["Mapping not found"; "Source not found"; "Device not found"] ∧
       result s = mkResult 7 false 0 0 0 [e].
Proof.
  intros d.
  apply (unresolved_run_writes_nothing (env [a_jpg]) 7 d empty_frame ∅).
  exact I.
Defined.



(** X3.  A run that gets to its passes sets [success] exactly when it
    recorded no error, and adds two rows to [sync_logs]: the row of the
    start, under the first identifier drawn, and a [sync_complete] row whose
    status is [success] or [failure] as the result says and whose message
    is the three counts of the result. *)
Theorem completed_run_is_logged env m d dev files mapping source device
    sourcePhotos :
  resolves env d m mapping source device sourcePhotos →
  Adb.fault_at dev 0 = Adb.NoFault →
  let s := executeSync env m d dev files in
  (success (result s) = true ↔ errors (result s) = []) ∧
  ∃ id, sync_logs (db s) =
    (sync_logs d ++
       [mkLog (next_uuid d) m "sync_start" "in_progress" "Sync started";
        mkLog id m "sync_complete"
              (if success (result s) then "success" else "failure")
              (completionMessage (result s))])%list.
Proof.
  intros (sr & Hm & Hs & Hd & Hc & Hp) Hf s. subst s.
  destruct (RunFacts.sound_next dev Hf) as (dev1 & E & _ & _).
  rewrite (executeSync_completed env m d dev dev1 files mapping source device
             sourcePhotos sr Hm Hs Hd Hc Hp E).
  set (c := passes _ _ _ _ _ _ _ _).
  pose proof (passes_tables env source m mapping device (getSyncedPhotos d m)
                (photosToSync mapping sourcePhotos)
                (logSync m "sync_start" "in_progress" "Sync started" d, dev1,
                 emptyResult m)) as (_ & _ & _ & Hl).
  fold c in Hl. unfold completed. cbn [result db].
  split.
  - cbn. split; [intros H; by apply bool_decide_eq_true in H|
                 intros H; by apply bool_decide_eq_true].
  - eexists. cbn. rewrite Hl. cbn. rewrite <- app_assoc. reflexivity.
Qed.

Lemma completed_run_is_logged_witness :
  let d := database add_only None [] in
  let s := executeSync (env [a_jpg; broken_jpg]) 1 d empty_frame ∅ in
  (success (result s) = true ↔ errors (result s) = []) ∧
  ∃ id, sync_logs (db s) =
    (sync_logs d ++
       [mkLog (next_uuid d) 1 "sync_start" "in_progress" "Sync started";
        mkLog id 1 "sync_complete"
              (if success (result s) then "success" else "failure")
              (completionMessage (result s))])%list.
Proof.
  intros d.
  apply (completed_run_is_logged (env [a_jpg; broken_jpg]) 1 d empty_frame ∅
           (the_mapping add_only None) (folder [a_jpg; broken_jpg]) frame
           [a_jpg; broken_jpg]).
  - exists (mkSource 2 "local_folder" None). by vm_compute.
  - reflexivity.
Defined.


Lemma find_source_id l id r :
  List.find (λ r, Nat.eqb (source_id r) id) l = Some r → source_id r = id.
Proof.
  intros H. apply List.find_some in H as [_ H]. by apply Nat.eqb_eq in H.
Qed.

Lemma getSource_updateLastSync d id t k :
  getSource (updateLastSync id t d) k =
    (λ r, if decide (k = id)
          then mkSource (source_id r) (source_type r) (Some t) else r)
      <$> getSource d k.
Proof.
  unfold getSource, updateLastSync. cbn [sources].
  induction (sources d) as [|r l IH]; [done|].
  cbn [map List.find].
  destruct (Nat.eqb (source_id r) id) eqn:E1.
  - cbn [source_id]. destruct (Nat.eqb (source_id r) k) eqn:E2.
    + apply Nat.eqb_eq in E1, E2. cbn. rewrite decide_True by congruence. done.
    + apply IH.
  - destruct (Nat.eqb (source_id r) k) eqn:E2.
    + apply Nat.eqb_neq in E1. apply Nat.eqb_eq in E2.
      cbn. rewrite decide_False by congruence. done.
    + apply IH.
Qed.

(** X4.  A run that gets to its passes stamps the source of the mapping
    with the time of completion, also when photos failed, and it changes
    nothing else in [sources], [sync_mappings] and [devices]. *)
Theorem completed_run_stamps_source env m d dev files mapping source device
    sourcePhotos :
  resolves env d m mapping source device sourcePhotos →
  Adb.fault_at dev 0 = Adb.NoFault →
  let s := executeSync env m d dev files in
  (∀ k, getSource (db s) k =
          (λ r, if decide (k = sourceId mapping)
                then mkSource (source_id r) (source_type r) (Some (now env))
                else r) <$> getSource d k) ∧
  sync_mappings (db s) = sync_mappings d ∧
  devices (db s) = devices d.
Proof.
  intros (sr & Hm & Hs & Hd & Hc & Hp) Hf s. subst s.
  destruct (RunFacts.sound_next dev Hf) as (dev1 & E & _ & _).
  rewrite (executeSync_completed env m d dev dev1 files mapping source device
             sourcePhotos sr Hm Hs Hd Hc Hp E).
  set (c := passes _ _ _ _ _ _ _ _).
  pose proof (passes_tables env source m mapping device (getSyncedPhotos d m)
                (photosToSync mapping sourcePhotos)
                (logSync m "sync_start" "in_progress" "Sync started" d, dev1,
                 emptyResult m)) as (Hmp & Hsrc & Hdev & _).
  fold c in Hmp, Hsrc, Hdev. unfold completed. cbn [db].
  split_and!.
  - intros k.
    change (getSource (logSync ?a ?b ?c ?e ?x) k) with (getSource x k).
    rewrite getSource_updateLastSync.
    rewrite (find_source_id _ _ _ Hs).
    unfold getSource. by rewrite Hsrc.
  - cbn. by rewrite Hmp.
  - cbn. by rewrite Hdev.
Qed.

Lemma completed_run_stamps_source_witness :
  let d := database add_only None [] in
  let s := executeSync (env [a_jpg]) 1 d empty_frame ∅ in
  (∀ k, getSource (db s) k =
          (λ r, if decide (k = 2)
                then mkSource (source_id r) (source_type r)
                       (Some "2024-05-01T06:00:00.000Z")
                else r) <$> getSource d k) ∧
  sync_mappings (db s) = sync_mappings d ∧
  devices (db s) = devices d.
Proof.
  intros d.
  apply (completed_run_stamps_source (env [a_jpg]) 1 d empty_frame ∅
           (the_mapping add_only None) (folder [a_jpg]) frame [a_jpg]).
  - exists (mkSource 2 "local_folder" None). by vm_compute.
  - reflexivity.
Defined.

(** X5.  A run that gets to its passes accounts for every photo of the
    capped listing once: added, skipped and errors sum up to the number of
    photos, whatever the connection does after the first call.
    [photosRemoved] is the number of ledger entries of the mapping whose
    photo is not in the capped listing in mirror mode, and 0 in add-only
    mode: the removal pass never records an error. *)
Theorem run_accounts_for_every_photo env m d dev files mapping source device
    sourcePhotos :
  resolves env d m mapping source device sourcePhotos →
  Adb.fault_at dev 0 = Adb.NoFault →
  let s := executeSync env m d dev files in
  let photos := photosToSync mapping sourcePhotos in
  photosAdded (result s) + photosSkipped (result s)
    + length (errors (result s)) = length photos ∧
  photosRemoved (result s) =
    match syncMode mapping with
    | mirror => length (toRemove (getSyncedPhotos d m) photos)
    | add_only => 0
    end.
Proof.
  intros Hres Hf s photos.
  destruct (RunFacts.sound_next dev Hf) as (dev1 & E & _ & _).
  destruct (EngineSteps.executeSync_run env m d dev dev1 files mapping source
              device sourcePhotos Hres E) as (_ & _ & _ & Hr).
  fold s in Hr. rewrite Hr. clear Hr.
  rewrite RunFacts.passes_fold. fold photos.
  set (ids := list_to_set _).
  set (c0 := (logSync m "sync_start" "in_progress" "Sync started" d, dev1,
              emptyResult m)).
  pose proof (AdditionFacts.addition_counts env source m device ids photos c0)
    as (Hsum & Hrm & _).
  set (c2 := foldl (photo_effect env source m device ids) c0 photos) in *.
  set (rows := match syncMode mapping with mirror => _ | add_only => _ end).
  destruct c2 as [[d2 a2] r2] eqn:E2.
  destruct (LedgerFacts.removal_fold rows d2 a2 r2) as (_ & _ & Hc).
  cbv zeta in Hc. cbn [snd] in *.
  destruct (LedgerFacts.iter_add_removed (length rows) r2) as (H1 & H2 & H3 & H4).
  unfold set_success. cbn [photosAdded photosSkipped errors photosRemoved].
  rewrite Hc, H1, H2, H3, H4. cbn in Hsum, Hrm.
  split; [lia|]. rewrite Hrm. subst rows. by destruct (syncMode mapping).
Qed.

Lemma run_accounts_for_every_photo_witness :
  let ledger := [row 10 a_jpg remoteA digestA; row 11 c_jpg remoteC digestC] in
  let d := database mirror None ledger in
  let dev := Adb.mkDevice {[ remoteA := digestA; remoteC := digestC ]} [] in
  let s := executeSync (env [a_jpg; b_jpg; broken_jpg]) 1 d dev ∅ in
  photosAdded (result s) + photosSkipped (result s)
    + length (errors (result s)) = 3 ∧
  photosRemoved (result s) = 1.
Proof.
  intros ledger d dev.
  apply (run_accounts_for_every_photo (env [a_jpg; b_jpg; broken_jpg]) 1 d dev ∅
           (the_mapping mirror None) (folder [a_jpg; b_jpg; broken_jpg]) frame
           [a_jpg; b_jpg; broken_jpg]).
  - exists (mkSource 2 "local_folder" None). by vm_compute.
  - reflexivity.
Defined.


(** The ledger a run that gets through its passes leaves: the rows it had,
    followed by the rows recorded, less the rows the removal pass took. *)
Lemma run_ledger env m d dev files mapping source device sourcePhotos :
  resolves env d m mapping source device sourcePhotos →
  ledger_wf d →
  Adb.fault_at dev 0 = Adb.NoFault →
  let s := executeSync env m d dev files in
  let photos := photosToSync mapping sourcePhotos in
  let rows := match syncMode mapping with
              | mirror => toRemove (getSyncedPhotos d m) photos
              | add_only => []
              end in
  ∃ news,
    synced_photos (db s) =
      filter (λ x, synced_id x ∉ synced_id <$> rows)
             (synced_photos d ++ news)%list ∧
    NoDup (synced_id <$> news) ∧
    Forall (λ row, (mappingId row = m) ∧
                   (sourcePhotoId row ∈ photo_id <$> photos) ∧
                   (sourcePhotoId row ∉ ledgerIds d m) ∧
                   (next_uuid d < synced_id row)) news.
Proof.
  intros Hres Hwf Hf s photos rows.
  destruct (RunFacts.sound_next dev Hf) as (dev1 & Hnf & _ & _).
  destruct (EngineSteps.executeSync_run env m d dev dev1 files mapping source
              device sourcePhotos Hres Hnf) as (Hrows & _ & _ & _).
  fold s in Hrows. rewrite RunFacts.passes_fold in Hrows.
  fold photos rows in Hrows.
  set (d1 := logSync m "sync_start" "in_progress" "Sync started" d) in *.
  set (ids := list_to_set (sourcePhotoId <$> getSyncedPhotos d m) : gset string) in *.
  destruct (MirrorFacts.start_grown m d Hwf) as [Hold1 Hold2].
  fold d1 ids in Hold1, Hold2.
  destruct (AdditionFacts.addition_grown env source m device ids d1 Hold1 Hold2
              photos d1 dev1 (emptyResult m) [] (AdditionFacts.grown_refl m ids d1))
    as [(news & Hnews & _ & Hnd & Hfresh) _].
  destruct (foldl (photo_effect env source m device ids) (d1, dev1, emptyResult m)
              photos) as [[d2 a2] r2]. cbn [fst snd] in *.
  destruct (LedgerFacts.removal_fold rows d2 a2 r2) as (Hrem & _ & _).
  cbv zeta in Hrem. rewrite Hrem in Hrows. clear Hrem.
  exists news. split_and!.
  - by rewrite Hrows, Hnews.
  - done.
  - eapply Forall_impl; [exact Hfresh|]. intros row (H1 & H2 & H3 & H4 & _).
    split_and!; [done|done| |].
    + intros Hin. apply H3. by apply elem_of_list_to_set.
    + change (next_uuid d1) with (S (next_uuid d)) in H4. lia.
Qed.

Lemma filter_ext_in {A} (P Q : A → Prop) `{∀ x, Decision (P x)}
    `{∀ x, Decision (Q x)} (l : list A) :
  (∀ x, x ∈ l → (P x ↔ Q x)) → filter P l = filter Q l.
Proof.
  induction l as [|a l IH]; intros Hl; [done|].
  assert (filter P l = filter Q l) as IH'.
  { apply IH. intros x Hx. apply Hl. by right. }
  destruct (decide (P a)) as [Hp|Hp].
  - rewrite filter_cons_True by done.
    rewrite (filter_cons_True Q) by (apply Hl; [left|done]). by rewrite IH'.
  - rewrite filter_cons_False by done.
    rewrite (filter_cons_False Q); [done|].
    intros Hq. apply Hp, Hl; [left|done].
Qed.

(** X6.  Whatever a run of mapping [m] does and however it ends, the
    ledger entries of every other mapping are the same after it, in the
    same order. *)
Theorem run_leaves_other_mappings env m d dev files (other : uuid) :
  ledger_wf d →
  other ≠ m →
  getSyncedPhotos (db (executeSync env m d dev files)) other
    = getSyncedPhotos d other.
Proof.
  intros Hwf Hne.
  destruct (getMapping d m) as [mapping|] eqn:Hm.
  2:{ by unfold executeSync; rewrite Hm. }
  destruct (getSource d (sourceId mapping)) as [sr|] eqn:Hs.
  2:{ by unfold executeSync; rewrite Hm, Hs. }
  destruct (getDevice d (deviceId mapping)) as [device|] eqn:Hd.
  2:{ by unfold executeSync; rewrite Hm, Hs, Hd. }
  assert (∀ e, stops_with env sr dev e →
            getSyncedPhotos (db (executeSync env m d dev files)) other
              = getSyncedPhotos d other) as Hstop.
  { intros e He.
    by rewrite (executeSync_aborted env m d dev files mapping device sr e
                  Hm Hs Hd He). }
  destruct (createSource env sr) as [e|source] eqn:Hc.
  { apply (Hstop e). left. done. }
  destruct (decide (Adb.fault_at dev 0 = Adb.NoFault)) as [Hf|Hf].
  2:{ apply (Hstop "device offline"). right. exists source. split; [done|].
      left. done. }
  destruct (getPhotos source) as [e|sourcePhotos] eqn:Hp.
  { apply (Hstop e). right. exists source. split; [done|]. right. done. }
  assert (resolves env d m mapping source device sourcePhotos) as Hres.
  { by exists sr. }
  destruct (run_ledger env m d dev files mapping source device sourcePhotos
              Hres Hwf Hf) as (news & Hrows & _ & Hnews).
  cbv zeta in Hrows.
  set (rows := match syncMode mapping with mirror => _ | add_only => _ end) in *.
  unfold getSyncedPhotos at 1. rewrite Hrows.
  rewrite list_filter_filter, filter_app.
  assert (filter (λ x, mappingId x = other ∧ synced_id x ∉ synced_id <$> rows)
            news = []) as ->.
  { apply IdempotenceFacts.filter_none.
    eapply Forall_impl; [exact Hnews|]. intros row (H1 & _) [H2 _]. congruence. }
  rewrite app_nil_r. unfold getSyncedPhotos.
  apply filter_ext_in. intros x Hx. split; [tauto|].
  intros Hxo. split; [done|].
  intros (z & Hz & Hzin)%list_elem_of_fmap.
  assert (z ∈ getSyncedPhotos d m) as Hzm.
  { subst rows. destruct (syncMode mapping).
    - by apply list_elem_of_filter in Hzin as [_ Hzin].
    - by apply elem_of_nil in Hzin. }
  apply list_elem_of_filter in Hzm as [Hzm Hzd].
  destruct Hwf as [Hnd _].
  assert (x = z) as -> by (by eapply (MirrorFacts.NoDup_fmap_eq synced_id)).
  congruence.
Qed.

Lemma run_leaves_other_mappings_witness :
  let theirs := mkSynced 11 2 "/photos/in/a.jpg" "/photos/in/a.jpg" remoteA
                         digestA 2048 in
  let d := database mirror None [row 10 a_jpg remoteA digestA; theirs] in
  let dev := Adb.mkDevice {[ remoteA := digestA ]} [] in
  getSyncedPhotos (db (executeSync (env []) 1 d dev ∅)) 2 = getSyncedPhotos d 2.
Proof.
  intros theirs d dev.
  apply (run_leaves_other_mappings (env []) 1 d dev ∅ 2).
  - split; by_compute.
  - discriminate.
Defined.


(** X7.  After a run in mirror mode that gets to its passes, every ledger
    entry of the mapping is for a photo of the capped listing: an entry
    whose photo left the source, or lies beyond [maxPhotos], is gone,
    whether or not its remote file could be deleted. *)
Theorem mirror_ledger_within_source env m d dev files mapping source device
    sourcePhotos :
  resolves env d m mapping source device sourcePhotos →
  ledger_wf d →
  syncMode mapping = mirror →
  Adb.fault_at dev 0 = Adb.NoFault →
  let s := executeSync env m d dev files in
  ∀ row, row ∈ getSyncedPhotos (db s) m →
         sourcePhotoId row ∈ photo_id <$> photosToSync mapping sourcePhotos.
Proof.
  intros Hres Hwf Hmode Hf s.
  set (photos := photosToSync mapping sourcePhotos).
  destruct (run_ledger env m d dev files mapping source device sourcePhotos
              Hres Hwf Hf) as (news & Hrows & _ & Hnews).
  cbv zeta in Hrows. rewrite Hmode in Hrows. fold s photos in Hrows.
  intros row [Hrm Hrow]%list_elem_of_filter.
  rewrite Hrows in Hrow. apply list_elem_of_filter in Hrow as [Hkeep Hrow].
  apply elem_of_app in Hrow as [Hold|Hnew].
  - destruct (decide (sourcePhotoId row ∈ photo_id <$> photos)) as [|Hout];
      [done|].
    exfalso. apply Hkeep. apply list_elem_of_fmap. exists row. split; [done|].
    apply list_elem_of_filter. split.
    + by rewrite not_elem_of_list_to_set.
    + by apply list_elem_of_filter.
  - rewrite Forall_forall in Hnews. by destruct (Hnews row Hnew) as (_ & ? & _).
Qed.

Lemma mirror_ledger_within_source_witness :
  let ledger := [row 10 a_jpg remoteA digestA; row 11 b_jpg remoteB digestB] in
  let d := database mirror (Some 1%Z) ledger in
  let dev := Adb.mkDevice {[ remoteA := digestA; remoteB := digestB ]} [] in
  let s := executeSync (env [a_jpg; b_jpg]) 1 d dev ∅ in
  Forall (λ row, sourcePhotoId row ∈
                   photo_id <$> photosToSync (the_mapping mirror (Some 1%Z))
                                  [a_jpg; b_jpg])
         (getSyncedPhotos (db s) 1).
Proof.
  intros ledger d dev s. apply Forall_forall.
  apply (mirror_ledger_within_source (env [a_jpg; b_jpg]) 1 d dev ∅
           (the_mapping mirror (Some 1%Z)) (folder [a_jpg; b_jpg]) frame
           [a_jpg; b_jpg]).
  - exists (mkSource 2 "local_folder" None). by vm_compute.
  - split; by_compute.
  - reflexivity.
  - reflexivity.
Defined.

















(** The constraints of [synced_photos] through the statements of a run. *)
Lemma record_keeps_constraints m pid path dp h sz d :
  ledger_wf d → ledger_unique d →
  let d' := recordSyncedPhoto m pid path dp h sz d in
  ledger_wf d' ∧ ledger_unique d'.
Proof.
  intros [Hnd Hlt] Huq d'.
  destruct (LedgerFacts.recordSyncedPhoto_rows' m pid path dp h sz d)
    as [Hrows Hnext]. fold d' in Hrows, Hnext.
  unfold ledger_wf, ledger_unique. rewrite Hrows, Hnext.
  unfold insert_or_replace.
  set (new := mkSynced (next_uuid d) m pid path dp h sz).
  set (kept := filter (λ old, ¬ clashes new old) (synced_photos d)).
  assert (kept `sublist_of` synced_photos d) as Hsub by apply sublist_filter.
  assert (Forall (λ r, synced_id r < next_uuid d) kept) as Hlt'.
  { apply Forall_forall. intros r Hr. rewrite Forall_forall in Hlt.
    apply Hlt. by apply list_elem_of_filter in Hr as [_ Hr]. }
  split_and!.
  - rewrite fmap_app. apply NoDup_app. split_and!.
    + eapply sublist_NoDup; [exact Hnd|]; by apply fmap_sublist.
    + intros x (r & -> & Hr)%list_elem_of_fmap Hx.
      apply list_elem_of_singleton in Hx. rewrite Forall_forall in Hlt'.
      specialize (Hlt' r Hr). cbn in Hx. lia.
    + apply NoDup_singleton.
  - apply Forall_app. split.
    + eapply Forall_impl; [exact Hlt'|]. intros r ?. cbn in *. lia.
    + apply Forall_singleton. cbn. lia.
  - rewrite fmap_app. apply NoDup_app. split_and!.
    + eapply sublist_NoDup; [exact Huq|]; by apply fmap_sublist.
    + intros x (r & -> & Hr)%list_elem_of_fmap Hx.
      apply list_elem_of_singleton in Hx.
      apply list_elem_of_filter in Hr as [Hr _]. apply Hr.
      right. cbn in Hx. by inversion Hx.
    + apply NoDup_singleton.
Qed.

Lemma delete_keeps_constraints id d :
  ledger_wf d → ledger_unique d →
  ledger_wf (deleteSyncedPhoto id d) ∧ ledger_unique (deleteSyncedPhoto id d).
Proof.
  intros [Hnd Hlt] Huq. unfold ledger_wf, ledger_unique, deleteSyncedPhoto.
  cbn [synced_photos next_uuid].
  split_and!.
  - eapply sublist_NoDup; [exact Hnd|]; apply fmap_sublist, sublist_filter.
  - apply Forall_forall. intros r Hr. rewrite Forall_forall in Hlt.
    apply Hlt. by apply list_elem_of_filter in Hr as [_ Hr].
  - eapply sublist_NoDup; [exact Huq|]; apply fmap_sublist, sublist_filter.
Qed.

Lemma logSync_keeps_constraints m op st msg d :
  ledger_wf d → ledger_unique d →
  ledger_wf (logSync m op st msg d) ∧ ledger_unique (logSync m op st msg d).
Proof.
  intros [Hnd Hlt] Huq. split; [split|]; [done| |done].
  eapply Forall_impl; [exact Hlt|]. intros r ?. cbn in *. lia.
Qed.

Lemma passes_keep_constraints env source m mapping device synced photos c :
  ledger_wf c.1.1 → ledger_unique c.1.1 →
  let c' := passes env source m mapping device synced photos c in
  ledger_wf c'.1.1 ∧ ledger_unique c'.1.1.
Proof.
  intros Hwf Huq. cbv zeta. rewrite RunFacts.passes_fold.
  set (rows := match syncMode mapping with mirror => _ | add_only => _ end).
  clearbody rows. set (ids := list_to_set _).
  assert (∀ c0, ledger_wf c0.1.1 → ledger_unique c0.1.1 →
            let c' := foldl (photo_effect env source m device ids) c0 photos in
            ledger_wf c'.1.1 ∧ ledger_unique c'.1.1) as Hadd.
  { induction photos as [|p photos IH]; intros c0 H1 H2; [done|].
    cbn [foldl]. apply IH; destruct c0 as [[d0 a0] r0];
      destruct (AdditionFacts.photo_effect_case env source m device ids d0 a0 r0 p);
      cbn [fst snd] in *; try done;
      by apply record_keeps_constraints. }
  assert (∀ c0, ledger_wf c0.1.1 → ledger_unique c0.1.1 →
            let c' := foldl remove_effect c0 rows in
            ledger_wf c'.1.1 ∧ ledger_unique c'.1.1) as Hrem.
  { induction rows as [|x rows IH]; intros c0 H1 H2; [done|].
    cbn [foldl]. destruct c0 as [[d0 a0] r0].
    destruct (LedgerFacts.remove_effect_always d0 a0 r0 x) as (a' & Hx & _).
    apply IH; rewrite Hx; cbn [fst snd] in *; by apply delete_keeps_constraints. }
  apply Hrem; by apply Hadd.
Qed.

(** X12.  Every run, however it ends, keeps the constraints of
    [synced_photos]: the primary key stays unique and below the identifiers
    still to draw, and no two rows share mapping and source photo
    ([INSERT OR REPLACE] replaces, it does not duplicate). *)
Theorem run_keeps_ledger_constraints env m d dev files :
  ledger_wf d → ledger_unique d →
  let s := executeSync env m d dev files in
  ledger_wf (db s) ∧ ledger_unique (db s).
Proof.
  intros Hwf Huq s. subst s.
  destruct (getMapping d m) as [mapping|] eqn:Hm.
  2:{ by unfold executeSync; rewrite Hm. }
  destruct (getSource d (sourceId mapping)) as [sr|] eqn:Hs.
  2:{ by unfold executeSync; rewrite Hm, Hs. }
  destruct (getDevice d (deviceId mapping)) as [device|] eqn:Hd.
  2:{ by unfold executeSync; rewrite Hm, Hs, Hd. }
  destruct (logSync_keeps_constraints m "sync_start" "in_progress"
              "Sync started" d Hwf Huq) as [Hwf1 Huq1].
  assert (∀ e, stops_with env sr dev e →
            ledger_wf (db (executeSync env m d dev files)) ∧
            ledger_unique (db (executeSync env m d dev files))) as Hstop.
  { intros e He.
    rewrite (executeSync_aborted env m d dev files mapping device sr e
               Hm Hs Hd He).
    unfold aborted. cbn [db]. by apply logSync_keeps_constraints. }
  destruct (createSource env sr) as [e|source] eqn:Hc.
  { apply (Hstop e). left. done. }
  destruct (decide (Adb.fault_at dev 0 = Adb.NoFault)) as [Hf|Hf].
  2:{ apply (Hstop "device offline"). right. exists source. split; [done|].
      left. done. }
  destruct (getPhotos source) as [e|sourcePhotos] eqn:Hp.
  { apply (Hstop e). right. exists source. split; [done|]. right. done. }
  destruct (RunFacts.sound_next dev Hf) as (dev1 & E & _ & _).
  rewrite (executeSync_completed env m d dev dev1 files mapping source device
             sourcePhotos sr Hm Hs Hd Hc Hp E).
  unfold completed. cbn [db].
  apply logSync_keeps_constraints;
    apply (passes_keep_constraints env source m mapping device
             (getSyncedPhotos d m) (photosToSync mapping sourcePhotos)
             (logSync m "sync_start" "in_progress" "Sync started" d, dev1,
              emptyResult m) Hwf1 Huq1).
Qed.

Lemma run_keeps_ledger_constraints_witness :
  let ledger := [row 10 a_jpg remoteA digestA; row 11 b_jpg remoteB digestB] in
  let d := database mirror None ledger in
  let dev := Adb.mkDevice {[ remoteA := digestA; remoteB := digestB ]} [] in
  let s := executeSync (env [b_jpg; c_jpg]) 1 d dev ∅ in
  ledger_wf (db s) ∧ ledger_unique (db s).
Proof.
  intros ledger d dev.
  apply (run_keeps_ledger_constraints (env [b_jpg; c_jpg]) 1 d dev ∅).
  - split; by_compute.
  - by_compute.
Defined.

End OutcomeFacts.

(** ** Splitting on whitespace *)

Module TextFacts.
Import Js JsFacts Text.

Local Arguments String.append : simpl nomatch.

Lemma split_ws_from_cons b s : ∃ t ts, split_ws_from b s = t :: ts.
Proof.
  revert b. induction s as [|c s IH]; intros b; simpl.
  - by eexists _, _.
  - destruct (is_space c).
    + destruct b; [apply IH|by eexists _, _].
    + destruct (IH false) as (t & ts & ->). by eexists _, _.
Qed.


Lemma split_name n r :
  all_chars (λ c, negb (is_space c)) n = true →
  split_ws_from false (n ++ r) =
    match split_ws_from false r with
    | t :: ts => (n ++ t) :: ts
    | [] => [n]
    end.
Proof.
  induction n as [|c n IH]; intros Hn.
  - simpl. by destruct (split_ws_from_cons false r) as (t & ts & ->).
  - simpl in Hn. apply andb_true_iff in Hn as [Hc Hn].
    apply negb_true_iff in Hc.
    change (String c n ++ r) with (String c (n ++ r)).
    cbn [split_ws_from]. rewrite Hc, (IH Hn).
    by destruct (split_ws_from_cons false r) as (t & ts & ->).
Qed.

(** A piece that starts a word is split the same way whether or not
    whitespace came before. *)
Lemma split_ws_from_word b c s :
  is_space c = false →
  split_ws_from b (String c s) = split_ws_from false (String c s).
Proof. intros Hc. simpl. by rewrite Hc. Qed.

Lemma split_run sep r :
  all_chars is_space sep = true →
  split_ws_from true (sep ++ r) = split_ws_from true r.
Proof.
  induction sep as [|c sep IH]; intros Hs; [done|].
  simpl in Hs. apply andb_true_iff in Hs as [Hc Hs].
  change (String c sep ++ r) with (String c (sep ++ r)).
  cbn [split_ws_from]. rewrite Hc. by apply IH.
Qed.

Lemma split_sep sep r :
  sep ≠ EmptyString → all_chars is_space sep = true →
  split_ws_from false (sep ++ r) = EmptyString :: split_ws_from true r.
Proof.
  destruct sep as [|c sep]; [done|]. intros _ Hs.
  simpl in Hs. apply andb_true_iff in Hs as [Hc Hs].
  change (String c sep ++ r) with (String c (sep ++ r)).
  cbn [split_ws_from]. rewrite Hc. f_equal. by apply split_run.
Qed.

Lemma chopped_head name sep rest :
  name ≠ EmptyString →
  ∃ c t, chopped ((name, sep) :: rest) = String c t ∧ name = String c
           (match name with String _ n => n | _ => EmptyString end).
Proof.
  destruct name as [|c n]; [done|]. intros _.
  destruct rest as [|[n2 s2] rest]; simpl; by eexists _, _.
Qed.

Lemma trim_end_run sep r :
  all_chars is_space sep = true →
  trim_end (sep ++ r) =
    match trim_end r with
    | EmptyString => EmptyString
    | t => sep ++ t
    end.
Proof.
  induction sep as [|c sep IH]; intros Hs.
  - simpl. by destruct (trim_end r).
  - simpl in Hs. apply andb_true_iff in Hs as [Hc Hs].
    change (String c sep ++ r) with (String c (sep ++ r)).
    cbn [trim_end]. rewrite (IH Hs).
    destruct (trim_end r) as [|x t]; [by rewrite Hc|].
    destruct sep; done.
Qed.

Lemma trim_end_lines items :
  Forall printed items → trim_end (lines items) = chopped items.
Proof.
  induction items as [|[name sep] rest IH]; intros Hall; [done|].
  apply Forall_cons in Hall as [(Hn & Hnw & Hs & Hsw) Hall]. cbn in Hn, Hnw, Hs, Hsw.
  cbn [lines]. rewrite (JsFacts.trim_end_app _ _ Hnw), (trim_end_run _ _ Hsw).
  rewrite (IH Hall).
  destruct rest as [|[n2 s2] rest].
  - simpl. apply append_nil_r.
  - apply Forall_cons in Hall as [(Hn2 & _) _]. cbn in Hn2.
    change (chopped ((name, sep) :: (n2, s2) :: rest))
      with (name ++ sep ++ chopped ((n2, s2) :: rest)).
    destruct (chopped_head n2 s2 rest Hn2) as (c & t & -> & _). done.
Qed.

Lemma split_chopped items :
  Forall printed items → items ≠ [] →
  split_ws_from false (chopped items) = items.*1.
Proof.
  induction items as [|[name sep] rest IH]; intros Hall Hne; [done|].
  apply Forall_cons in Hall as [(Hn & Hnw & Hs & Hsw) Hall]. cbn in Hn, Hnw, Hs, Hsw.
  destruct rest as [|[n2 s2] rest].
  - cbn [chopped fmap list_fmap fst].
    rewrite <- (append_nil_r name) at 1. rewrite (split_name _ _ Hnw).
    cbn. by rewrite append_nil_r.
  - change (chopped ((name, sep) :: (n2, s2) :: rest))
      with (name ++ sep ++ chopped ((n2, s2) :: rest)).
    rewrite (split_name _ _ Hnw), (split_sep _ _ Hs Hsw).
    pose proof Hall as Hall'.
    apply Forall_cons in Hall' as [(Hn2 & Hn2w & _) _]. cbn in Hn2, Hn2w.
    destruct (chopped_head n2 s2 rest Hn2) as (c & t & Hc & Hn2c).
    rewrite Hc.
    assert (is_space c = false) as Hcw.
    { rewrite Hn2c in Hn2w. simpl in Hn2w.
      apply andb_true_iff in Hn2w as [Hx _]. by apply negb_true_iff in Hx. }
    rewrite (split_ws_from_word true c t Hcw), <- Hc, (IH Hall) by done.
    cbn. by rewrite append_nil_r.
Qed.

Lemma trim_lines items :
  Forall printed items → trim (lines items) = chopped items.
Proof.
  intros Hall. unfold trim. rewrite (trim_end_lines _ Hall).
  destruct items as [|[name sep] rest]; [done|].
  pose proof Hall as Hall'.
  apply Forall_cons in Hall' as [(Hn & Hnw & _) _]. cbn in Hn, Hnw.
  destruct (chopped_head name sep rest Hn) as (c & t & Hc & Hnc).
  rewrite Hc. apply JsFacts.trim_start_id.
  rewrite Hnc in Hnw. simpl in Hnw.
  apply andb_true_iff in Hnw as [Hx _]. by apply negb_true_iff in Hx.
Qed.

End TextFacts.

(** ** The queries of the transport *)

Module AdbQueryFacts.
Import Js Text Adb AdbQueries Devices.

Local Arguments String.append : simpl nomatch.

Lemma query_ok d d1 stdout :
  next_fault d = (NoFault, d1) → query d stdout = (inr (trim stdout), d1).
Proof. unfold query. by intros ->. Qed.


Lemma next_fault_first d :
  (next_fault d).1 = fault_at d 0 ∧ files (next_fault d).2 = files d.
Proof.
  split; [apply AdbFacts.next_fault_at|apply AdbFacts.next_fault_files].
Qed.

Lemma is_entry_spec f :
  is_entry f = true ↔ f ≠ "" ∧ f ≠ "." ∧ f ≠ "..".
Proof.
  unfold is_entry. rewrite !andb_true_iff, !negb_true_iff, !String.eqb_neq.
  rewrite Nat.ltb_lt. destruct f; simpl; split; intros H; split_and?;
    try tauto; try lia; try done; by destruct H as (?&?&?).
Qed.

Lemma filter_is_entry names :
  Forall (λ f, f ≠ "") names →
  List.filter is_entry names = filter (λ f, f ≠ "." ∧ f ≠ "..") names.
Proof.
  induction names as [|f names IH]; intros Hall; [done|].
  apply Forall_cons in Hall as [Hf Hall]. cbn [List.filter].
  destruct (is_entry f) eqn:E.
  - apply is_entry_spec in E as (_ & ? & ?).
    rewrite filter_cons_True by done. by rewrite IH.
  - rewrite filter_cons_False; [by apply IH|].
    intros [? ?]. assert (is_entry f = true) by (by apply is_entry_spec).
    congruence.
Qed.



(** X14.  Over a sound connection, when the device prints ASCII text made
    of names without white space, each followed by white space (one a
    line, or in columns), [listFiles] returns these names in order, less
    [.] and [..].  For ASCII text the bytes printed are the characters
    JavaScript decodes, and its white space is TAB, LF, VT, FF, CR and the
    space. *)
Theorem listFiles_reads_listing (d : Device) (items : list (string * string)) :
  fault_at d 0 = NoFault →
  all_chars is_ascii (lines items) = true →
  Forall printed items →
  (listFiles d (lines items)).1 =
    inr (filter (λ f, f ≠ "." ∧ f ≠ "..") items.*1).
Proof.
  intros Hf _ Hall. unfold listFiles.
  destruct (RunFacts.sound_next d Hf) as (d1 & E & _ & _).
  rewrite (query_ok d d1 _ E), (TextFacts.trim_lines items Hall).
  destruct items as [|[name sep] rest]; [done|].
  pose proof Hall as Hall'.
  apply Forall_cons in Hall' as [(Hn & _) _]. cbn in Hn.
  destruct (TextFacts.chopped_head name sep rest Hn) as (c & t & Hc & _).
  rewrite Hc. cbn [truthy negb fst]. rewrite <- Hc. unfold split_ws.
  rewrite (TextFacts.split_chopped _ Hall) by done.
  f_equal. apply filter_is_entry.
  apply Forall_fmap. eapply Forall_impl; [exact Hall|]. by intros [n s] (? & _).
Qed.

Lemma listFiles_reads_listing_witness :
  let items := [("a.jpg", newline); ("..", "  "); ("b.png", newline)] in
  (listFiles (mkDevice ∅ []) (lines items)).1 = inr ["a.jpg"; "b.png"].
Proof.
  intros items.
  apply (listFiles_reads_listing (mkDevice ∅ []) items).
  - reflexivity.
  - reflexivity.
  - repeat (apply Forall_cons; split; [by vm_compute|]). apply Forall_nil_2.
Defined.

(** X15.  [isDeviceReady] never throws: it answers [true] exactly when
    the connection is sound at the call, and changes no file. *)
Theorem isDeviceReady_tells_connection (d : Device) :
  (isDeviceReady d).1 = inr (bool_decide (fault_at d 0 = NoFault)) ∧
  files (isDeviceReady d).2 = files d.
Proof.
  unfold isDeviceReady. destruct (next_fault d) as [f d1] eqn:E.
  destruct (next_fault_first d) as [Hf Hfs]. rewrite E in Hf, Hfs. cbn in Hf, Hfs.
  destruct (decide (f = NoFault)) as [->|Hne].
  - rewrite (AdbFacts.shell_ok d d1 _ E). cbn [run fst snd files].
    rewrite bool_decide_eq_true_2 by done. split; [|done].
    f_equal.
  - rewrite (AdbFacts.shell_fault d f d1 _ E Hne). cbn [fst snd].
    rewrite bool_decide_eq_false_2 by congruence. done.
Qed.

(** X16.  [detectFrameoPath] answers [/sdcard/frameo_files/media] after
    one transport call, whatever the device holds or prints and whether or
    not it can be reached: [listFiles] never throws, so the first
    candidate is always taken and the other two are never tried. *)
Theorem detectFrameoPath_is_constant (ls : string → string) (d : Device) :
  detectFrameoPath ls d = ("/sdcard/frameo_files/media", (next_fault d).2).
Proof.
  unfold detectFrameoPath, possiblePaths. cbn [detect].
  unfold listFiles, query.
  destruct (next_fault d) as [[| |] d1]; cbn [snd]; try done.
  by destruct (negb (truthy (trim (ls "/sdcard/frameo_files/media")))).
Qed.

(** X17.  After [pushFile] over a sound connection, [getFileHash] at the
    same path answers the digest of the file pushed (a hexadecimal digest),
    when the path is one the device's shell takes literally between the
    double quotes of [md5sum] (no [$], backquote, double quote or
    backslash in it) and is without the text "No such file". *)
Theorem pushed_file_is_found (d : Device) (l h p : string) :
  fault_at d 0 = NoFault → fault_at d 1 = NoFault →
  literal p = true →
  hex_digest h = true → includes "No such file" p = false →
  (pushFile d l (Some h) p).1 = inr (mkPushResult true p "") ∧
  (getFileHash (pushFile d l (Some h) p).2 p).1 = inr (Some h).
Proof.
  intros H0 H1 Hlit Hh Hp.
  destruct (RunFacts.sound_next d H0) as (d1 & E & Hfl & _).
  rewrite (AdbFacts.pushFile_ok d d1 l h p E). cbn [fst snd]. split; [done|].
  set (d2 := mkDevice _ _).
  rewrite (AdbFacts.getFileHash_present d2 p h); [done|done| | |done|done].
  - destruct (AdbFacts.next_fault_at d2) as [-> _].
    unfold fault_at, d2. cbn [faults]. rewrite Hfl.
    rewrite AdditionFacts.nth_drop. exact H1.
  - unfold d2. cbn [files]. apply lookup_insert_eq.
Qed.

Lemma pushed_file_is_found_witness :
  let h := "0cc175b9c0f1b6a831c399e269772661" in
  let p := "/sdcard/DCIM/FrameoSync/0cc175b9c0f1b6a831c399e269772661.jpeg" in
  let l := "/photos/temp/1/a.jpg.jpeg" in
  (pushFile (mkDevice ∅ []) l (Some h) p).1 = inr (mkPushResult true p "") ∧
  (getFileHash (pushFile (mkDevice ∅ []) l (Some h) p).2 p).1 = inr (Some h).
Proof.
  intros h p l. apply (pushed_file_is_found (mkDevice ∅ []) l h p); reflexivity.
Defined.



End AdbQueryFacts.

(** ** The scheduler *)

Module CronFacts.
Import Engine Scheduler Cron.

(** [scheduleMapping] replaces the task of the mapping, or does nothing. *)
Lemma scheduleMapping_tasks validate mapping s :
  scheduleMapping validate mapping s =
    match accepted validate mapping with
    | Some expr =>
        mkScheduler (<[mapping_id mapping := expr]> (tasks s)) (isRunning s)
    | None => s
    end.
Proof.
  unfold scheduleMapping, accepted.
  destruct (schedule mapping) as [expr|]; [|done].
  destruct (Js.truthy expr); [|done]. cbn [negb andb].
  destruct (validate expr); [|done]. cbn [negb].
  unfold unscheduleMapping. cbn [tasks isRunning].
  by rewrite insert_delete_eq.
Qed.

Lemma find_mapping_None l id :
  id ∉ mapping_id <$> l →
  List.find (λ m, Nat.eqb (mapping_id m) id) l = None.
Proof.
  induction l as [|mp l IH]; intros Hn; [done|].
  cbn [List.find]. destruct (Nat.eqb (mapping_id mp) id) eqn:E.
  - apply Nat.eqb_eq in E. exfalso. apply Hn. rewrite fmap_cons, <- E. by left.
  - apply IH. intros Hin. apply Hn. rewrite fmap_cons. by right.
Qed.

Lemma start_fold validate l acc :
  NoDup (mapping_id <$> l) →
  let due := List.filter (λ mp, isActive mp &&
                            match schedule mp with
                            | Some e => Js.truthy e
                            | None => false
                            end) l in
  let s' := foldl (λ acc mapping, scheduleMapping validate mapping acc) acc due in
  isRunning s' = isRunning acc ∧
  ∀ id, tasks s' !! id =
    match List.find (λ m, Nat.eqb (mapping_id m) id) l with
    | Some mp =>
        match accepted validate mp with
        | Some expr => if isActive mp then Some expr else tasks acc !! id
        | None => tasks acc !! id
        end
    | None => tasks acc !! id
    end.
Proof.
  revert acc. induction l as [|mp l IH]; intros acc Hnd; [done|].
  rewrite fmap_cons in Hnd. apply NoDup_cons in Hnd as [Hfresh Hnd].
  cbn [List.filter List.find].
  destruct (isActive mp &&
            match schedule mp with Some e => Js.truthy e | None => false end)
    eqn:Edue.
  - cbn [foldl].
    destruct (IH (scheduleMapping validate mp acc) Hnd) as [Hrun Htasks].
    cbv zeta in Hrun, Htasks. split.
    + rewrite Hrun, scheduleMapping_tasks. by destruct (accepted validate mp).
    + intros id. rewrite Htasks.
      apply andb_true_iff in Edue as [Hact _].
      destruct (Nat.eqb (mapping_id mp) id) eqn:E.
      * apply Nat.eqb_eq in E. subst id.
        rewrite (find_mapping_None l _ Hfresh), Hact, scheduleMapping_tasks.
        destruct (accepted validate mp); [|done].
        cbn [tasks]. by rewrite lookup_insert_eq.
      * apply Nat.eqb_neq in E.
        assert (tasks (scheduleMapping validate mp acc) !! id = tasks acc !! id)
          as ->; [|done].
        rewrite scheduleMapping_tasks. destruct (accepted validate mp); [|done].
        cbn [tasks]. by rewrite lookup_insert_ne.
  - destruct (IH acc Hnd) as [Hrun Htasks]. cbv zeta in Hrun, Htasks.
    split; [done|]. intros id. rewrite Htasks.
    destruct (Nat.eqb (mapping_id mp) id) eqn:E; [|done].
    apply Nat.eqb_eq in E. subst id. rewrite (find_mapping_None l _ Hfresh).
    unfold accepted. destruct (isActive mp); [|by destruct (schedule mp) as [e|];
      [destruct (Js.truthy e && validate e)|]].
    cbn [andb] in Edue. destruct (schedule mp) as [e|]; [|done].
    by rewrite Edue.
Qed.

(** X19.  [start] on a scheduler that is not running sets [isRunning]
    and registers a task for exactly the mappings that are active and have
    a schedule that is not empty and that [cron.validate] accepts, each
    under its expression; the task of any other identifier is what it was
    before. *)
Theorem start_schedules_active (validate : string → bool) (d : Db)
    (s : SyncScheduler) :
  isRunning s = false →
  NoDup (mapping_id <$> sync_mappings d) →
  let s' := start validate d s in
  isRunning s' = true ∧
  ∀ id, tasks s' !! id =
    match getMapping d id with
    | Some mp =>
        match accepted validate mp with
        | Some expr => if isActive mp then Some expr else tasks s !! id
        | None => tasks s !! id
        end
    | None => tasks s !! id
    end.
Proof.
  intros Hoff Hnd s'. subst s'. unfold start. rewrite Hoff.
  destruct (start_fold validate (sync_mappings d) (mkScheduler (tasks s) true) Hnd)
    as [Hrun Htasks].
  split; [exact Hrun|]. intros id. apply Htasks.
Qed.

Lemma start_schedules_active_witness :
  let hourly := mkMapping 1 2 3 add_only None (Some "0 * * * *") true in
  let paused := mkMapping 4 2 5 add_only None (Some "0 * * * *") false in
  let broken := mkMapping 6 2 7 mirror None (Some "every hour") true in
  let d := mkDb [hourly; paused; broken] [] [] [] [] 100 in
  let validate := λ e, String.eqb e "0 * * * *" in
  let s' := start validate d (mkScheduler ∅ false) in
  isRunning s' = true ∧
  ∀ id, tasks s' !! id =
    match getMapping d id with
    | Some mp =>
        match accepted validate mp with
        | Some expr =>
            if isActive mp then Some expr
            else tasks (mkScheduler ∅ false) !! id
        | None => tasks (mkScheduler ∅ false) !! id
        end
    | None => tasks (mkScheduler ∅ false) !! id
    end.
Proof.
  intros hourly paused broken d validate.
  apply (start_schedules_active validate d (mkScheduler ∅ false)).
  - reflexivity.
  - by_compute.
Defined.

(** X20.  A second [start] changes nothing, whatever the database holds
    by then: mappings are loaded by the first [start] only. *)
Theorem start_is_done_once (validate : string → bool) (d d' : Db)
    (s : SyncScheduler) :
  start validate d' (start validate d s) = start validate d s.
Proof.
  assert (isRunning (start validate d s) = true) as Hrun.
  { unfold start. destruct (isRunning s) eqn:E; [done|].
    induction (List.filter _ (sync_mappings d)) as [|mp l IH] using rev_ind;
      [done|].
    rewrite foldl_snoc, scheduleMapping_tasks.
    by destruct (accepted validate mp). }
  unfold start at 1. by rewrite Hrun.
Qed.

(** X21.  After [start] and [stop] the scheduler is not running and holds
    no task, so that no cron callback starts a run any more. *)
Theorem stop_silences_every_task (validate : string → bool) (d : Db)
    (s : SyncScheduler) (runs : list uuid) (id : uuid) :
  let stopped := stop (start validate d s) in
  tasks stopped = ∅ ∧
  isRunning stopped = false ∧
  cronFires id (mkProcess stopped runs) = mkProcess stopped runs.
Proof.
  assert (isRunning (start validate d s) = true) as Hrun.
  { unfold start. destruct (isRunning s) eqn:E; [done|].
    induction (List.filter _ (sync_mappings d)) as [|mp l IH] using rev_ind;
      [done|].
    rewrite foldl_snoc, scheduleMapping_tasks.
    by destruct (accepted validate mp). }
  cbv zeta. unfold stop. rewrite Hrun. split_and!; [done|done|].
  unfold cronFires. cbn [scheduler tasks]. by rewrite lookup_empty.
Qed.

End CronFacts.

(** ** The creation of mappings *)

Module MappingFacts.
Import Engine Scheduler Mappings.

Lemma find_app_fresh l row id :
  id ∉ mapping_id <$> l → mapping_id row = id →
  List.find (λ m, Nat.eqb (mapping_id m) id) (l ++ [row]) = Some row.
Proof.
  intros Hn Hrow. induction l as [|mp l IH].
  - cbn. by rewrite Hrow, Nat.eqb_refl.
  - cbn [app List.find]. destruct (Nat.eqb (mapping_id mp) id) eqn:E.
    + apply Nat.eqb_eq in E. exfalso. apply Hn. rewrite fmap_cons, <- E. by left.
    + apply IH. intros Hin. apply Hn. rewrite fmap_cons. by right.
Qed.

Lemma find_app_other l row id :
  mapping_id row ≠ id →
  List.find (λ m, Nat.eqb (mapping_id m) id) (l ++ [row]) =
    List.find (λ m, Nat.eqb (mapping_id m) id) l.
Proof.
  intros Hrow. induction l as [|mp l IH].
  - cbn. apply Nat.eqb_neq in Hrow. by rewrite Hrow.
  - cbn [app List.find]. by destruct (Nat.eqb (mapping_id mp) id).
Qed.

Lemma insertError_None row d :
  insertError row d = None ↔
    (mapping_id row ∉ mapping_id <$> sync_mappings d) ∧
    ((sourceId row, deviceId row) ∉
       (λ m, (sourceId m, deviceId m)) <$> sync_mappings d) ∧
    (sourceId row ∈ source_id <$> sources d) ∧
    (deviceId row ∈ device_id <$> devices d).
Proof.
  unfold insertError.
  destruct (bool_decide _) eqn:E1.
  { apply bool_decide_eq_true in E1. split; [done|]. by intros [? _]. }
  apply bool_decide_eq_false in E1.
  destruct (bool_decide _) eqn:E2.
  { apply bool_decide_eq_true in E2. split; [done|]. by intros (_ & ? & _). }
  apply bool_decide_eq_false in E2.
  destruct (bool_decide _) eqn:E3.
  - apply bool_decide_eq_true in E3.
    destruct (bool_decide _) eqn:E4.
    + apply bool_decide_eq_true in E4. done.
    + apply bool_decide_eq_false in E4. split; [done|]. by intros (_ & _ & _ & ?).
  - apply bool_decide_eq_false in E3. split; [done|]. by intros (_ & _ & ? & _).
Qed.

Lemma createMapping_ok (input : MappingInput) (d : Db) :
  mappings_wf d →
  input_sourceId input ∈ source_id <$> sources d →
  input_deviceId input ∈ device_id <$> devices d →
  (input_sourceId input, input_deviceId input) ∉
    (λ m, (sourceId m, deviceId m)) <$> sync_mappings d →
  let id := next_uuid d in
  let row := mkMapping id (input_sourceId input) (input_deviceId input)
               (default add_only (input_syncMode input))
               (input_maxPhotos input) (input_schedule input) true in
  let d' := mkDb (sync_mappings d ++ [row]) (sources d) (devices d)
                 (synced_photos d) (sync_logs d) (S id) in
  createMapping input d = (inr (Some row), d') ∧
  getMapping d' id = Some row ∧
  (∀ k, k ≠ id → getMapping d' k = getMapping d k) ∧
  mappings_wf d'.
Proof.
  intros [Hnd Hlt] Hs Hd Hpair id row d'. unfold createMapping.
  cbn [generateId]. fold id. fold row.
  set (d1 := mkDb _ _ _ _ _ (S id)).
  assert (id ∉ mapping_id <$> sync_mappings d) as Hfresh.
  { intros (mp & Hmp & Hin)%list_elem_of_fmap. rewrite Forall_forall in Hlt.
    specialize (Hlt mp Hin). unfold id in Hmp. lia. }
  assert (insertError row d1 = None) as ->.
  { by apply insertError_None. }
  assert (getMapping d' id = Some row) as Hget.
  { unfold getMapping. cbn [sync_mappings d'].
    by rewrite (find_app_fresh _ row id Hfresh eq_refl). }
  split_and!.
  - unfold d1. cbn [sync_mappings sources devices synced_photos sync_logs
                    next_uuid]. fold d'. by rewrite Hget.
  - done.
  - intros k Hk. unfold getMapping. cbn [sync_mappings d'].
    apply find_app_other. cbn. congruence.
  - split; cbn [sync_mappings next_uuid d'].
    + rewrite fmap_app. apply NoDup_app. split_and!; [done| |apply NoDup_singleton].
      intros x Hx Hx'. apply list_elem_of_singleton in Hx'. cbn in Hx'.
      subst x. done.
    + apply Forall_app. split.
      * eapply Forall_impl; [exact Hlt|]. intros mp Hmp. simpl in Hmp.
        unfold id. lia.
      * apply Forall_singleton. cbn. unfold id. lia.
Qed.

Lemma createMapping_rejected (input : MappingInput) (d : Db) :
  ¬ ((input_sourceId input ∈ source_id <$> sources d) ∧
     (input_deviceId input ∈ device_id <$> devices d) ∧
     ((input_sourceId input, input_deviceId input) ∉
        (λ m, (sourceId m, deviceId m)) <$> sync_mappings d)) →
  ∃ e d', createMapping input d = (inl e, d') ∧
          sync_mappings d' = sync_mappings d.
Proof.
  intros Hbad. unfold createMapping. cbn [generateId].
  set (row := mkMapping _ _ _ _ _ _ _). set (d1 := mkDb _ _ _ _ _ _).
  destruct (insertError row d1) as [e|] eqn:E; [by eexists _, _|].
  apply insertError_None in E as (_ & H2 & H3 & H4). exfalso. by apply Hbad.
Qed.

(** X22.  [createMapping] succeeds exactly when the source and the device
    exist and no mapping joins the two yet.  Then the mapping is stored
    under a fresh identifier and read back with the fields given,
    [add_only] where no mode is given, and active; every other mapping is
    read as before and the primary key stays unique.  Otherwise the insert
    throws and [sync_mappings] is unchanged. *)
Theorem createMapping_stores_the_mapping (input : MappingInput) (d : Db) :
  mappings_wf d →
  let id := next_uuid d in
  let row := mkMapping id (input_sourceId input) (input_deviceId input)
               (default add_only (input_syncMode input))
               (input_maxPhotos input) (input_schedule input) true in
  let accepts :=
    (input_sourceId input ∈ source_id <$> sources d) ∧
    (input_deviceId input ∈ device_id <$> devices d) ∧
    ((input_sourceId input, input_deviceId input) ∉
       (λ m, (sourceId m, deviceId m)) <$> sync_mappings d) in
  let d' := (createMapping input d).2 in
  (accepts →
     (createMapping input d).1 = inr (Some row) ∧
     getMapping d' id = Some row ∧
     (∀ k, k ≠ id → getMapping d' k = getMapping d k) ∧
     mappings_wf d') ∧
  (¬ accepts →
     (∃ e, (createMapping input d).1 = inl e) ∧
     sync_mappings d' = sync_mappings d).
Proof.
  intros Hwf id row accepts d'. split.
  - intros (Hs & Hd & Hpair).
    destruct (createMapping_ok input d Hwf Hs Hd Hpair) as (E & H2 & H3 & H4).
    subst d'. rewrite E. cbn [fst snd]. done.
  - intros Hbad.
    destruct (createMapping_rejected input d Hbad) as (e & d2 & E & Hrows).
    subst d'. rewrite E. cbn [fst snd]. split; [by eexists|done].
Qed.

Lemma createMapping_stores_the_mapping_witness :
  let d := mkDb [] [mkSource 2 "local_folder" None]
                [mkDeviceRecord 3 "FRAMEO0001" "/sdcard/DCIM/FrameoSync"]
                [] [] 100 in
  let input := mkInput 2 3 None (Some (-1)%Z) (Some "every hour") in
  let row := mkMapping 100 2 3 add_only (Some (-1)%Z) (Some "every hour") true in
  (createMapping input d).1 = inr (Some row) ∧
  getMapping (createMapping input d).2 100 = Some row ∧
  (∀ k, k ≠ 100 → getMapping (createMapping input d).2 k = getMapping d k) ∧
  mappings_wf (createMapping input d).2.
Proof.
  intros d input row.
  apply (createMapping_stores_the_mapping input d).
  - split; by_compute.
  - split_and!; by_compute.
Defined.

(** X23.  For a body whose fields have the types [createMapping] takes,
    [POST /mappings] answers 400 and does nothing when [sourceId] or
    [deviceId] is missing; 500, with [sync_mappings] and the scheduler
    unchanged, when the insert is refused (unknown source or device, pair
    mapped already); and 201 otherwise, the mapping stored as sent
    ([maxPhotos] and [schedule] unchecked).  A task is registered only when
    the schedule is not empty and [cron.validate] accepts it: a mapping
    with a schedule that is refused is created all the same and never
    runs on its own. *)
Theorem postMapping_outcomes (validate : string → bool) (body : MappingBody)
    (d : Db) (s : SyncScheduler) :
  mappings_wf d →
  let out := postMapping validate body d s in
  (body_sourceId body = None ∨ body_deviceId body = None →
     out = (mkResponse 400 None, d, s)) ∧
  (∀ sid did,
     body_sourceId body = Some sid → body_deviceId body = Some did →
     ¬ ((sid ∈ source_id <$> sources d) ∧ (did ∈ device_id <$> devices d) ∧
        ((sid, did) ∉ (λ m, (sourceId m, deviceId m)) <$> sync_mappings d)) →
     status out.1.1 = 500 ∧ sync_mappings out.1.2 = sync_mappings d ∧
     out.2 = s) ∧
  (∀ sid did,
     body_sourceId body = Some sid → body_deviceId body = Some did →
     sid ∈ source_id <$> sources d → did ∈ device_id <$> devices d →
     (sid, did) ∉ (λ m, (sourceId m, deviceId m)) <$> sync_mappings d →
     let row := mkMapping (next_uuid d) sid did
                  (default add_only (body_syncMode body))
                  (body_maxPhotos body) (body_schedule body) true in
     out.1.1 = mkResponse 201 (Some row) ∧
     getMapping out.1.2 (next_uuid d) = Some row ∧
     out.2 = match body_schedule body with
             | Some e =>
                 if Js.truthy e && validate e
                 then mkScheduler (<[next_uuid d := e]> (tasks s)) (isRunning s)
                 else s
             | None => s
             end).
Proof.
  intros Hwf out. subst out. unfold postMapping. split_and!.
  - intros [-> | ->]; [done|]. by destruct (body_sourceId body).
  - intros sid did -> -> Hbad.
    destruct (createMapping_rejected
                (mkInput sid did (body_syncMode body) (body_maxPhotos body)
                   (body_schedule body)) d Hbad) as (e & d2 & -> & Hrows).
    done.
  - intros sid did -> -> Hs Hd Hpair.
    destruct (createMapping_ok
                (mkInput sid did (body_syncMode body) (body_maxPhotos body)
                   (body_schedule body)) d Hwf Hs Hd Hpair) as (-> & Hget & _).
    cbn [fst snd input_sourceId input_deviceId input_syncMode input_maxPhotos
         input_schedule] in *.
    split_and!; [done|done|].
    destruct (body_schedule body) as [e|] eqn:Hb; [|done].
    unfold scheduleMapping. cbn [schedule].
    destruct (Js.truthy e); [|done]. cbn [negb andb].
    destruct (validate e); [|done]. cbn [negb].
    unfold unscheduleMapping. cbn [tasks isRunning mapping_id].
    by rewrite insert_delete_eq.
Qed.

Lemma postMapping_outcomes_witness :
  let d := mkDb [] [mkSource 2 "local_folder" None]
                [mkDeviceRecord 3 "FRAMEO0001" "/sdcard/DCIM/FrameoSync"]
                [] [] 100 in
  let body := mkBody (Some 2) (Some 3) None None (Some "every hour") in
  let validate := λ e, String.eqb e "0 * * * *" in
  let s := mkScheduler ∅ true in
  let out := postMapping validate body d s in
  out.1.1 = mkResponse 201
              (Some (mkMapping 100 2 3 add_only None (Some "every hour") true)) ∧
  getMapping out.1.2 100 =
    Some (mkMapping 100 2 3 add_only None (Some "every hour") true) ∧
  out.2 = s.
Proof.
  intros d body validate s.
  assert (mappings_wf d) as Hwf by (split; by_compute).
  apply (proj2 (proj2 (postMapping_outcomes validate body d s Hwf)) 2 3).
  - reflexivity.
  - reflexivity.
  - by_compute.
  - by_compute.
  - by_compute.
Defined.

End MappingFacts.

(** ** The listing of a local folder *)

Module FolderFacts.
Import Engine Folder.

Section Paths.
Context (join : string → string → string) (extname toLowerCase : string → string).

Local Abbreviation scanEntry := (scanEntry join extname toLowerCase).
Local Abbreviation scanEntries := (scanEntries join extname toLowerCase).
Local Abbreviation scanDirectory := (scanDirectory join extname toLowerCase).
Local Abbreviation wanted := (wanted extname toLowerCase).

Lemma scanEntry_Dir extensions deep dirPath name content :
  scanEntry extensions deep dirPath (Dir name content) =
    inr (if deep then scanDirectory extensions deep (join dirPath name) content
         else []).
Proof.
  cbn [Folder.scanEntry]. destruct deep; [|done]. f_equal.
  destruct content as [e|entries]; [done|]. cbn [Folder.scanDirectory].
  induction entries as [|e' es IH]; [done|]. cbn [Folder.scanEntries].
  destruct (scanEntry extensions true (join dirPath name) e'); [done|].
  by rewrite IH.
Qed.

Lemma scanEntry_readable extensions deep dirPath e :
  readable e → ∃ ps, scanEntry extensions deep dirPath e = inr ps.
Proof.
  destruct e as [name [err|digest]|name content|name]; intros Hr.
  - done.
  - cbn. destruct (wanted extensions name); by eexists.
  - rewrite scanEntry_Dir. by eexists.
  - by eexists.
Qed.

Lemma scanEntries_app extensions deep dirPath es1 es2 :
  Forall readable es1 →
  scanEntries extensions deep dirPath (es1 ++ es2) =
    (scanEntries extensions deep dirPath es1
       ++ scanEntries extensions deep dirPath es2)%list.
Proof.
  induction es1 as [|e es1 IH]; intros Hall; [done|].
  apply Forall_cons in Hall as [He Hall].
  cbn [app Folder.scanEntries].
  destruct (scanEntry_readable extensions deep dirPath e He) as (ps & ->).
  by rewrite IH, app_assoc.
Qed.

(** X25.  A wanted file that [stat] or the hashing fails on ends the scan
    of its directory: the listing holds what was collected before it, the
    entries after it are not looked at, and no error is raised. *)
Theorem unreadable_file_hides_the_rest extensions deep dirPath
    (before after : list Entry) (name err : string) :
  Forall readable before →
  wanted extensions name = true →
  scanDirectory extensions deep dirPath
    (inr (before ++ File name (inl err) :: after)%list) =
  scanDirectory extensions deep dirPath (inr before).
Proof.
  intros Hall Hw. cbn [Folder.scanDirectory].
  rewrite (scanEntries_app _ _ _ _ _ Hall).
  cbn [Folder.scanEntries Folder.scanEntry]. rewrite Hw.
  apply app_nil_r.
Qed.

(** X24.  When every file of a folder can be read, the scan without
    recursion lists exactly its files with a wanted extension, in the order
    of [readdir], each under its joined path as identifier and as path;
    subdirectories and other entries are passed over. *)
Theorem flat_scan_lists_wanted_files extensions dirPath (entries : list Entry) :
  Forall readable entries →
  scanDirectory extensions false dirPath (inr entries) =
    omap (λ e, match e with
               | File name _ =>
                   if wanted extensions name
                   then Some (photoOf join dirPath name) else None
               | _ => None
               end) entries.
Proof.
  intros Hall. cbn [Folder.scanDirectory].
  induction entries as [|e es IH]; [done|].
  apply Forall_cons in Hall as [He Hall].
  cbn [Folder.scanEntries omap list_omap]. rewrite (IH Hall).
  destruct e as [name [err|digest]|name content|name]; [done| | |done].
  - cbn [Folder.scanEntry]. by destruct (wanted extensions name).
  - by rewrite scanEntry_Dir.
Qed.

(** X26.  Whatever the tree and the depth of the scan, every photo listed
    has its path as identifier, a name with a wanted extension, and a path
    that is the join of a directory and its name. *)
Theorem scan_lists_files_by_path extensions deep dirPath
    (content : Exn (list Entry)) (photo : PhotoInfo) :
  photo ∈ scanDirectory extensions deep dirPath content →
  photo_id photo = photo_path photo ∧
  wanted extensions (photo_name photo) = true ∧
  ∃ dir, photo_path photo = join dir (photo_name photo).
Proof.
  assert (∀ e, ∀ dir ps, scanEntry extensions deep dir e = inr ps →
            ∀ photo, photo ∈ ps →
              photo_id photo = photo_path photo ∧
              wanted extensions (photo_name photo) = true ∧
              ∃ dir', photo_path photo = join dir' (photo_name photo)) as Hentry.
  { intros e. induction e as [name read|name content' IH|name]
      using Entry_tree_ind; intros dir ps Hps ph Hph.
    - cbn [Folder.scanEntry] in Hps.
      destruct (wanted extensions name) eqn:Hw.
      + destruct read as [err|digest]; [done|]. inversion Hps; subst ps.
        apply list_elem_of_singleton in Hph as ->. cbn.
        split_and!; [done|done|by eexists].
      + inversion Hps; subst ps. by apply elem_of_nil in Hph.
    - rewrite scanEntry_Dir in Hps. inversion Hps; subst ps. clear Hps.
      destruct deep; [|by apply elem_of_nil in Hph].
      destruct content' as [err|entries]; [by apply elem_of_nil in Hph|].
      cbn [Folder.scanDirectory] in Hph.
      induction entries as [|e' es IHes]; [by apply elem_of_nil in Hph|].
      apply Forall_cons in IH as [IHe IH].
      cbn [Folder.scanEntries] in Hph.
      destruct (scanEntry extensions true (join dir name) e') as [err|ps'] eqn:E;
        [by apply elem_of_nil in Hph|].
      apply elem_of_app in Hph as [Hph|Hph].
      + by eapply IHe.
      + by apply IHes.
    - inversion Hps; subst ps. by apply elem_of_nil in Hph. }
  destruct content as [err|entries]; cbn [Folder.scanDirectory].
  { intros H. by apply elem_of_nil in H. }
  induction entries as [|e es IH]; cbn [Folder.scanEntries].
  { intros H. by apply elem_of_nil in H. }
  destruct (scanEntry extensions deep dirPath e) as [err|ps] eqn:E.
  { intros H. by apply elem_of_nil in H. }
  intros [Hph|Hph]%elem_of_app; [by eapply Hentry|by apply IH].
Qed.

Lemma photosToSync_nil mapping : photosToSync mapping [] = [].
Proof.
  unfold photosToSync, slice0. destruct (maxPhotos mapping) as [n|]; [|done].
  destruct (n =? 0)%Z; [done|]. destruct (n <? 0)%Z; apply take_nil.
Qed.

(** X27.  When the folder of a [LocalFolderSource] cannot be read, the
    listing is empty instead of an error, and a run in mirror mode over a
    sound connection removes every ledger entry of the mapping and reports
    success; it leaves no file at the remote path of an entry when that
    path is one the device's shell takes literally between the double
    quotes of [rm -f] (no [$], backquote, double quote or backslash in
    it). *)
Theorem unreadable_folder_empties_frame env m d dev files mapping config
    download leaves device (e : string) :
  resolves env d m mapping
    (source join extname toLowerCase config (inl e) download leaves) device [] →
  syncMode mapping = mirror →
  ledger_wf d →
  Adb.live dev →
  let s := executeSync env m d dev files in
  getSyncedPhotos (db s) m = [] ∧
  photosRemoved (result s) = length (getSyncedPhotos d m) ∧
  success (result s) = true ∧
  ∀ row, row ∈ getSyncedPhotos d m →
         Adb.literal (syncedDevicePath row) = true →
         Adb.files (adb s) !! syncedDevicePath row = None.
Proof.
  intros Hres Hmode Hwf Hlive s.
  set (src := source join extname toLowerCase config (inl e) download leaves) in *.
  destruct (MirrorLive.live_next dev Hlive) as (dev1 & Hnf & Hl1 & Hfs1).
  destruct (EngineSteps.executeSync_run env m d dev dev1 files mapping src
              device [] Hres Hnf) as (Hrows & Hadb & _ & Hr).
  fold s in Hrows, Hadb, Hr.
  rewrite RunFacts.passes_fold, photosToSync_nil, Hmode in Hrows, Hadb, Hr.
  cbn [foldl] in Hrows, Hadb, Hr.
  assert (toRemove (getSyncedPhotos d m) [] = getSyncedPhotos d m) as Hall.
  { unfold toRemove. apply LedgerFacts.filter_all. apply Forall_forall.
    intros row _. cbn. apply not_elem_of_empty. }
  rewrite Hall in Hrows, Hadb, Hr.
  set (d1 := logSync m "sync_start" "in_progress" "Sync started" d) in *.
  destruct (LedgerFacts.removal_fold (getSyncedPhotos d m) d1 dev1 (emptyResult m))
    as (Hrem & _ & Hres2).
  destruct (LedgerFacts.removal_fold_live (getSyncedPhotos d m) d1 dev1
              (emptyResult m) Hl1) as (_ & Hfiles).
  cbv zeta in Hrem, Hres2, Hfiles.
  destruct (LedgerFacts.iter_add_removed (length (getSyncedPhotos d m))
              (emptyResult m)) as (H1 & _ & _ & H4).
  split_and!.
  - unfold getSyncedPhotos at 1. rewrite Hrows, Hrem.
    change (synced_photos d1) with (synced_photos d).
    rewrite list_filter_filter. apply IdempotenceFacts.filter_none.
    apply Forall_forall. intros row Hrow [Hm Hid]. apply Hid.
    apply list_elem_of_fmap. exists row. split; [done|].
    by apply list_elem_of_filter.
  - rewrite Hr, Hres2. unfold set_success. cbn [photosRemoved]. by rewrite H1.
  - rewrite Hr, Hres2. unfold set_success. cbn [success]. rewrite H4.
    by apply bool_decide_eq_true.
  - intros row Hrow Hlit. rewrite Hadb, Hfiles. rewrite decide_True; [done|].
    apply list_elem_of_filter. split; [done|].
    apply list_elem_of_fmap. by exists row.
Qed.

End Paths.

End FolderFacts.

(** ** The listing of the example folder *)

Module FolderExamples.
Import Engine Folder FolderFacts.

Lemma flat_scan_lists_wanted_files_witness :
  let entries := [File "a.JPG" (inr Scenes.digestA); File "notes.txt" (inr "");
                  Dir "2023" (inr [File "b.jpg" (inr Scenes.digestB)]);
                  Other "pipe"; File "c.png" (inr Scenes.digestC)] in
  scanDirectory FolderScenes.join FolderScenes.extname FolderScenes.toLowerCase
    DEFAULT_EXTENSIONS false "/photos/in" (inr entries) =
  [mkPhoto "/photos/in/a.JPG" "a.JPG" "/photos/in/a.JPG";
   mkPhoto "/photos/in/c.png" "c.png" "/photos/in/c.png"].
Proof.
  intros entries.
  apply (flat_scan_lists_wanted_files FolderScenes.join FolderScenes.extname
           FolderScenes.toLowerCase DEFAULT_EXTENSIONS "/photos/in" entries).
  repeat (apply Forall_cons; split; [exact I|]). apply Forall_nil_2.
Defined.

Lemma unreadable_file_hides_the_rest_witness :
  let before := [File "a.jpg" (inr Scenes.digestA)] in
  let after := [File "c.jpg" (inr Scenes.digestC)] in
  scanDirectory FolderScenes.join FolderScenes.extname FolderScenes.toLowerCase
    DEFAULT_EXTENSIONS false "/photos/in"
    (inr (before ++ File "b.jpg" (inl "EACCES: permission denied") :: after)%list) =
  scanDirectory FolderScenes.join FolderScenes.extname FolderScenes.toLowerCase
    DEFAULT_EXTENSIONS false "/photos/in" (inr before).
Proof.
  intros before after.
  apply (unreadable_file_hides_the_rest FolderScenes.join FolderScenes.extname
           FolderScenes.toLowerCase DEFAULT_EXTENSIONS false "/photos/in"
           before after "b.jpg" "EACCES: permission denied").
  - repeat (apply Forall_cons; split; [exact I|]). apply Forall_nil_2.
  - reflexivity.
Defined.

Lemma scan_lists_files_by_path_witness :
  let tree : Exn (list Entry) :=
    inr [Dir "2023" (inr [File "b.jpg" (inr Scenes.digestB)])] in
  let photo := mkPhoto "/photos/in/2023/b.jpg" "b.jpg" "/photos/in/2023/b.jpg" in
  photo_id photo = photo_path photo ∧
  wanted FolderScenes.extname FolderScenes.toLowerCase DEFAULT_EXTENSIONS
    (photo_name photo) = true ∧
  ∃ dir, photo_path photo = FolderScenes.join dir (photo_name photo).
Proof.
  intros tree photo.
  apply (scan_lists_files_by_path FolderScenes.join FolderScenes.extname
           FolderScenes.toLowerCase DEFAULT_EXTENSIONS true "/photos/in" tree photo).
  by_compute.
Defined.

Lemma unreadable_folder_empties_frame_witness :
  let ledger := [Scenes.row 10 Scenes.a_jpg Scenes.remoteA Scenes.digestA;
                 Scenes.row 11 Scenes.b_jpg Scenes.remoteB Scenes.digestB] in
  let d := Scenes.database mirror None ledger in
  let dev := Adb.mkDevice {[ Scenes.remoteA := Scenes.digestA;
                             Scenes.remoteB := Scenes.digestB ]} [] in
  let s := executeSync
             (FolderScenes.env
                (inl "ENOENT: no such file or directory, scandir '/photos/in'"))
             1 d dev ∅ in
  getSyncedPhotos (db s) 1 = [] ∧
  photosRemoved (result s) = length (getSyncedPhotos d 1) ∧
  success (result s) = true ∧
  ∀ row, row ∈ getSyncedPhotos d 1 →
         Adb.literal (syncedDevicePath row) = true →
         Adb.files (adb s) !! syncedDevicePath row = None.
Proof.
  intros ledger d dev.
  apply (unreadable_folder_empties_frame FolderScenes.join FolderScenes.extname
           FolderScenes.toLowerCase
           (FolderScenes.env
              (inl "ENOENT: no such file or directory, scandir '/photos/in'"))
           1 d dev ∅
           (Scenes.the_mapping mirror None) FolderScenes.config
           FolderScenes.download (λ _, None) Scenes.frame
           "ENOENT: no such file or directory, scandir '/photos/in'").
  - exists (mkSource 2 "local_folder" None). by vm_compute.
  - reflexivity.
  - split; by_compute.
  - constructor.
Defined.

End FolderExamples.

(** ** The listing of a Google Photos library *)

Module GoogleFacts.
Import Engine Google.

Lemma getPhotosFrom_serves api pageToken pages ending :
  serves api pageToken pages ending →
  ∀ calls photoList, length pages < calls →
    getPhotosFrom calls api pageToken photoList =
      Some match ending with
           | None => inr (photoList ++ concat (photosOf <$> pages))%list
           | Some e => inl e
           end.
Proof.
  induction 1 as [tok page Hpage Hend|tok e He|tok page t rest ending Hpage Ht Htt _ IH];
    intros calls photoList Hcalls.
  - destruct calls as [|calls]; [cbn in Hcalls; lia|].
    cbn [getPhotosFrom]. rewrite Hpage. cbn. rewrite app_nil_r.
    destruct (nextPageToken page) as [t|]; [|done]. by rewrite Hend.
  - destruct calls as [|calls]; [lia|]. cbn [getPhotosFrom]. by rewrite He.
  - destruct calls as [|calls]; [cbn in Hcalls; lia|].
    cbn [getPhotosFrom]. rewrite Hpage, Ht, Htt.
    rewrite IH by (cbn in Hcalls; lia).
    destruct ending; [done|]. cbn. by rewrite app_assoc.
Qed.

(** X28.  [getPhotos] of a Google Photos source asks for page after page
    until one names no next page, and returns the images of all pages in
    order (items whose MIME type does not start with [image/] are left
    out); when a request throws, [getPhotos] throws that error and what was
    listed so far is lost.  [calls] bounds the requests the loop may make. *)
Theorem getPhotos_reads_every_page api (pages : list Page)
    (ending : option string) (calls : nat) :
  serves api None pages ending →
  length pages < calls →
  getPhotos calls api =
    Some match ending with
         | None => inr (concat (photosOf <$> pages))
         | Some e => inl e
         end.
Proof.
  intros Hs Hc. unfold getPhotos.
  by rewrite (getPhotosFrom_serves api None pages ending Hs calls [] Hc).
Qed.

Lemma getPhotos_reads_every_page_witness :
  let photo := mkItem "id-1" "beach.jpg" "https://lh3.example/beach"
                      (Some "image/jpeg") in
  let clip := mkItem "id-2" "beach.mp4" "https://lh3.example/clip"
                     (Some "video/mp4") in
  let last := mkItem "id-3" "dune.png" "https://lh3.example/dune"
                     (Some "image/png") in
  let first_page := mkPage (Some [photo; clip]) (Some "page-2") in
  let last_page := mkPage (Some [last]) None in
  let api := λ pageToken : option string,
    match pageToken with
    | None => inr first_page
    | Some t => if String.eqb t "page-2" then inr last_page
                else inl "Google Photos API error: Not Found"
    end in
  getPhotos 3 api =
    Some (inr [mkPhoto "id-1" "beach.jpg" "https://lh3.example/beach";
               mkPhoto "id-3" "dune.png" "https://lh3.example/dune"]).
Proof.
  intros photo clip last first_page last_page api.
  apply (getPhotos_reads_every_page api [first_page; last_page] None 3).
  - eapply serves_next; [reflexivity|reflexivity|reflexivity|].
    apply serves_last; [reflexivity|exact I].
  - cbn. lia.
Defined.

End GoogleFacts.
